(** * shapefile-geojson-js: the streaming decoders, ring assembly and stitcher

    A shallow embedding of [parser.js] (the two transform streams and
    [stitch]) and [common.js] (header, record and ring functions).

    Conventions of the embedding.
    - Numbers.  The ring functions and the polygon branch of [common.js]
      are embedded twice.  First with exact rationals ([Q]) for the
      coordinates and areas, [==] being [Qeq_bool]: this is what the code
      computes where it only copies and compares numbers and where its
      arithmetic is exact, and it is the setting of the statements of that
      kind.  Then, in the module [Double], with the binary64 values of
      IEEE 754, their rounding, their infinities and NaN: this is the
      arithmetic of the code, and the setting of every statement that
      depends on a sum, a product or a quotient.
    - Integers read from a [DataView] and the counters of the transforms
      are [Z].
    - An [ArrayBuffer] is a [list byte]; a chunk is a [Uint8Array], a
      window of a buffer.
    - A thrown exception is the [Throw] case of [result]. *)

From Stdlib Require Import List ZArith QArith Qabs Qminmax Bool Lia Lqa Permutation.
From Stdlib.Strings Require Import Byte.
From Stdlib Require String Ascii.
From Stdlib Require Floats.SpecFloat.
Import String.StringSyntax.
Delimit Scope string_scope with string.
From Stdlib Require Import Arith PeanoNat.
Import ListNotations.

Set Implicit Arguments.
Local Open Scope Z_scope.

(** ** Exceptions *)

(** The messages of the [TypeError]s and [Error]s the sources throw. *)
Inductive message : Type :=
| NotAShapefile                        (* 'Not a Shapefile format' *)
| ReadableBytesRemained (filesize : Z) (* 'SHPTransform: readable bytes remained: ..' *)
| SHPBug                               (* 'SHPTransform: bug' *)
| RecordTypeNotImplemented (type : Z)  (* 'SHPTransform: record type .. not implemented.' *)
| RingTooShort                         (* 'SHPTransform: polygon ring too short.' *)
| RingNotClosed                        (* 'SHPTransform: polygon: ring not closed.' *)
| RingAreaIs0                          (* 'SHPTransform: polygon ring area is 0.' *)
| RingAreaZero                         (* 'SHPTransform: polygon: ring area is zero.' *)
| NoOuterRings                         (* 'SHPTransform: polygon: no outer rings.' *)
| DBFVersionNotImplemented (version : Z) (* 'DBF format .. not implemented.' *)
| EncryptedDBF                         (* 'Encryped DBF not implemented.' *)
| DBFFieldTypeNotImplemented (type : Z) (* 'DBF field type .. not implemented.' *)
| DBFFormatError                       (* 'DBFTransform: format error.' *)
| RecordsRemained (numrec : Z)         (* 'DBFTransform: records remained: ..' *)
| NotEnoughFeatures                    (* 'stitch: not enough feature records.' *)
| NotEnoughDbf.                        (* 'stitch: not enough dbf records.' *)

Inductive error : Type :=
| RangeError                 (* DataView access or Array length out of range *)
| TypeError (m : message)
| PlainError (m : message)   (* new Error(..) *)
| NullTypeError.             (* raised by the engine: a property of null is read *)

Inductive result (A : Type) : Type :=
| OK (a : A)
| Throw (e : error).
Arguments OK {A} a.
Arguments Throw {A} e.

Definition bind {A B} (m : result A) (k : A -> result B) : result B :=
  match m with
  | OK a => k a
  | Throw e => Throw e
  end.

Declare Scope result_scope.
Delimit Scope result_scope with result.
Notation "'let*' x ':=' m 'in' k" := (bind m (fun x => k))
  (at level 10, x pattern, m at level 100, k at level 200) : result_scope.
Local Open Scope result_scope.

(** ** Numbers *)

Definition Qlt_bool (x y : Q) : bool := negb (Qle_bool y x).

(** ** Rings ([common.js]) *)

Definition point : Type := (Q * Q)%type.
Definition px (p : point) : Q := fst p.
Definition py (p : point) : Q := snd p.

(** A GeoJSON bounding box [[w, s, e, n]]. *)
Record BBox : Type := mkBBox { bw : Q; bs : Q; be : Q; bn : Q }.

Definition origin : point := (0%Q, 0%Q).

(** [ring[i]] for an index inside the array. *)
Definition at_ (ring : list point) (i : nat) : point := nth i ring origin.

(** [ringClosed]: throws when [ring.length - 1 <= 2], otherwise compares
    the first point with the last one. *)
Definition ringClosed (ring : list point) : result bool :=
  let l := Z.of_nat (length ring) - 1 in
  if l <=? 2 then Throw (TypeError RingTooShort)
  else OK (Qeq_bool (px (at_ ring 0)) (px (at_ ring (Z.to_nat l)))
           && Qeq_bool (py (at_ ring 0)) (py (at_ ring (Z.to_nat l)))).

(** One term of the loop of [ringArea]:
    [ring[i][1] * (ring[p][0] - ring[n][0])]. *)
Definition shoelace_term (ring : list point) (i : nat) : Q :=
  let l := length ring in
  let p := if (0 <? i)%nat then (i - 1)%nat else (l - 1)%nat in
  let n := if (i <? l - 1)%nat then (i + 1)%nat else 0%nat in
  (py (at_ ring i) * (px (at_ ring p) - px (at_ ring n)))%Q.

(** The variable [sum] of [ringArea] when its loop ends. *)
Definition shoelace_sum (ring : list point) : Q :=
  fold_left (fun sum i => (sum + shoelace_term ring i)%Q)
            (seq 0 (length ring)) 0%Q.

(** The signed area that [ringArea] returns when it returns. *)
Definition signedArea (ring : list point) : Q := ((1 # 2) * shoelace_sum ring)%Q.

Definition ringArea (ring : list point) : result Q :=
  if Qeq_bool (shoelace_sum ring) 0 then Throw (TypeError RingAreaIs0)
  else OK (signedArea ring).

(** [insideRing]: the crossing number of the point [p] for the ring.  The
    edge [i] runs from [ring[i]] to [ring[(i + 1) % ring.length]]. *)
Definition crosses (p ri rn : point) : bool :=
  if (Qle_bool (py ri) (py p) && Qlt_bool (py p) (py rn))
     || (Qlt_bool (py p) (py ri) && Qle_bool (py rn) (py p))
  then
    let vt := ((py p - py ri) / (py rn - py ri))%Q in
    Qlt_bool (px p) (px ri + vt * (px rn - px ri))%Q
  else false.

Definition insideRing (p : point) (ring : list point) : nat :=
  fold_left
    (fun count i =>
       let n := ((i + 1) mod length ring)%nat in
       if crosses p (at_ ring i) (at_ ring n) then S count else count)
    (seq 0 (length ring)) 0%nat.

(** [bbox_intersection]: [None] is the [null] of the source. *)
Definition bbox_intersection (b1 b2 : BBox) : option BBox :=
  if Qlt_bool (be b1) (bw b2) || Qlt_bool (be b2) (bw b1)
     || Qlt_bool (bn b2) (bs b1) || Qlt_bool (bn b1) (bs b2)
  then None
  else Some (mkBBox (Qmax (bw b1) (bw b2)) (Qmax (bs b1) (bs b2))
                    (Qmin (be b1) (be b2)) (Qmin (bn b1) (bn b2))).

Definition MAX_SAFE_INTEGER : Q := 9007199254740991 # 1.

(** [bbox_of]: the four running extremes start at plus or minus
    [Number.MAX_SAFE_INTEGER]. *)
Definition bbox_of (line : list point) : BBox :=
  fold_left
    (fun b p =>
       let w := if Qlt_bool (px p) (bw b) then px p else bw b in
       let e := if Qlt_bool (be b) (px p) then px p else be b in
       let n := if Qlt_bool (bn b) (py p) then py p else bn b in
       let s := if Qlt_bool (py p) (bs b) then py p else bs b in
       mkBBox w s e n)
    line
    (mkBBox MAX_SAFE_INTEGER MAX_SAFE_INTEGER (- MAX_SAFE_INTEGER) (- MAX_SAFE_INTEGER)).

Definition bbox_contains (b : BBox) (p : point) : bool :=
  Qle_bool (bw b) (px p) && Qle_bool (px p) (be b)
  && Qle_bool (bs b) (py p) && Qle_bool (py p) (bn b).

(** One of the two loops of [ringIntersect]: the first point of [pts]
    inside [bb] whose crossing number for [ring] is not 0 decides, by the
    parity of that number; [None] when the loop ends without a [return]. *)
Fixpoint sample (bb : BBox) (pts ring : list point) : option bool :=
  match pts with
  | [] => None
  | p :: rest =>
      if bbox_contains bb p then
        let c := insideRing p ring in
        if (c =? 0)%nat then sample bb rest ring else Some (Nat.odd c)
      else sample bb rest ring
  end.

Definition ringIntersect (ring : list point) (b1 : BBox)
                         (hole : list point) (b2 : BBox) : bool :=
  match bbox_intersection b1 b2 with
  | None => false
  | Some bb =>
      match sample bb hole ring with
      | Some r => r
      | None =>
          match sample bb ring hole with
          | Some r => r
          | None => false
          end
      end
  end.

(** ** GeoJSON values *)

Inductive geometry : Type :=
| Point (coordinates : point)
| LineString (coordinates : list point)
| MultiLineString (coordinates : list (list point))
| Polygon (coordinates : list (list point))
| MultiPolygon (coordinates : list (list (list point)))
| MultiPoint (coordinates : list point).

(** ** Ring assembly: the polygon branch of [parseRecord] ([common.js])

    The objects [{ ring, area, bbox, outer }] are shared between the arrays
    [rings], [outers] and [inners] and are mutated through any of them, so
    the sorted array [rings] is the store and the other two arrays hold
    indices into it; [outer] is such an index too. *)

Record ringrec : Type := mkRing {
  ring : list point;
  area : Q;
  bbox : BBox;
  outer : option nat
}.

Definition no_ring : ringrec := mkRing [] 0 (bbox_of []) None.

Definition get (rings : list ringrec) (i : nat) : ringrec := nth i rings no_ring.

Fixpoint update {A} (i : nat) (f : A -> A) (l : list A) : list A :=
  match l, i with
  | [], _ => []
  | x :: l', O => f x :: l'
  | x :: l', S i' => x :: update i' f l'
  end.

(** The first loop over [lines]: closed check, area, record. *)
Fixpoint measure_rings (lines : list (list point)) : result (list ringrec) :=
  match lines with
  | [] => OK []
  | line :: rest =>
      let* closed := ringClosed line in
      if negb closed then Throw (TypeError RingNotClosed)
      else
        let* a := ringArea line in
        if Qeq_bool a 0 then Throw (TypeError RingAreaZero)
        else
          let* rs := measure_rings rest in
          OK (mkRing line a (bbox_of line) None :: rs)
  end.

(** [rings.sort((r1, r2) => r1.area - r2.area)].  [Array.prototype.sort]
    is stable, which fixes its result; the insertion below is one way to
    compute it: a record goes in front of the first record that the
    comparator does not put before it. *)
Fixpoint insert_ring (r : ringrec) (sorted : list ringrec) : list ringrec :=
  match sorted with
  | [] => [r]
  | x :: rest =>
      if Qlt_bool (area x - area r) 0 then x :: insert_ring r rest
      else r :: sorted
  end.

Definition sort_rings (rings : list ringrec) : list ringrec :=
  fold_right insert_ring [] rings.

Record assembly : Type := mkAssembly {
  rings : list ringrec;
  outers : list nat;
  inners : list (option nat)    (* [None] is a slot set to [null] *)
}.

(** [for (const outer of outers)] for one hole: the index of the outer
    that the loop leaves in [hole.outer], if it [break]s. *)
Fixpoint scan_outers (rs : list ringrec) (hole : ringrec) (os : list nat)
  : option nat :=
  match os with
  | [] => None
  | o :: rest =>
      if Qle_bool (Qabs (area (get rs o))) (area hole) then scan_outers rs hole rest
      else if ringIntersect (ring (get rs o)) (bbox (get rs o)) (ring hole) (bbox hole)
           then Some o
           else scan_outers rs hole rest
  end.

(** [inners.indexOf(hole)]. *)
Fixpoint indexOf (h : nat) (l : list (option nat)) : nat :=
  match l with
  | [] => 0
  | Some x :: rest => if (x =? h)%nat then 0 else S (indexOf h rest)
  | None :: rest => S (indexOf h rest)
  end.

(** The body of [for (const hole of inners)] for the hole [h]. *)
Definition place_hole (st : assembly) (h : nat) : assembly :=
  match scan_outers (rings st) (get (rings st) h) (outers st) with
  | Some o =>
      mkAssembly
        (update h (fun r => mkRing (ring r) (area r) (bbox r) (Some o)) (rings st))
        (outers st) (inners st)
  | None =>
      (* it's not a hole? *)
      mkAssembly
        (update h (fun r => mkRing (rev (ring r)) (- area r) (bbox r) (outer r))
                (rings st))
        (outers st ++ [h])
        (update (indexOf h (inners st)) (fun _ => None) (inners st))
  end.

(** [for (const hole of inners)], from the slot [k] on; [n] slots are
    left.  Reading [hole.area] from a slot that is [null] would be a
    [TypeError] of the engine. *)
Fixpoint place_holes (n k : nat) (st : assembly) : result assembly :=
  match n with
  | O => OK st
  | S n' =>
      match nth k (inners st) None with
      | Some h => place_holes n' (S k) (place_hole st h)
      | None => Throw NullTypeError
      end
  end.

(** [outers.indexOf(o)]. *)
Fixpoint position (o : nat) (l : list nat) : nat :=
  match l with
  | [] => 0
  | x :: rest => if (x =? o)%nat then 0 else S (position o rest)
  end.

(** The two loops before the geometry is built.  The first one replaces
    the ring of every outer by the one-element array of its reversal, so
    the arrays [r.ring] of the outers are kept as a list in the order of
    [outers].  The second one pushes the reversal of every hole that is
    left on the array of its outer, [h.outer.ring]. *)
Fixpoint push_holes (rs : list ringrec) (os : list nat) (hs : list (option nat))
                    (polys : list (list (list point)))
  : result (list (list (list point))) :=
  match hs with
  | [] => OK polys
  | None :: rest => push_holes rs os rest polys
  | Some h :: rest =>
      match outer (get rs h) with
      | None => Throw NullTypeError
      | Some o =>
          push_holes rs os rest
            (update (position o os) (fun poly => poly ++ [rev (ring (get rs h))]) polys)
      end
  end.

Definition emit (st : assembly) : result (list (list (list point))) :=
  push_holes (rings st) (outers st) (inners st)
             (map (fun o => [rev (ring (get (rings st) o))]) (outers st)).

(** The indices of the records of [rs] whose area satisfies [keep], in
    the order of the array: [rings.filter(r => ..)]. *)
Definition filter_rings (keep : Q -> bool) (rs : list ringrec) : list nat :=
  filter (fun i => keep (area (get rs i))) (seq 0 (length rs)).

(** [parseRecord], case 5, from the comment "now it's a polygon" on:
    [lines] holds one array of projected points per part. *)
Definition polygon_geometry (lines : list (list point)) : result geometry :=
  let* measured := measure_rings lines in
  let rs := sort_rings measured in
  let os := filter_rings (fun a => Qlt_bool a 0) rs in
  let hs := filter_rings (fun a => Qlt_bool 0 a) rs in
  let* st := place_holes (length hs) 0 (mkAssembly rs os (map Some hs)) in
  if (length (outers st) =? 0)%nat then Throw (TypeError NoOuterRings)
  else
    let* polys := emit st in
    if (length (outers st) =? 1)%nat then OK (Polygon (nth 0 polys []))
    else OK (MultiPolygon polys).

(** ** Vocabulary for the statements about rings *)

(** The first and the last coordinate pair of a ring are equal. *)
Definition first_last_equal (r : list point) : Prop :=
  match r with
  | [] => False
  | p :: _ => (px p == px (last r origin))%Q /\ (py p == py (last r origin))%Q
  end.

(** The fatal errors of the checks made on every ring of a polygon. *)
Definition ring_error (m : message) : Prop :=
  m = RingTooShort \/ m = RingNotClosed \/ m = RingAreaIs0 \/ m = RingAreaZero.

(** ** Sample rings *)

(** The square with corners [(a, a)] and [(b, b)], closed, listed
    clockwise for [a < b]: up the west side first. *)
Definition square_cw (a b : Z) : list point :=
  [(a # 1, a # 1); (a # 1, b # 1); (b # 1, b # 1); (b # 1, a # 1); (a # 1, a # 1)]%Q.

(** The same square listed counter-clockwise. *)
Definition square_ccw (a b : Z) : list point :=
  [(a # 1, a # 1); (b # 1, a # 1); (b # 1, b # 1); (a # 1, b # 1); (a # 1, a # 1)]%Q.

(** ** Buffers and [DataView] *)

(** An [ArrayBuffer] is the list of its bytes. *)
Definition ArrayBuffer : Type := list byte.

Definition byteLength (b : ArrayBuffer) : Z := Z.of_nat (length b).

(** The [n] bytes at [pos]; a [DataView] throws a [RangeError] when the
    position is negative or the bytes do not lie inside the buffer. *)
Definition bytes_at (b : ArrayBuffer) (pos : Z) (n : nat) : result (list byte) :=
  if (pos <? 0) || (byteLength b <? pos + Z.of_nat n) then Throw RangeError
  else OK (firstn n (skipn (Z.to_nat pos) b)).

Definition uint_le (bs : list byte) : Z :=
  fold_right (fun b acc => Z.of_N (Byte.to_N b) + 256 * acc) 0 bs.

Definition uint_be (bs : list byte) : Z := uint_le (rev bs).

Definition uint_of (littleEndian : bool) (bs : list byte) : Z :=
  if littleEndian then uint_le bs else uint_be bs.

(** Two's complement reading of a 32-bit pattern. *)
Definition to_int32 (u : Z) : Z := if u <? 2 ^ 31 then u else u - 2 ^ 32.

Definition getUint8 (b : ArrayBuffer) (pos : Z) : result Z :=
  let* bs := bytes_at b pos 1 in OK (uint_le bs).

Definition getUint16 (b : ArrayBuffer) (pos : Z) (littleEndian : bool) : result Z :=
  let* bs := bytes_at b pos 2 in OK (uint_of littleEndian bs).

Definition getUint32 (b : ArrayBuffer) (pos : Z) (littleEndian : bool) : result Z :=
  let* bs := bytes_at b pos 4 in OK (uint_of littleEndian bs).

Definition getInt32 (b : ArrayBuffer) (pos : Z) (littleEndian : bool) : result Z :=
  let* bs := bytes_at b pos 4 in OK (to_int32 (uint_of littleEndian bs)).

(** [new DataView(buffer, byteOffset, byteLength)], kept as the bytes it
    covers: a [RangeError] when the window does not lie inside the
    buffer. *)
Definition view (b : ArrayBuffer) (byteOffset len : Z) : result (list byte) :=
  if len <? 0 then Throw RangeError else bytes_at b byteOffset (Z.to_nat len).

(** ** Strings and values *)

(** A string is its sequence of UTF-16 code units. *)
Definition jsstring : Type := list N.

(** The code units of a literal of the sources, all of them ASCII. *)
Fixpoint js (s : String.string) : jsstring :=
  match s with
  | String.EmptyString => []
  | String.String c rest => Ascii.N_of_ascii c :: js rest
  end.

Definition jsstring_eqb (s t : jsstring) : bool :=
  if list_eq_dec N.eq_dec s t then true else false.

(** White space and line terminators, the code units [trim] removes. *)
Definition is_whitespace (c : N) : bool :=
  existsb (N.eqb c)
    [9; 10; 11; 12; 13; 32; 160; 5760; 8232; 8233; 8239; 8287; 12288; 65279]%N
  || ((8192 <=? c) && (c <=? 8202))%N.

Fixpoint trimStart (s : jsstring) : jsstring :=
  match s with
  | c :: rest => if is_whitespace c then trimStart rest else s
  | [] => []
  end.

Definition trim (s : jsstring) : jsstring := rev (trimStart (rev (trimStart s))).

(** [toLowerCase] on the letters A to Z.  The other code units are left as
    they are; none of them lowers to one of the letters the sources
    compare with. *)
Definition toLowerCase (s : jsstring) : jsstring :=
  map (fun c => if (65 <=? c) && (c <=? 90) then c + 32 else c)%N s.

(** A number as [Number(str)] returns it; a finite one is given by the
    rational that it is. *)
Inductive jsnum : Type :=
| NaN
| Num (q : Q)
| PosInfinity
| NegInfinity.

Inductive jsvalue : Type :=
| JNull
| JNumber (n : jsnum)
| JString (s : jsstring)
| JBoolean (b : bool).

(** *** [Number(str)]: the StringToNumber of ECMAScript *)

Definition digit_value (radix : N) (c : N) : option N :=
  let v := (if (48 <=? c) && (c <=? 57) then Some (c - 48)
            else if (97 <=? c) && (c <=? 122) then Some (c - 87)
            else if (65 <=? c) && (c <=? 90) then Some (c - 55)
            else None)%N in
  match v with
  | Some d => if (d <? radix)%N then Some d else None
  | None => None
  end.

(** The longest prefix of digits, as values, and what follows it. *)
Fixpoint digits (radix : N) (s : jsstring) : list N * jsstring :=
  match s with
  | c :: rest =>
      match digit_value radix c with
      | Some d => let (ds, tl) := digits radix rest in (d :: ds, tl)
      | None => ([], s)
      end
  | [] => ([], [])
  end.

Definition digits_value (radix : N) (ds : list N) : Z :=
  fold_left (fun acc d => acc * Z.of_N radix + Z.of_N d) ds 0.

(** [2 ^ e] for any integer [e]. *)
Definition pow2 (e : Z) : Q :=
  if e <? 0 then (1 # Z.to_pos (2 ^ (- e)))%Q else (2 ^ e # 1)%Q.

(** [10 ^ e] for any integer [e]. *)
Definition pow10 (e : Z) : Q :=
  if e <? 0 then (1 # Pos.pow 10 (Z.to_pos (- e)))%Q else (10 ^ e # 1)%Q.

(** ExponentPart after the digits [ip] . [fp]; nothing may follow it. *)
Definition with_exponent (ip fp : list N) (s : jsstring) : jsnum :=
  let mantissa := (digits_value 10 (ip ++ fp) # 1)%Q in
  let scale := - Z.of_nat (length fp) in
  match s with
  | [] => Num (mantissa * pow10 scale)
  | c :: rest =>
      if (c =? 101)%N || (c =? 69)%N then          (* e E *)
        let (negative, rest') :=
          match rest with
          | 43%N :: r => (false, r)                 (* + *)
          | 45%N :: r => (true, r)                  (* - *)
          | _ => (false, rest)
          end in
        match digits 10 rest' with
        | (d :: ds, []) =>
            let e := digits_value 10 (d :: ds) in
            Num (mantissa * pow10 (scale + (if negative then - e else e)))
        | _ => NaN
        end
      else NaN
  end.

(** StrUnsignedDecimalLiteral. *)
Definition unsigned_decimal (s : jsstring) : jsnum :=
  if jsstring_eqb s (js "Infinity"%string) then PosInfinity
  else
    let (ip, r1) := digits 10 s in
    match r1 with
    | 46%N :: r2 =>                                 (* . *)
        let (fp, r3) := digits 10 r2 in
        match ip, fp with
        | [], [] => NaN
        | _, _ => with_exponent ip fp r3
        end
    | _ =>
        match ip with
        | [] => NaN
        | _ => with_exponent ip [] r1
        end
    end.

Definition negate (n : jsnum) : jsnum :=
  match n with
  | NaN => NaN
  | Num q => Num (- q)
  | PosInfinity => NegInfinity
  | NegInfinity => PosInfinity
  end.

(** NonDecimalIntegerLiteral: all of [s] are digits of the radix. *)
Definition radix_literal (radix : N) (s : jsstring) : jsnum :=
  match digits radix s with
  | (d :: ds, []) => Num (digits_value radix (d :: ds) # 1)
  | _ => NaN
  end.

(** The mathematical value of the literal [str], before it is rounded;
    [NaN] when [str] is no StringNumericLiteral. *)
Definition literal_value (str : jsstring) : jsnum :=
  match trim str with
  | [] => Num 0
  | 48%N :: c :: rest =>                            (* 0x 0o 0b *)
      if (c =? 120)%N || (c =? 88)%N then radix_literal 16 rest
      else if (c =? 111)%N || (c =? 79)%N then radix_literal 8 rest
      else if (c =? 98)%N || (c =? 66)%N then radix_literal 2 rest
      else unsigned_decimal (48%N :: c :: rest)
  | 43%N :: rest => unsigned_decimal rest
  | 45%N :: rest => negate (unsigned_decimal rest)
  | s => unsigned_decimal s
  end.

(** A double as a number of the model. *)
Definition of_double (x : SpecFloat.spec_float) : jsnum :=
  match x with
  | SpecFloat.S754_zero _ => Num 0
  | SpecFloat.S754_finite s m e => Num (Qred (((if s then Zneg m else Zpos m) # 1) * pow2 e))
  | SpecFloat.S754_infinity false => PosInfinity
  | SpecFloat.S754_infinity true => NegInfinity
  | SpecFloat.S754_nan => NaN
  end.

(** The double nearest to the rational [q], ties to even, an infinity
    beyond the largest double: the quotient of its numerator and its
    denominator, rounded once, by the division of [SpecFloat]. *)
Definition nearest_double (q : Q) : jsnum :=
  let r := Qred q in
  let d := SpecFloat.S754_finite false (Qden r) 0 in
  match Qnum r with
  | Z0 => Num 0
  | Zpos n => of_double (SpecFloat.SFdiv 53 1024 (SpecFloat.S754_finite false n 0) d)
  | Zneg n => of_double (SpecFloat.SFdiv 53 1024 (SpecFloat.S754_finite true n 0) d)
  end.

(** RoundMVResult. *)
Definition RoundMVResult (n : jsnum) : jsnum :=
  match n with
  | Num q => nearest_double q
  | _ => n
  end.

(** [Number(str)]: the value of the literal, rounded to a double. *)
Definition Number (str : jsstring) : jsnum := RoundMVResult (literal_value str).

(** ** Attribute rows ([common.js]) *)

(** One field descriptor: [{ name, type, size }]; [type] is the code unit
    of the one-character string. *)
Record field : Type := mkField { name : jsstring; type : N; size : Z }.

(** The own properties of the object [row], as the list of its keys and
    values in the order of their first assignment.  (An engine lists the
    keys that are array indices before the others; no statement below
    depends on the order.) *)
Definition row : Type := list (jsstring * jsvalue).

Fixpoint row_assign (key : jsstring) (v : jsvalue) (r : row) : row :=
  match r with
  | [] => [(key, v)]
  | (k, w) :: rest =>
      if jsstring_eqb k key then (k, v) :: rest else (k, w) :: row_assign key v rest
  end.

(** The object [row] while [dbfRecord] fills it: its own properties, and
    whether its prototype is still [Object.prototype], as it is for the
    object literal. *)
Record object : Type := mkObject { own_properties : row; inherits : bool }.

Definition is_null (v : jsvalue) : bool :=
  match v with
  | JNull => true
  | _ => false
  end.

(** [row[name] = v].  While the object inherits from [Object.prototype],
    the key [__proto__] reaches the setter there, which creates no own
    property: it sets the prototype to [null] when the value is [null],
    and does nothing for a string, a number or a boolean, the other
    values of a column.  Once the prototype is [null] the key is a key
    like the others. *)
Definition row_set (key : jsstring) (v : jsvalue) (o : object) : object :=
  if jsstring_eqb key (js "__proto__"%string) && inherits o then
    mkObject (own_properties o) (negb (is_null v))
  else mkObject (row_assign key v (own_properties o)) (inherits o).

Fixpoint row_get (key : jsstring) (r : row) : option jsvalue :=
  match r with
  | [] => None
  | (k, w) :: rest => if jsstring_eqb k key then Some w else row_get key rest
  end.

(** [dbfHeader]: the pair [(numrec, reclen)]. *)
Definition dbfHeader (bytes : ArrayBuffer) : result (Z * Z) :=
  let* b0 := getUint8 bytes 0 in
  let version := Z.land b0 7 in
  if negb (version =? 3) then Throw (TypeError (DBFVersionNotImplemented version))
  else
    let* numrec := getUint32 bytes 4 true in
    let* reclen := getUint16 bytes 10 true in
    let* encrypted := getUint8 bytes 15 in
    if negb (encrypted =? 0) then Throw (TypeError EncryptedDBF)
    else OK (numrec, reclen).

(** A line terminator, which [.] of a regular expression does not match. *)
Definition is_line_terminator (c : N) : bool :=
  existsb (N.eqb c) [10; 13; 8232; 8233]%N.

(** [.replace(/\0.*$/, '')]: cut at the first NUL that no line terminator
    follows. *)
Fixpoint cut_at_nul (s : jsstring) : jsstring :=
  match s with
  | [] => []
  | c :: rest =>
      if (c =? 0)%N && forallb (fun d => negb (is_line_terminator d)) rest then []
      else c :: cut_at_nul rest
  end.

(** The loop [while (--l >= 0 && str.charCodeAt(l) == 0);] followed by
    [str.substring(0, l + 1)]: the NULs at the end are dropped. *)
Fixpoint drop_nuls (s : jsstring) : jsstring :=
  match s with
  | c :: rest => if (c =? 0)%N then drop_nuls rest else s
  | [] => []
  end.

Definition strip_nuls (s : jsstring) : jsstring := rev (drop_nuls (rev s)).

Section Decoder.

(** [decoder.decode]: the [TextDecoder] made for the encoding that was
    given to [DBFTransform]. *)
Variable decode : list byte -> jsstring.

(** [dbfField]: [None] is the [null] returned at the terminator [0x0d]. *)
Definition dbfField (bytes : ArrayBuffer) (pos : Z) : result (option field) :=
  let* b := getUint8 bytes pos in
  if b =? 13 then OK None
  else
    let* raw := view bytes pos 11 in
    let name := cut_at_nul (trim (decode raw)) in
    let* t := getUint8 bytes (pos + 11) in
    let* size := getUint8 bytes (pos + 16) in
    OK (Some (mkField name (Z.to_N t) size)).

(** The [switch (type)] of [dbfRecord] on the bytes [col] of one column. *)
Definition column_value (type : N) (col : list byte) : result jsvalue :=
  if (type =? 67)%N then                                     (* 'C' *)
    OK (JString (strip_nuls (trim (decode col))))
  else if (type =? 68)%N then                                (* 'D' *)
    OK (JString (trim (decode col)))
  else if (type =? 78)%N || (type =? 70)%N then              (* 'N' 'F' *)
    let str := trim (decode col) in
    OK (if jsstring_eqb str [] then JNull else JNumber (Number str))
  else if (type =? 76)%N then                                (* 'L' *)
    let str := trim (toLowerCase (decode col)) in
    if jsstring_eqb str (js "y"%string) || jsstring_eqb str (js "t"%string)
    then OK (JBoolean true)
    else if jsstring_eqb str (js "n"%string) || jsstring_eqb str (js "f"%string)
    then OK (JBoolean false)
    else OK JNull
  else Throw (TypeError (DBFFieldTypeNotImplemented (Z.of_N type))).

(** The loop of [dbfRecord] over the fields that are left; [rec] is given
    by its buffer and its [byteOffset], the only parts of it that are
    used. *)
Fixpoint dbfRecord_fields (bytes : ArrayBuffer) (byteOffset : Z) (fields : list field)
                          (pos : Z) (o : object) : result row :=
  match fields with
  | [] => OK (own_properties o)
  | f :: rest =>
      let* col := view bytes (byteOffset + pos + 1) (size f) in
      let* v := column_value (type f) col in
      dbfRecord_fields bytes byteOffset rest (pos + size f) (row_set (name f) v o)
  end.

Definition dbfRecord (bytes : ArrayBuffer) (byteOffset : Z) (fields : list field)
  : result row :=
  dbfRecord_fields bytes byteOffset fields 0 (mkObject [] true).

End Decoder.

(** ** Geometry records ([common.js]) *)

(** A GeoJSON Feature: [bbox] is absent on null shapes and points. *)
Record feature : Type := mkFeature {
  ft_bbox : option BBox;
  ft_geometry : option geometry;
  properties : option row
}.

(** [Array.prototype.slice(start, end)]. *)
Definition array_slice {A} (l : list A) (start final : Z) : list A :=
  let len := Z.of_nat (length l) in
  let from := if start <? 0 then Z.max (len + start) 0 else Z.min start len in
  let to := if final <? 0 then Z.max (len + final) 0 else Z.min final len in
  firstn (Z.to_nat (to - from)) (skipn (Z.to_nat from) l).

(** [Array(n)] throws a [RangeError] for a negative length. *)
Definition Array_ (n : Z) : result nat :=
  if n <? 0 then Throw RangeError else OK (Z.to_nat n).

Section Projection.

(** The value of eight bytes read by [getFloat64(.., true)]. *)
Variable float64 : list byte -> Q.

(** [proj]: the identity, or the inverse of the projection of the
    [.prj] text. *)
Variable project : point -> point.

Definition getFloat64 (b : ArrayBuffer) (pos : Z) : result Q :=
  let* bs := bytes_at b pos 8 in OK (float64 bs).

Definition read_point (b : ArrayBuffer) (pos : Z) : result point :=
  let* x := getFloat64 b pos in
  let* y := getFloat64 b (pos + 8) in
  OK (project (x, y)).

Definition parseBBox (bytes : ArrayBuffer) (off : Z) : result BBox :=
  let* lo := read_point bytes off in
  let* hi := read_point bytes (off + 16) in
  OK (mkBBox (px lo) (py lo) (px hi) (py hi)).

(** [parseHeader]: the pair [(bbox, filesize)]. *)
Definition parseHeader (bytes : ArrayBuffer) : result (BBox * Z) :=
  let* magic := getInt32 bytes 0 false in
  if negb (magic =? 9994) then Throw (TypeError NotAShapefile)
  else
    let* words := getInt32 bytes 24 false in
    let filesize := words * 2 in
    let* bbox := parseBBox bytes 36 in
    OK (bbox, filesize).

(** [n] integers of four bytes from [pos] on. *)
Fixpoint read_parts (b : ArrayBuffer) (pos : Z) (n : nat) : result (list Z) :=
  match n with
  | O => OK []
  | S n' =>
      let* part := getInt32 b pos true in
      let* rest := read_parts b (pos + 4) n' in
      OK (part :: rest)
  end.

(** [n] projected points of sixteen bytes from [pos] on. *)
Fixpoint read_points (b : ArrayBuffer) (pos : Z) (n : nat) : result (list point) :=
  match n with
  | O => OK []
  | S n' =>
      let* p := read_point b pos in
      let* rest := read_points b (pos + 16) n' in
      OK (p :: rest)
  end.

(** [lines[i] = points.slice(parts[i], parts[i + 1])], and up to
    [npoints] for the last part. *)
Fixpoint slice_parts (points : list point) (npoints : Z) (parts : list Z)
  : list (list point) :=
  match parts with
  | [] => []
  | i0 :: rest =>
      let i1 := match rest with
                | [] => npoints
                | next :: _ => next
                end in
      array_slice points i0 i1 :: slice_parts points npoints rest
  end.

Definition parseRecord (bytes : ArrayBuffer) (offset : Z) : result feature :=
  let* type := getInt32 bytes offset true in
  if type =? 0 then OK (mkFeature None None None)
  else if type =? 1 then
    let* p := read_point bytes (offset + 4) in
    OK (mkFeature None (Some (Point p)) None)
  else if (type =? 3) || (type =? 5) then
    let* bbox := parseBBox bytes (offset + 4) in
    let* nparts := getInt32 bytes (offset + 36) true in
    let* npoints := getInt32 bytes (offset + 40) true in
    let* np := Array_ nparts in
    let* nq := Array_ npoints in
    let* parts := read_parts bytes (offset + 44) np in
    let* points := read_points bytes (offset + 44 + 4 * nparts) nq in
    let lines := slice_parts points npoints parts in
    if type =? 3 then
      OK (mkFeature (Some bbox)
            (Some (if nparts =? 1 then LineString (nth 0 lines [])
                   else MultiLineString lines))
            None)
    else
      let* g := polygon_geometry lines in
      OK (mkFeature (Some bbox) (Some g) None)
  else if type =? 8 then
    let* bbox := parseBBox bytes (offset + 4) in
    let* num := getInt32 bytes (offset + 36) true in
    let* n := Array_ num in
    let* points := read_points bytes (offset + 40) n in
    OK (mkFeature (Some bbox) (Some (MultiPoint points)) None)
  else Throw (TypeError (RecordTypeNotImplemented type)).

End Projection.

(** ** Typed arrays *)

(** A [Uint8Array] (a [Buffer] of Node is one): the window of [length]
    bytes at [byteOffset] of its [buffer].  The chunks of a byte stream
    are such arrays.  The window of a typed array lies inside its buffer,
    and [chunk.length] is the number of its [elements]. *)
Record Uint8Array : Type := mkUint8Array {
  chunk_buffer : ArrayBuffer;   (* [chunk.buffer] *)
  byteOffset : Z;
  chunk_length : Z              (* [chunk.length] *)
}.

(** The elements of the array: the bytes of its window. *)
Definition elements (chunk : Uint8Array) : list byte :=
  firstn (Z.to_nat (chunk_length chunk))
         (skipn (Z.to_nat (byteOffset chunk)) (chunk_buffer chunk)).

(** [new Uint8Array(bytes)] on a buffer: the array that covers all of
    it. *)
Definition own (bytes : ArrayBuffer) : Uint8Array :=
  mkUint8Array bytes 0 (Z.of_nat (length bytes)).

(** [chunk.subarray(begin, end)]: a window of the same buffer. *)
Definition subarray (chunk : Uint8Array) (begin final : Z) : Uint8Array :=
  let len := chunk_length chunk in
  let from := if begin <? 0 then Z.max (len + begin) 0 else Z.min begin len in
  let to := if final <? 0 then Z.max (len + final) 0 else Z.min final len in
  mkUint8Array (chunk_buffer chunk) (byteOffset chunk + from) (Z.max (to - from) 0).

(** [new Uint8Array(n)]: [n] bytes, all of them 0. *)
Definition zero_filled (n : Z) : list byte := repeat "000"%byte (Z.to_nat n).

(** ** The transform streams ([parser.js]) *)

(** [ArrayBuffer.prototype.slice(begin)]. *)
Definition buffer_slice (b : ArrayBuffer) (begin : Z) : ArrayBuffer :=
  let len := byteLength b in
  let first := if begin <? 0 then Z.max (len + begin) 0 else Z.min begin len in
  skipn (Z.to_nat first) b.

(** How a call of [transform] ends: it returns, with the variables of the
    closure in [st]; or it throws, with the variables as they were then;
    [out] holds what the call has enqueued.  The loop [while (true)] is run
    for at most [fuel] rounds, and [OutOfFuel] says that they did not
    suffice. *)
Inductive outcome (S O : Type) : Type :=
| Returned (st : S) (out : list O)
| Threw (e : error) (st : S) (out : list O)
| OutOfFuel.
Arguments Returned {S O} st out.
Arguments Threw {S O} e st out.
Arguments OutOfFuel {S O}.

(** [controller.enqueue(..)] of [out] before what follows. *)
Definition enqueued {S O} (out : list O) (rest : outcome S O) : outcome S O :=
  match rest with
  | Returned st out' => Returned st (out ++ out')
  | Threw e st out' => Threw e st (out ++ out')
  | OutOfFuel => OutOfFuel
  end.

Module SHPTransform.
Section Transform.

(** [parser.js] imports [shpHeader] and [shpRecord] from [common.js],
    which exports no function of these names: the two decoders are
    parameters of the transform.  [shpHeader bytes] stands for
    [shpHeader(buffer, project)], the pair of [header.bbox] and
    [header.filesize]; [shpRecord bytes offset withM] stands for
    [shpRecord(buffer, offset, project, withM)]. *)
Variable shpHeader : ArrayBuffer -> result (BBox * Z).
Variable shpRecord : ArrayBuffer -> Z -> bool -> result feature.

(** The variables of the closure.  [bbox] is the array of the caller,
    [None] while its four slots are empty. *)
Record state : Type := mkState {
  buffer : option ArrayBuffer;
  offset : Z;
  needed : Z;
  status : Z;
  filesize : Z;
  bbox : option BBox
}.

Definition init : state := mkState None 0 100 0 0 None.

(** The loop [while (true)] on the buffer [data]. *)
Fixpoint loop (withM : bool) (fuel : nat) (data : ArrayBuffer) (st : state)
  : outcome state feature :=
  match fuel with
  | O => OutOfFuel
  | S fuel' =>
      if byteLength data - offset st <? needed st then Returned st []
      else if status st =? 0 then
        match shpHeader data with
        | Throw e => Threw e st []
        | OK (hbbox, hfilesize) =>
            loop withM fuel' data
                 (mkState (buffer st) 100 8 1 (hfilesize - 100) (Some hbbox))
        end
      else if status st =? 1 then
        (* record header *)
        match getInt32 data (offset st + 4) false with
        | Throw e => Threw e st []
        | OK words =>
            loop withM fuel' data
                 (mkState (buffer st) (offset st + 8) (words * 2) 2
                          (filesize st - 8) (bbox st))
        end
      else if status st =? 2 then
        (* record contents *)
        match shpRecord data (offset st) withM with
        | Throw e => Threw e st []
        | OK ft =>
            enqueued [ft]
              (loop withM fuel' data
                    (mkState (buffer st) (offset st + needed st) 8 1
                             (filesize st - needed st) (bbox st)))
        end
      else Threw (PlainError SHPBug) st []
  end.

(** [transform(chunk, controller)].  The first chunk gives its whole
    [chunk.buffer] to the decoder; a later one is copied, with its
    [chunk.length] elements, behind the rest of the buffer. *)
Definition transform (withM : bool) (fuel : nat) (chunk : Uint8Array) (st : state)
  : outcome state feature :=
  match buffer st with
  | None =>
      loop withM fuel (chunk_buffer chunk)
           (mkState (Some (chunk_buffer chunk)) (offset st) (needed st) (status st)
                    (filesize st) (bbox st))
  | Some b =>
      let rem := buffer_slice b (offset st) in
      let tmp := rem ++ elements chunk in
      loop withM fuel tmp
           (mkState (Some tmp) 0 (needed st) (status st) (filesize st) (bbox st))
  end.

Definition flush (st : state) : option error :=
  if negb (filesize st =? 0) then Some (TypeError (ReadableBytesRemained (filesize st)))
  else None.

(** The chunks of the readable side go through [transform] one after
    the other; a throw errors the stream and ends it. *)
Fixpoint feed (withM : bool) (fuel : nat) (chunks : list Uint8Array) (st : state)
  : outcome state feature :=
  match chunks with
  | [] => Returned st []
  | chunk :: rest =>
      match transform withM fuel chunk st with
      | Returned st' out => enqueued out (feed withM fuel rest st')
      | other => other
      end
  end.

(** A whole stream: the features enqueued, the array [bbox] at the end,
    and the error of the stream if [transform] or [flush] threw. *)
Definition run (withM : bool) (fuel : nat) (chunks : list Uint8Array)
  : option (list feature * option BBox * option error) :=
  match feed withM fuel chunks init with
  | Returned st out => Some (out, bbox st, flush st)
  | Threw e st out => Some (out, bbox st, Some e)
  | OutOfFuel => None
  end.

End Transform.
End SHPTransform.

Module DBFTransform.
Section Transform.

Variable decode : list byte -> jsstring.

Record state : Type := mkState {
  buffer : option ArrayBuffer;
  offset : Z;
  needed : Z;
  status : Z;
  numrec : Z;
  reclen : Z;
  fields : list field
}.

Definition init : state := mkState None 0 32 0 0 0 [].

Fixpoint loop (fuel : nat) (data : ArrayBuffer) (st : state) : outcome state row :=
  match fuel with
  | O => OutOfFuel
  | S fuel' =>
      if byteLength data - offset st <? needed st then Returned st []
      else if status st =? 0 then
        match dbfHeader data with
        | Throw e => Threw e st []
        | OK (hnumrec, hreclen) =>
            loop fuel' data (mkState (buffer st) 32 32 1 hnumrec hreclen (fields st))
        end
      else if status st =? 1 then
        (* field descriptor *)
        match dbfField decode data (offset st) with
        | Throw e => Threw e st []
        | OK None =>
            loop fuel' data
                 (mkState (buffer st) (offset st + 1) (reclen st) 2
                          (numrec st) (reclen st) (fields st))
        | OK (Some f) =>
            loop fuel' data
                 (mkState (buffer st) (offset st + needed st) (needed st) (status st)
                          (numrec st) (reclen st) (fields st ++ [f]))
        end
      else if status st =? 2 then
        match view data (offset st) (reclen st) with
        | Throw e => Threw e st []
        | OK rec =>
            match getUint8 rec 0 with
            | Throw e => Threw e st []
            | OK flag =>
                if flag =? 42 then
                  loop fuel' data
                       (mkState (buffer st) (offset st + needed st) (needed st)
                                (status st) (numrec st - 1) (reclen st) (fields st))
                else if negb (flag =? 32) then
                  Threw (TypeError DBFFormatError) st []
                else
                  match dbfRecord decode data (offset st) (fields st) with
                  | Throw e => Threw e st []
                  | OK r =>
                      enqueued [r]
                        (loop fuel' data
                              (mkState (buffer st) (offset st + needed st) (needed st)
                                       (status st) (numrec st - 1) (reclen st)
                                       (fields st)))
                  end
            end
        end
      else loop fuel' data st   (* no branch is taken and the loop goes on *)
  end.

(** [transform(chunk, controller)].  The first chunk gives its whole
    [chunk.buffer] to the decoder; a later one is copied behind the rest
    of the buffer into an array of [rem.byteLength +
    chunk.buffer.byteLength] bytes, which stay 0 behind the elements of
    the chunk when its buffer is larger than its window. *)
Definition transform (fuel : nat) (chunk : Uint8Array) (st : state)
  : outcome state row :=
  match buffer st with
  | None =>
      loop fuel (chunk_buffer chunk)
           (mkState (Some (chunk_buffer chunk)) (offset st) (needed st) (status st)
                    (numrec st) (reclen st) (fields st))
  | Some b =>
      let rem := buffer_slice b (offset st) in
      let tmp :=
        rem ++ elements chunk
        ++ zero_filled (byteLength (chunk_buffer chunk) - byteLength (elements chunk)) in
      loop fuel tmp
           (mkState (Some tmp) 0 (needed st) (status st)
                    (numrec st) (reclen st) (fields st))
  end.

Definition flush (st : state) : option error :=
  if negb (numrec st =? 0) then Some (TypeError (RecordsRemained (numrec st)))
  else None.

Fixpoint feed (fuel : nat) (chunks : list Uint8Array) (st : state)
  : outcome state row :=
  match chunks with
  | [] => Returned st []
  | chunk :: rest =>
      match transform fuel chunk st with
      | Returned st' out => enqueued out (feed fuel rest st')
      | other => other
      end
  end.

(** A whole stream: the rows enqueued and the error of the stream if
    [transform] or [flush] threw. *)
Definition run (fuel : nat) (chunks : list Uint8Array)
  : option (list row * option error) :=
  match feed fuel chunks init with
  | Returned st out => Some (out, flush st)
  | Threw e st out => Some (out, Some e)
  | OutOfFuel => None
  end.

End Transform.
End DBFTransform.

(** ** [stitch] ([parser.js]) *)

(** A readable stream, as a reader sees it: the values [read()] resolves
    to, then [done], or the error [read()] rejects with. *)
Record stream (A : Type) : Type := mkStream {
  items : list A;
  failure : option error
}.
Arguments mkStream {A} items failure.
Arguments items {A} s.
Arguments failure {A} s.

(** [feature.properties = prop.value]. *)
Definition with_properties (ft : feature) (r : row) : feature :=
  mkFeature (ft_bbox ft) (ft_geometry ft) (Some r).

(** The loop of [stitch] on the values that are left to read from [shp]
    ([feats], then the end [shp_end]) and from [dbf]: the features it
    yields and the error it throws, if any.  [feat] is read first, then
    [prop]; a read that rejects is the exception of the [await]. *)
Fixpoint stitch_loop (feats : list feature) (shp_end : option error)
                     (props : list row) (dbf_end : option error)
  : list feature * option error :=
  match feats, props with
  | ft :: feats', r :: props' =>
      let (yielded, e) := stitch_loop feats' shp_end props' dbf_end in
      (with_properties ft r :: yielded, e)
  | ft :: _, [] =>
      match dbf_end with
      | Some e => ([], Some e)
      | None => ([], Some (TypeError NotEnoughDbf))
      end
  | [], r :: _ =>
      match shp_end with
      | Some e => ([], Some e)
      | None => ([], Some (TypeError NotEnoughFeatures))
      end
  | [], [] =>
      match shp_end, dbf_end with
      | Some e, _ => ([], Some e)
      | None, Some e => ([], Some e)
      | None, None => ([], None)
      end
  end.

Definition stitch (shp : stream feature) (dbf : stream row)
  : list feature * option error :=
  stitch_loop (items shp) (failure shp) (items dbf) (failure dbf).

(** ** Vocabulary for the statements about streams and rows *)

Definition byte_of (n : N) : byte :=
  match Byte.of_N n with
  | Some b => b
  | None => "000"%byte
  end.

Definition bytes_of (ns : list N) : list byte := map byte_of ns.

(** The bytes of an ASCII text. *)
Definition ascii_bytes (s : String.string) : list byte := String.list_byte_of_string s.

(** The byte at index [i] as a number, 0 beyond the end. *)
Definition byte_at (bs : list byte) (i : nat) : Z :=
  Z.of_N (Byte.to_N (nth i bs "000"%byte)).

(** [new TextDecoder('latin1')], the default of [DBFTransform]: the label
    names windows-1252, which differs from the identity on 0x80..0x9F. *)
Definition windows1252_high : list N :=
  [8364; 129; 8218; 402; 8222; 8230; 8224; 8225;
   710; 8240; 352; 8249; 338; 141; 381; 143;
   144; 8216; 8217; 8220; 8221; 8226; 8211; 8212;
   732; 8482; 353; 8250; 339; 157; 382; 376]%N.

Definition windows1252 (bs : list byte) : jsstring :=
  map (fun b =>
         let n := Byte.to_N b in
         if (128 <=? n) && (n <=? 159) then nth (N.to_nat (n - 128)) windows1252_high n
         else n)%N bs.

(** The pairs that [stitch] merges: the row becomes the properties of the
    feature at the same position. *)
Definition merged (feats : list feature) (props : list row) : list feature :=
  map (fun pair => with_properties (fst pair) (snd pair)) (combine feats props).

(** A stream that ends without an error after the values [l]. *)
Definition closing {A} (l : list A) : stream A := mkStream l None.

(** A reader of a buffer at an offset is local when a result it gets from
    a buffer is the result it gets from any buffer that holds the same
    bytes at a later place, with more bytes around them. *)
Definition local {A} (f : ArrayBuffer -> Z -> result A) : Prop :=
  forall (w : ArrayBuffer) (p : Z) (v : A),
    f w p = OK v ->
    forall pre post : list byte,
      f (pre ++ w ++ post) (Z.of_nat (length pre) + p) = OK v.

(** The header of a DBF stream, by the bytes it is read from. *)
Definition dbf_version (bs : list byte) : Z := Z.land (byte_at bs 0) 7.
Definition dbf_encrypted (bs : list byte) : Z := byte_at bs 15.





(** The deletion flag of a record. *)
Definition flag (r : list byte) : Z := byte_at r 0.
Definition deleted (r : list byte) : bool := flag r =? 42.

(** The bytes of a record that the fields cover, the flag included. *)
Definition record_width (fs : list field) : Z :=
  1 + fold_right (fun f acc => size f + acc) 0 fs.

(** The rows decoded from a sequence of records, each record read from its
    own bytes alone, up to the first exception. *)
Fixpoint rows_result (decode : list byte -> jsstring) (fs : list field)
                     (rows : list (list byte)) : list row * option error :=
  match rows with
  | [] => ([], None)
  | r :: rest =>
      if deleted r then rows_result decode fs rest
      else if negb (flag r =? 32) then ([], Some (TypeError DBFFormatError))
      else
        match dbfRecord decode r 0 fs with
        | Throw e => ([], Some e)
        | OK v => let (out, e) := rows_result decode fs rest in (v :: out, e)
        end
  end.

(** ** A sample attribute table *)

(** Two fields, a number of 7 bytes and a text of 8 bytes: records of 16
    bytes. *)
Definition sample_fields : list field :=
  [mkField (js "COUNT"%string) 78 7; mkField (js "LABEL"%string) 67 8].

Definition sample_rows : list (list byte) :=
  [ascii_bytes " 0000012first   "%string;
   ascii_bytes "*0000099removed "%string;
   ascii_bytes " 0000034third   "%string].

(** The 32 bytes of a descriptor: name, type, size. *)
Definition sample_descriptor (name : String.string) (type size : N) : list byte :=
  firstn 11 (ascii_bytes name ++ bytes_of (repeat 0%N 11))
  ++ bytes_of ([type; 0; 0; 0; 0; size]%N ++ repeat 0%N 15).

(** Header (version byte, date, 3 records, header of 97 bytes, records of
    16 bytes), two descriptors, the terminator, three records, the end
    mark. *)
Definition sample_dbf_header (version : N) : list byte :=
  bytes_of ([version; 124; 1; 1; 3; 0; 0; 0; 97; 0; 16; 0]%N ++ repeat 0%N 20).

Definition sample_dbf : list byte :=
  sample_dbf_header 3
  ++ sample_descriptor "COUNT"%string 78 7
  ++ sample_descriptor "LABEL"%string 67 8
  ++ bytes_of [13%N]
  ++ concat sample_rows
  ++ bytes_of [26%N].

(** A list of bytes, delivered one byte per chunk. *)
Definition bytewise (bs : list byte) : list (list byte) := map (fun b => [b]) bs.

(** ** Vocabulary for the statements about the geometry stream *)

(** Every exception of [m] satisfies [P]. *)
Definition throws_only {A} (P : error -> Prop) (m : result A) : Prop :=
  forall e, m = Throw e -> P e.

(** The file length that the header of a stream declares, in bytes: twice
    the big-endian integer at byte 24. *)
Definition shp_declared (bs : list byte) : Z :=
  to_int32 (uint_be (firstn 4 (skipn 24 bs))) * 2.

(** ** The two transforms as one machine

    Both transforms keep a buffer and a cursor [offset] and run the same
    loop: while the buffer holds [needed] bytes from the cursor on, do one
    round, which reads at the cursor, changes the other variables (the
    registers), moves the cursor and may enqueue values.  The machine
    below is that loop for any registers [Reg] and any round, fed with
    the bytes of its chunks; each transform is shown to be an instance of
    it on chunks that own their buffer. *)

Definition map_outcome {S T O} (f : S -> T) (o : outcome S O) : outcome T O :=
  match o with
  | Returned st out => Returned (f st) out
  | Threw e st out => Threw e (f st) out
  | OutOfFuel => OutOfFuel
  end.

Section Machine.

Variables Reg Out : Type.

(** The bytes a round needs. *)
Variable wanted : Reg -> Z.

(** One round on a buffer at a cursor: the new registers, the advance of
    the cursor and the values enqueued. *)
Variable round : Reg -> ArrayBuffer -> Z -> result (Reg * Z * list Out).

Fixpoint machine_loop (fuel : nat) (data : ArrayBuffer) (r : Reg) (off : Z)
  : outcome (Reg * Z) Out :=
  match fuel with
  | O => OutOfFuel
  | S fuel' =>
      if byteLength data - off <? wanted r then Returned (r, off) []
      else
        match round r data off with
        | Throw e => Threw e (r, off) []
        | OK (r', adv, out) => enqueued out (machine_loop fuel' data r' (off + adv))
        end
  end.

(** Between two calls: the buffer, [None] before the first chunk, the
    registers and the cursor. *)
Definition machine_state : Type := (option ArrayBuffer * Reg * Z)%type.

Definition machine_transform (fuel : nat) (chunk : list byte) (st : machine_state)
  : outcome machine_state Out :=
  let '(buf, r, off) := st in
  match buf with
  | None =>
      map_outcome (fun ro => (Some chunk, fst ro, snd ro))
                  (machine_loop fuel chunk r off)
  | Some b =>
      let tmp := buffer_slice b off ++ chunk in
      map_outcome (fun ro => (Some tmp, fst ro, snd ro))
                  (machine_loop fuel tmp r 0)
  end.

Fixpoint machine_feed (fuel : nat) (chunks : list (list byte)) (st : machine_state)
  : outcome machine_state Out :=
  match chunks with
  | [] => Returned st []
  | chunk :: rest =>
      match machine_transform fuel chunk st with
      | Returned st' out => enqueued out (machine_feed fuel rest st')
      | other => other
      end
  end.

(** [decodes r input r' out]: from the registers [r], the rounds consume
    the input front to back, every round on a buffer that holds exactly
    the bytes it asked for, moving the cursor forward by at most that
    many bytes, until fewer bytes are left than the next round asks for;
    [r'] holds the registers then and [out] the values enqueued. *)
Inductive decodes : Reg -> list byte -> Reg -> list Out -> Prop :=
| decodes_wait (r : Reg) (input : list byte) :
    byteLength input < wanted r ->
    decodes r input r []
| decodes_round (r : Reg) (input : list byte) (r' : Reg) (adv : Z) (out : list Out)
                (r'' : Reg) (out' : list Out) :
    wanted r <= byteLength input ->
    round r (firstn (Z.to_nat (wanted r)) input) 0 = OK (r', adv, out) ->
    0 < adv <= wanted r ->
    decodes r' (skipn (Z.to_nat adv) input) r'' out' ->
    decodes r input r'' (out ++ out').

End Machine.

(** The unconsumed bytes of a state between two calls. *)
Definition live (buf : option ArrayBuffer) (off : Z) : list byte :=
  match buf with
  | None => []
  | Some b => skipn (Z.to_nat off) b
  end.

Module SHPMachine.
Section Machine.

Variable shpHeader : ArrayBuffer -> result (BBox * Z).
Variable shpRecord : ArrayBuffer -> Z -> bool -> result feature.
Variable withM : bool.

(** The variables of [SHPTransform] other than the buffer and the
    cursor. *)
Record registers : Type := mkRegisters {
  needed : Z;
  status : Z;
  filesize : Z;
  bbox : option BBox
}.

Definition init : registers := mkRegisters 100 0 0 None.

Definition registers_of (st : SHPTransform.state) : registers :=
  mkRegisters (SHPTransform.needed st) (SHPTransform.status st)
              (SHPTransform.filesize st) (SHPTransform.bbox st).

Definition state_of (buf : option ArrayBuffer) (ro : registers * Z)
  : SHPTransform.state :=
  SHPTransform.mkState buf (snd ro) (needed (fst ro)) (status (fst ro))
                       (filesize (fst ro)) (bbox (fst ro)).

(** One round of the loop of [SHPTransform]. *)
Definition round (r : registers) (data : ArrayBuffer) (off : Z)
  : result (registers * Z * list feature) :=
  if status r =? 0 then
    let* h := shpHeader data in
    OK (mkRegisters 8 1 (snd h - 100) (Some (fst h)), 100 - off, [])
  else if status r =? 1 then
    let* words := getInt32 data (off + 4) false in
    OK (mkRegisters (words * 2) 2 (filesize r - 8) (bbox r), 8, [])
  else if status r =? 2 then
    let* ft := shpRecord data off withM in
    OK (mkRegisters 8 1 (filesize r - needed r) (bbox r), needed r, [ft])
  else Throw (PlainError SHPBug).

(** A stream is accepted when its rounds succeed on exactly the bytes
    they ask for. *)
Definition accepts (bs : list byte) : Prop :=
  exists r out, decodes needed round init bs r out.

End Machine.
End SHPMachine.

Module DBFMachine.
Section Machine.

Variable decode : list byte -> jsstring.

Record registers : Type := mkRegisters {
  needed : Z;
  status : Z;
  numrec : Z;
  reclen : Z;
  fields : list field
}.

Definition init : registers := mkRegisters 32 0 0 0 [].

Definition registers_of (st : DBFTransform.state) : registers :=
  mkRegisters (DBFTransform.needed st) (DBFTransform.status st)
              (DBFTransform.numrec st) (DBFTransform.reclen st)
              (DBFTransform.fields st).

Definition state_of (buf : option ArrayBuffer) (ro : registers * Z)
  : DBFTransform.state :=
  DBFTransform.mkState buf (snd ro) (needed (fst ro)) (status (fst ro))
                       (numrec (fst ro)) (reclen (fst ro)) (fields (fst ro)).

(** One round of the loop of [DBFTransform]. *)
Definition round (r : registers) (data : ArrayBuffer) (off : Z)
  : result (registers * Z * list row) :=
  if status r =? 0 then
    let* h := dbfHeader data in
    OK (mkRegisters 32 1 (fst h) (snd h) (fields r), 32 - off, [])
  else if status r =? 1 then
    let* field := dbfField decode data off in
    match field with
    | None => OK (mkRegisters (reclen r) 2 (numrec r) (reclen r) (fields r), 1, [])
    | Some f =>
        OK (mkRegisters (needed r) (status r) (numrec r) (reclen r) (fields r ++ [f]),
            needed r, [])
    end
  else if status r =? 2 then
    let* rec := view data off (reclen r) in
    let* flag := getUint8 rec 0 in
    if flag =? 42 then
      OK (mkRegisters (needed r) (status r) (numrec r - 1) (reclen r) (fields r),
          needed r, [])
    else if negb (flag =? 32) then Throw (TypeError DBFFormatError)
    else
      let* v := dbfRecord decode data off (fields r) in
      OK (mkRegisters (needed r) (status r) (numrec r - 1) (reclen r) (fields r),
          needed r, [v])
  else OK (r, 0, []).

Definition accepts (bs : list byte) : Prop :=
  exists r out, decodes needed round init bs r out.

End Machine.
End DBFMachine.

(** A position computed from the cursor [o] as [o + k], for a [k] that is
    not negative. *)
Definition forward (g : Z -> Z) : Prop :=
  0 <= g 0 /\ forall o, g o = o + g 0.

(** The registers with which a round reads the header, at the start of
    the buffer. *)
Definition shp_anchored (r : SHPMachine.registers) : bool := SHPMachine.status r =? 0.
Definition dbf_anchored (r : DBFMachine.registers) : bool := DBFMachine.status r =? 0.

Definition shp_to_state (ms : machine_state SHPMachine.registers) : SHPTransform.state :=
  SHPMachine.state_of (fst (fst ms)) (snd (fst ms), snd ms).

Definition shp_of_state (st : SHPTransform.state) : machine_state SHPMachine.registers :=
  (SHPTransform.buffer st, SHPMachine.registers_of st, SHPTransform.offset st).

Definition dbf_to_state (ms : machine_state DBFMachine.registers) : DBFTransform.state :=
  DBFMachine.state_of (fst (fst ms)) (snd (fst ms), snd ms).

Definition dbf_of_state (st : DBFTransform.state) : machine_state DBFMachine.registers :=
  (DBFTransform.buffer st, DBFMachine.registers_of st, DBFTransform.offset st).

(** What [flush] of [SHPTransform] does, from the registers. *)
Definition shp_flush (r : SHPMachine.registers) : option error :=
  if negb (SHPMachine.filesize r =? 0)
  then Some (TypeError (ReadableBytesRemained (SHPMachine.filesize r)))
  else None.

Definition dbf_flush (r : DBFMachine.registers) : option error :=
  if negb (DBFMachine.numrec r =? 0)
  then Some (TypeError (RecordsRemained (DBFMachine.numrec r)))
  else None.

(** The rounds of a machine on a whole input, each on exactly the bytes it
    asks for: the registers and the values at the end, [None] when a round
    throws or does not move the cursor forward inside its window, or when
    [fuel] rounds do not suffice. *)
Section Windowed.

Variables Reg Out : Type.
Variable wanted : Reg -> Z.
Variable round : Reg -> ArrayBuffer -> Z -> result (Reg * Z * list Out).

Fixpoint windowed (fuel : nat) (r : Reg) (input : list byte)
  : option (Reg * list Out) :=
  match fuel with
  | O => None
  | S fuel' =>
      if byteLength input <? wanted r then Some (r, [])
      else
        match round r (firstn (Z.to_nat (wanted r)) input) 0 with
        | OK (r', adv, out) =>
            if (0 <? adv) && (adv <=? wanted r) then
              match windowed fuel' r' (skipn (Z.to_nat adv) input) with
              | Some (rf, outs) => Some (rf, out ++ outs)
              | None => None
              end
            else None
        | Throw _ => None
        end
  end.

End Windowed.

(** ** A sample geometry stream *)

(** The value of the eight bytes of a finite IEEE 754 double, in
    little-endian order.  The patterns of the infinities and of NaN have
    no rational value; they are read by the same formula. *)
Definition binary64 (bs : list byte) : Q :=
  let bits := uint_le bs in
  let negative := 2 ^ 63 <=? bits in
  let e := (bits / 2 ^ 52) mod 2 ^ 11 in
  let m := bits mod 2 ^ 52 in
  let magnitude :=
    if e =? 0 then ((m # 1) * pow2 (- 1074))%Q
    else ((2 ^ 52 + m # 1) * pow2 (e - 1075))%Q in
  Qred (if negative then - magnitude else magnitude)%Q.

Definition le32 (n : Z) : list byte :=
  bytes_of (map Z.to_N [n mod 256; (n / 256) mod 256; (n / 65536) mod 256;
                        (n / 16777216) mod 256]).

Definition be32 (n : Z) : list byte := rev (le32 n).

(** The double whose two highest bytes are [top] and whose other bytes
    are 0: [0x3FF0] is 1, [0x4000] is 2, [0x4010] is 4. *)
Definition double_le (top : N) : list byte :=
  bytes_of (repeat 0%N 6 ++ [top mod 256; top / 256]%N).

Definition zeros (n : nat) : list byte := bytes_of (repeat 0%N n).

Definition sample_shp_header (words : Z) : list byte :=
  be32 9994 ++ zeros 20 ++ be32 words ++ le32 1000 ++ le32 5
  ++ double_le 0 ++ double_le 0 ++ double_le 16400 ++ double_le 16400
  ++ zeros 32.

(** A point record, [(1, 2)], of 10 words. *)
Definition sample_point_record : list byte :=
  be32 1 ++ be32 10 ++ le32 1 ++ double_le 16368 ++ double_le 16384.

(** A polygon record of 64 words: one part, the clockwise square with the
    corners [(0, 0)] and [(4, 4)]. *)
Definition sample_polygon_record : list byte :=
  be32 2 ++ be32 64 ++ le32 5
  ++ double_le 0 ++ double_le 0 ++ double_le 16400 ++ double_le 16400
  ++ le32 1 ++ le32 5 ++ le32 0
  ++ double_le 0 ++ double_le 0
  ++ double_le 0 ++ double_le 16400
  ++ double_le 16400 ++ double_le 16400
  ++ double_le 16400 ++ double_le 0
  ++ double_le 0 ++ double_le 0.

(** A stream of 264 bytes whose header declares [words] 16-bit words. *)
Definition sample_shp (words : Z) : list byte :=
  sample_shp_header words ++ sample_point_record ++ sample_polygon_record.

Definition identity (p : point) : point := p.

(** ** Vocabulary for the statements about boxes and crossings *)

(** Every coordinate of the line is a safe integer at most in absolute
    value, the range in which the start values of [bbox_of] are beyond
    any coordinate. *)
Definition within_safe (line : list point) : Prop :=
  Forall (fun p => (- MAX_SAFE_INTEGER <= px p <= MAX_SAFE_INTEGER)%Q
                   /\ (- MAX_SAFE_INTEGER <= py p <= MAX_SAFE_INTEGER)%Q) line.


(** ** Vocabulary for the statements about geometry records *)

(** The shape types that [parseRecord] decodes. *)
Definition implemented (type : Z) : Prop :=
  type = 0 \/ type = 1 \/ type = 3 \/ type = 5 \/ type = 8.

(** The kind of geometry and the presence of [bbox] that go with a shape
    type. *)
Definition feature_of_type (type : Z) (ft : feature) : Prop :=
  properties ft = None
  /\ match ft_geometry ft with
     | None => type = 0 /\ ft_bbox ft = None
     | Some (Point _) => type = 1 /\ ft_bbox ft = None
     | Some (LineString _) | Some (MultiLineString _) => type = 3 /\ ft_bbox ft <> None
     | Some (Polygon _) | Some (MultiPolygon _) => type = 5 /\ ft_bbox ft <> None
     | Some (MultiPoint _) => type = 8 /\ ft_bbox ft <> None
     end.

(** The part index of a record climbs from [lo] to [hi]. *)
Fixpoint climbs (lo : Z) (parts : list Z) (hi : Z) : Prop :=
  match parts with
  | [] => lo <= hi
  | p :: rest => lo <= p /\ climbs p rest hi
  end.

(** ** Streams on which a round throws *)

Section Breaking.

Variables Reg Out : Type.
Variable wanted : Reg -> Z.
Variable round : Reg -> ArrayBuffer -> Z -> result (Reg * Z * list Out).

(** The registers with which a round reads at fixed places of the
    buffer. *)
Variable anchored : Reg -> bool.

(** The round throws [e] on every buffer that holds the bytes [w] at
    the cursor, whatever comes before and after them. *)
Definition throws_on (r : Reg) (w : list byte) (e : error) : Prop :=
  forall pre post : list byte,
    (anchored r = true -> pre = []) ->
    round r (pre ++ w ++ post) (Z.of_nat (length pre)) = Throw e.

(** [breaks r input rf out e]: from the registers [r], the rounds
    consume the input front to back, every round on the bytes it asked
    for, until a round throws [e], on those bytes and on every buffer
    that holds them at the cursor; [rf] holds the registers then and
    [out] the values enqueued before. *)
Inductive breaks : Reg -> list byte -> Reg -> list Out -> error -> Prop :=
| breaks_here (r : Reg) (input : list byte) (e : error) :
    wanted r <= byteLength input ->
    throws_on r (firstn (Z.to_nat (wanted r)) input) e ->
    breaks r input r [] e
| breaks_later (r : Reg) (input : list byte) (r' : Reg) (adv : Z) (out : list Out)
               (rf : Reg) (out' : list Out) (e : error) :
    wanted r <= byteLength input ->
    round r (firstn (Z.to_nat (wanted r)) input) 0 = OK (r', adv, out) ->
    0 < adv <= wanted r ->
    breaks r' (skipn (Z.to_nat adv) input) rf out' e ->
    breaks r input rf (out ++ out') e.

End Breaking.

(** ** Vocabulary for the statements about whole streams *)

(** The content length, in 16-bit words, that the eight bytes of a record
    header give: the big-endian integer at byte 4. *)
Definition record_words (h : list byte) : Z :=
  to_int32 (uint_be (firstn 4 (skipn 4 h))).

(** A record of a geometry stream, the eight bytes of its header and its
    content: the header gives the length of the content, which is not
    empty. *)
Definition framed (rc : list byte * list byte) : Prop :=
  length (fst rc) = 8%nat
  /\ record_words (fst rc) * 2 = byteLength (snd rc)
  /\ 0 < byteLength (snd rc).

(** The bytes of a sequence of records. *)
Definition frames (records : list (list byte * list byte)) : list byte :=
  concat (map (fun rc => fst rc ++ snd rc) records).

(** What [flush] of [SHPTransform] throws when [left] bytes of the
    declared length have not been consumed. *)
Definition truncation (left : Z) : option error :=
  if negb (left =? 0) then Some (TypeError (ReadableBytesRemained left)) else None.


(** A reader of a buffer at an offset is steady when a result other than
    a [RangeError], a value or an exception, is also its result on any
    buffer that holds the same bytes at a later place, with more bytes
    around them. *)
Definition steady {A} (f : ArrayBuffer -> Z -> result A) : Prop :=
  forall (w : ArrayBuffer) (p : Z) (r : result A),
    f w p = r -> r <> Throw RangeError ->
    forall pre post : list byte,
      f (pre ++ w ++ post) (Z.of_nat (length pre) + p) = r.

(** The two records of [sample_shp], each as its header and its
    content. *)
Definition sample_records : list (list byte * list byte) :=
  [(firstn 8 sample_point_record, skipn 8 sample_point_record);
   (firstn 8 sample_polygon_record, skipn 8 sample_polygon_record)].

(** A record of two words whose shape type is 15, PolygonZ. *)
Definition sample_polygonz_record : list byte * list byte :=
  (be32 3 ++ be32 2, le32 15).

(** What [flush] of [DBFTransform] throws when the counter [numrec] ends
    at [left]. *)
Definition records_remained (left : Z) : option error :=
  if negb (left =? 0) then Some (TypeError (RecordsRemained left)) else None.

(** A header decoder reads at the front of the buffer: a header that it
    decodes from a buffer it decodes alike when more bytes follow. *)
Definition reads_front (shpHeader : ArrayBuffer -> result (BBox * Z)) : Prop :=
  forall (w post : list byte) (v : BBox * Z),
    shpHeader w = OK v -> shpHeader (w ++ post) = OK v.

(** The decoders of [common.js], put in the places of the two imports
    of [parser.js] where a statement is tried on a sample stream. *)
Definition sample_shpHeader (bytes : ArrayBuffer) : result (BBox * Z) :=
  parseHeader binary64 identity bytes.

Definition sample_shpRecord (bytes : ArrayBuffer) (offset : Z) (withM : bool)
  : result feature :=
  parseRecord binary64 identity bytes offset.

(** A geometry stream of 112 bytes: a header, the header of a record
    whose content length is -4 words, and four bytes that read as a null
    shape. *)
Definition looping_shp : list byte :=
  sample_shp_header 56 ++ be32 1 ++ be32 (- 4) ++ le32 0.

(** A small attribute table: the header (2 records of 10 bytes, header of
    65 bytes), one descriptor, the terminator, a deleted record, a record
    whose flag is [flag2], the end mark.  22 bytes follow the
    descriptor. *)
Definition small_dbf (flag2 : String.string) : list byte :=
  bytes_of ([3; 124; 1; 1; 2; 0; 0; 0; 65; 0; 10; 0]%N ++ repeat 0%N 20)
  ++ sample_descriptor "ID"%string 78 9
  ++ bytes_of [13%N]
  ++ ascii_bytes "*000000001"%string
  ++ ascii_bytes flag2 ++ ascii_bytes "000000002"%string
  ++ bytes_of [26%N].

(** ** Vocabulary for the statements about the values of a row *)

(** The value of a logical field of one byte. *)
Definition logical_value (b : byte) : jsvalue :=
  let n := Byte.to_N b in
  if existsb (N.eqb n) [89; 121; 84; 116]%N then JBoolean true        (* Y y T t *)
  else if existsb (N.eqb n) [78; 110; 70; 102]%N then JBoolean false  (* N n F f *)
  else JNull.

(** The field types that [dbfRecord] decodes: C, D, N, F and L. *)
Definition known_type (t : N) : bool :=
  existsb (N.eqb t) [67; 68; 78; 70; 76]%N.

(** The type of the first field that [dbfRecord] does not decode. *)
Fixpoint first_unknown (fs : list field) : option N :=
  match fs with
  | [] => None
  | f :: rest => if known_type (type f) then first_unknown rest else Some (type f)
  end.

(** The width of the columns of the fields. *)
Definition columns_width (fs : list field) : Z :=
  fold_right (fun f acc => size f + acc) 0 fs.

(** [n] spaces and [n] NULs. *)
Definition spaces (n : nat) : jsstring := repeat 32%N n.
Definition nuls (n : nat) : jsstring := repeat 0%N n.

(** A text that padding can be told from: it is not empty, does not
    start with white space and does not end with white space or NUL. *)
Definition unpadded (t : jsstring) : Prop :=
  match t, rev t with
  | c :: _, d :: _ => is_whitespace c = false /\ is_whitespace d = false /\ d <> 0%N
  | _, _ => False
  end.

(** ** The popup of the map page ([index.js]) *)

(** One of the characters of the pattern of [escapeHTML]: the double
    quote, the single quote, the ampersand and the two angle brackets. *)
Definition is_special (c : N) : bool :=
  existsb (N.eqb c) [34; 39; 38; 60; 62]%N.

(** The index of the first match of the pattern in [str], [None] for the
    [null] of [exec]. *)
Fixpoint first_special (str : jsstring) : option nat :=
  match str with
  | [] => None
  | c :: rest =>
      if is_special c then Some 0%nat else option_map S (first_special rest)
  end.

(** The [switch] on [str.charCodeAt(index)]: the entity of the character,
    [None] for the [default] case, which goes on with the loop. *)
Definition entity (c : N) : option jsstring :=
  if (c =? 34)%N then Some (js "&quot;"%string)
  else if (c =? 38)%N then Some (js "&amp;"%string)
  else if (c =? 39)%N then Some (js "&#39;"%string)
  else if (c =? 60)%N then Some (js "&lt;"%string)
  else if (c =? 62)%N then Some (js "&gt;"%string)
  else if (c =? 96)%N then Some (js "&#96;"%string)
  else None.

(** [str.substring(start, end)]: both indices are clamped to the length
    and swapped if [start] is the larger one. *)
Definition substring (str : jsstring) (start final : nat) : jsstring :=
  let a := Nat.min start (length str) in
  let b := Nat.min final (length str) in
  firstn (Nat.max a b - Nat.min a b) (skipn (Nat.min a b) str).

(** The [for] loop of [escapeHTML] from [index] on, for the [steps]
    indices below [str.length] that are left: the variables [index],
    [lastIndex] and [html] when it ends. *)
Fixpoint escape_loop (str : jsstring) (steps : nat) (index lastIndex : nat)
                     (html : jsstring) : nat * nat * jsstring :=
  match steps with
  | O => (index, lastIndex, html)
  | S steps' =>
      match match nth_error str index with
            | Some c => entity c
            | None => None
            end with
      | None => escape_loop str steps' (S index) lastIndex html
      | Some escape =>
          let html1 :=
            if negb (lastIndex =? index)%nat
            then html ++ substring str lastIndex index
            else html in
          escape_loop str steps' (S index) (S index) (html1 ++ escape)
      end
  end.

(** [escapeHTML] on a string; [None] is [undefined]. *)
Definition escapeHTML (text : jsstring) : option jsstring :=
  if jsstring_eqb text [] then None
  else
    match first_special text with
    | None => Some text
    | Some i =>
        let '(index, lastIndex, html) :=
          escape_loop text (length text - i) i 0 [] in
        Some (if negb (lastIndex =? index)%nat
              then html ++ substring text lastIndex index
              else html)
    end.

(** What [escapeHTML] makes of one character at or after the first
    match. *)
Definition escaped (c : N) : jsstring :=
  match entity c with
  | Some e => e
  | None => [c]
  end.

(** A character that is safe between tags and inside quoted attribute
    values. *)
Definition harmless (c : N) : Prop :=
  c <> 34%N /\ c <> 39%N /\ c <> 60%N /\ c <> 62%N.

(** The number of the fields that have the name [k]. *)
Definition fields_named (k : jsstring) (fs : list field) : nat :=
  length (filter (fun f => jsstring_eqb (name f) k) fs).

(** ** The converter ([shp2json.js]) *)

Definition newline : jsstring := [10%N].

(** A text between double quotes. *)
Definition quoted (s : jsstring) : jsstring := 34%N :: s ++ [34%N].

(** What the loop of the script does to the outside: a text given to
    [output.write], or the properties of a feature given to
    [console.log], which prints them on the standard output, where
    [output] writes too unless a file was named. *)
Inductive event : Type :=
| Write (text : jsstring)
| Log (value : option row).

(** The texts given to [output.write]: the content of the output file
    when one was named. *)
Fixpoint texts (events : list event) : list jsstring :=
  match events with
  | [] => []
  | Write text :: rest => text :: texts rest
  | Log _ :: rest => texts rest
  end.

(** [x < -bound || x > bound]. *)
Definition out_of_range (bound : Z) (x : Q) : bool :=
  Qlt_bool x (- bound # 1) || Qlt_bool (bound # 1) x.

Section Converter.

(** [JSON.stringify(feature, fmt)]. *)
Variable stringify : feature -> jsstring.

(** [JSON.stringify(bbox, fmt)] when the first feature is written. *)
Variable bb : jsstring.

(** The text written before the first feature of a collection. *)
Definition collection_start : jsstring :=
  js "{"%string ++ quoted (js "type"%string) ++ js ": "%string
  ++ quoted (js "FeatureCollection"%string) ++ js ", "%string
  ++ quoted (js "bbox"%string) ++ js ": "%string ++ bb ++ js ", "%string
  ++ quoted (js "features"%string) ++ js ": ["%string ++ newline.

(** The texts written between two features and after the last one. *)
Definition collection_comma : jsstring := js ","%string ++ newline.
Definition collection_end : jsstring := newline ++ js "]}"%string ++ newline.

(** [check(ft)]: the properties of a feature are given to
    [console.log] when a longitude of its [bbox] is out of range, and
    once more when a latitude is. *)
Definition check (ft : feature) : list event :=
  match ft_bbox ft with
  | None => []
  | Some b =>
      (if out_of_range 180 (bw b) || out_of_range 180 (be b)
       then [Log (properties ft)] else [])
      ++ (if out_of_range 90 (bs b) || out_of_range 90 (bn b)
          then [Log (properties ft)] else [])
  end.

(** The loop [for await (const feature of features)] on the features
    that are left: the calls of [output.write] and of [console.log] in
    their order, and whether the loop came to the end of the features
    ([false] after [break]). *)
Fixpoint write_loop (nd : bool) (start limit : Z) (first : bool) (count : Z)
                    (features : list feature) : list event * bool :=
  match features with
  | [] => ([], true)
  | feature :: rest =>
      let count := count + 1 in
      if count <=? start then write_loop nd start limit first count rest
      else if start + limit <? count then ([], false)
      else
        let (events, ended) := write_loop nd start limit false count rest in
        ((if nd then []
          else if first then [Write collection_start] else [Write collection_comma])
         ++ check feature
         ++ [Write (stringify feature)]
         ++ (if nd then [Write newline] else [])
         ++ events,
         ended)
  end.

(** The script from the loop on: its calls of [output.write] and of
    [console.log], and the exception of the stream that ends it, if the
    loop meets one. *)
Definition convert (nd : bool) (start limit : Z) (features : stream feature)
  : list event * option error :=
  let (events, ended) := write_loop nd start limit true 0 (items features) in
  match (if ended then failure features else None) with
  | Some e => (events, Some e)
  | None => (events ++ (if nd then [] else [Write collection_end]), None)
  end.

(** The features between [start] and [start + limit]. *)
Definition window (start limit : Z) (features : list feature) : list feature :=
  firstn (Z.to_nat limit) (skipn (Z.to_nat start) features).

(** What the loop does for the features [w] once it is past [start]. *)
Fixpoint written (nd first : bool) (w : list feature) : list event :=
  match w with
  | [] => []
  | ft :: rest =>
      (if nd then []
       else if first then [Write collection_start] else [Write collection_comma])
      ++ check ft ++ [Write (stringify ft)] ++ (if nd then [Write newline] else [])
      ++ written nd false rest
  end.

(** The features [w] as lines, or as the members of a collection; the
    lines of [check] for a feature come before its text. *)
Definition as_lines (w : list feature) : list event :=
  flat_map (fun ft => check ft ++ [Write (stringify ft); Write newline]) w.

Definition as_collection (w : list feature) : list event :=
  match w with
  | [] => []
  | ft :: rest =>
      Write collection_start :: check ft ++ [Write (stringify ft)]
      ++ flat_map (fun f => Write collection_comma :: check f ++ [Write (stringify f)])
                  rest
  end.

(** The texts of the features [w]: as lines, or as the members of a
    collection. *)
Definition text_lines (w : list feature) : list jsstring :=
  flat_map (fun ft => [stringify ft; newline]) w.

Definition text_collection (w : list feature) : list jsstring :=
  match w with
  | [] => []
  | ft :: rest =>
      collection_start :: stringify ft
      :: flat_map (fun f => [collection_comma; stringify f]) rest
  end.

End Converter.

(** ** Rings and ring assembly over binary64 ([common.js])

    The ring functions and the polygon branch of [parseRecord] once more,
    with the numbers of the code: the binary64 values of IEEE 754, every
    sum, difference, product and quotient rounded to nearest, ties to
    even.  [SpecFloat] of the standard library gives the values and the
    operations. *)

Module Double.

(** A JavaScript number. *)
Definition double : Type := SpecFloat.spec_float.

Definition add (x y : double) : double := SpecFloat.SFadd 53 1024 x y.
Definition sub (x y : double) : double := SpecFloat.SFsub 53 1024 x y.
Definition mul (x y : double) : double := SpecFloat.SFmul 53 1024 x y.
Definition div (x y : double) : double := SpecFloat.SFdiv 53 1024 x y.
Definition neg (x : double) : double := SpecFloat.SFopp x.
Definition abs (x : double) : double := SpecFloat.SFabs x.

(** [x == y], [x < y] and [x <= y]: all of them [false] when one side is
    NaN; [x > y] is [ltb y x] and [x >= y] is [leb y x]. *)
Definition eqb (x y : double) : bool := SpecFloat.SFeqb x y.
Definition ltb (x y : double) : bool := SpecFloat.SFltb x y.
Definition leb (x y : double) : bool := SpecFloat.SFleb x y.

Definition is_nan (x : double) : bool :=
  match x with
  | SpecFloat.S754_nan => true
  | _ => false
  end.

(** The number whose binary64 pattern is [u], as
    [DataView.getFloat64] reads it. *)
Definition of_bits (u : Z) : double :=
  let s := 2 ^ 63 <=? u in
  let e := (u / 2 ^ 52) mod 2 ^ 11 in
  let m := u mod 2 ^ 52 in
  if e =? 0 then
    match m with
    | Zpos p => SpecFloat.S754_finite s p (- 1074)
    | _ => SpecFloat.S754_zero s
    end
  else if e =? 2047 then
    if m =? 0 then SpecFloat.S754_infinity s else SpecFloat.S754_nan
  else
    match 2 ^ 52 + m with
    | Zpos p => SpecFloat.S754_finite s p (e - 1075)
    | _ => SpecFloat.S754_nan
    end.

(** The double nearest to the integer [n]. *)
Definition of_Z (n : Z) : double := SpecFloat.binary_normalize 53 1024 n 0 false.

Definition zero : double := SpecFloat.S754_zero false.
Definition half : double := of_bits 0x3FE0000000000000.
Definition MAX_SAFE_INTEGER : double := of_Z 9007199254740991.

(** The rational that a finite double denotes; [None] for NaN and the
    infinities. *)
Definition exact (x : double) : option Q :=
  match x with
  | SpecFloat.S754_zero _ => Some 0%Q
  | SpecFloat.S754_finite s m e =>
      Some (((if s then Zneg m else Zpos m) # 1) * pow2 e)%Q
  | _ => None
  end.

(** [Math.max] and [Math.min] of two numbers: NaN when one of them is
    NaN; [+0] is larger than [-0]. *)
Definition max (x y : double) : double :=
  match SpecFloat.SFcompare x y with
  | None => SpecFloat.S754_nan
  | Some Lt => y
  | Some Gt => x
  | Some Eq =>
      match x, y with
      | SpecFloat.S754_zero sx, SpecFloat.S754_zero sy => SpecFloat.S754_zero (sx && sy)
      | _, _ => x
      end
  end.

Definition min (x y : double) : double :=
  match SpecFloat.SFcompare x y with
  | None => SpecFloat.S754_nan
  | Some Lt => x
  | Some Gt => y
  | Some Eq =>
      match x, y with
      | SpecFloat.S754_zero sx, SpecFloat.S754_zero sy => SpecFloat.S754_zero (sx || sy)
      | _, _ => x
      end
  end.

(** *** Rings *)

Definition point : Type := (double * double)%type.
Definition px (p : point) : double := fst p.
Definition py (p : point) : double := snd p.

Record BBox : Type := mkBBox { bw : double; bs : double; be : double; bn : double }.

Definition origin : point := (zero, zero).

Definition at_ (ring : list point) (i : nat) : point := nth i ring origin.

(** [ringClosed]: throws when [ring.length - 1 <= 2], otherwise compares
    the first point with the last one. *)
Definition ringClosed (ring : list point) : result bool :=
  let l := Z.of_nat (length ring) - 1 in
  if l <=? 2 then Throw (TypeError RingTooShort)
  else OK (eqb (px (at_ ring 0)) (px (at_ ring (Z.to_nat l)))
           && eqb (py (at_ ring 0)) (py (at_ ring (Z.to_nat l)))).

(** One term of the loop of [ringArea]:
    [ring[i][1] * (ring[p][0] - ring[n][0])]. *)
Definition shoelace_term (ring : list point) (i : nat) : double :=
  let l := length ring in
  let p := if (0 <? i)%nat then (i - 1)%nat else (l - 1)%nat in
  let n := if (i <? l - 1)%nat then (i + 1)%nat else 0%nat in
  mul (py (at_ ring i)) (sub (px (at_ ring p)) (px (at_ ring n))).

(** The variable [sum] of [ringArea] when its loop ends: every [+=]
    rounds. *)
Definition shoelace_sum (ring : list point) : double :=
  fold_left (fun sum i => add sum (shoelace_term ring i))
            (seq 0 (length ring)) zero.

Definition ringArea (ring : list point) : result double :=
  let sum := shoelace_sum ring in
  if eqb sum zero then Throw (TypeError RingAreaIs0)
  else OK (mul half sum).

(** [insideRing]: the crossing number of the point [p] for the ring. *)
Definition crosses (p ri rn : point) : bool :=
  if (leb (py ri) (py p) && ltb (py p) (py rn))
     || (ltb (py p) (py ri) && leb (py rn) (py p))
  then
    let vt := div (sub (py p) (py ri)) (sub (py rn) (py ri)) in
    ltb (px p) (add (px ri) (mul vt (sub (px rn) (px ri))))
  else false.

Definition insideRing (p : point) (ring : list point) : nat :=
  fold_left
    (fun count i =>
       let n := ((i + 1) mod length ring)%nat in
       if crosses p (at_ ring i) (at_ ring n) then S count else count)
    (seq 0 (length ring)) 0%nat.

(** [bbox_intersection]: [None] is the [null] of the source. *)
Definition bbox_intersection (b1 b2 : BBox) : option BBox :=
  if ltb (be b1) (bw b2) || ltb (be b2) (bw b1)
     || ltb (bn b2) (bs b1) || ltb (bn b1) (bs b2)
  then None
  else Some (mkBBox (max (bw b1) (bw b2)) (max (bs b1) (bs b2))
                    (min (be b1) (be b2)) (min (bn b1) (bn b2))).

(** [bbox_of]: the four running extremes start at plus or minus
    [Number.MAX_SAFE_INTEGER]. *)
Definition bbox_of (line : list point) : BBox :=
  fold_left
    (fun b p =>
       let w := if ltb (px p) (bw b) then px p else bw b in
       let e := if ltb (be b) (px p) then px p else be b in
       let n := if ltb (bn b) (py p) then py p else bn b in
       let s := if ltb (py p) (bs b) then py p else bs b in
       mkBBox w s e n)
    line
    (mkBBox MAX_SAFE_INTEGER MAX_SAFE_INTEGER
            (neg MAX_SAFE_INTEGER) (neg MAX_SAFE_INTEGER)).

Definition bbox_contains (b : BBox) (p : point) : bool :=
  leb (bw b) (px p) && leb (px p) (be b)
  && leb (bs b) (py p) && leb (py p) (bn b).

(** One of the two loops of [ringIntersect]: the first point of [pts]
    inside [bb] whose crossing number for [ring] is not 0 decides, by the
    parity of that number; [None] when the loop ends without a [return]. *)
Fixpoint sample (bb : BBox) (pts ring : list point) : option bool :=
  match pts with
  | [] => None
  | p :: rest =>
      if bbox_contains bb p then
        let c := insideRing p ring in
        if (c =? 0)%nat then sample bb rest ring else Some (Nat.odd c)
      else sample bb rest ring
  end.

Definition ringIntersect (ring : list point) (b1 : BBox)
                         (hole : list point) (b2 : BBox) : bool :=
  match bbox_intersection b1 b2 with
  | None => false
  | Some bb =>
      match sample bb hole ring with
      | Some r => r
      | None =>
          match sample bb ring hole with
          | Some r => r
          | None => false
          end
      end
  end.

(** *** Ring assembly

    As in the first embedding, the sorted array [rings] is the store of
    the objects [{ ring, area, bbox, outer }], and [outers], [inners] and
    [outer] hold indices into it. *)

Inductive geometry : Type :=
| Polygon (coordinates : list (list point))
| MultiPolygon (coordinates : list (list (list point))).

Record ringrec : Type := mkRing {
  ring : list point;
  area : double;
  bbox : BBox;
  outer : option nat
}.

Definition no_ring : ringrec := mkRing [] zero (bbox_of []) None.

Definition get (rings : list ringrec) (i : nat) : ringrec := nth i rings no_ring.

(** The first loop over [lines]: closed check, area, second area check,
    record. *)
Fixpoint measure_rings (lines : list (list point)) : result (list ringrec) :=
  match lines with
  | [] => OK []
  | line :: rest =>
      let* closed := ringClosed line in
      if negb closed then Throw (TypeError RingNotClosed)
      else
        let* a := ringArea line in
        if eqb a zero then Throw (TypeError RingAreaZero)
        else
          let* rs := measure_rings rest in
          OK (mkRing line a (bbox_of line) None :: rs)
  end.

(** The stable sort by [(r1, r2) => r1.area - r2.area]: a record goes in
    front of the first record that the comparator does not put before
    it. *)
Fixpoint insert_ring (r : ringrec) (sorted : list ringrec) : list ringrec :=
  match sorted with
  | [] => [r]
  | x :: rest =>
      if ltb (sub (area x) (area r)) zero then x :: insert_ring r rest
      else r :: sorted
  end.

Definition sort_rings (rings : list ringrec) : list ringrec :=
  fold_right insert_ring [] rings.

Record assembly : Type := mkAssembly {
  rings : list ringrec;
  outers : list nat;
  inners : list (option nat)    (* [None] is a slot set to [null] *)
}.

(** [for (const outer of outers)] for one hole: the index of the outer
    that the loop leaves in [hole.outer], if it [break]s. *)
Fixpoint scan_outers (rs : list ringrec) (hole : ringrec) (os : list nat)
  : option nat :=
  match os with
  | [] => None
  | o :: rest =>
      if leb (abs (area (get rs o))) (area hole) then scan_outers rs hole rest
      else if ringIntersect (ring (get rs o)) (bbox (get rs o)) (ring hole) (bbox hole)
           then Some o
           else scan_outers rs hole rest
  end.

(** The body of [for (const hole of inners)] for the hole [h]. *)
Definition place_hole (st : assembly) (h : nat) : assembly :=
  match scan_outers (rings st) (get (rings st) h) (outers st) with
  | Some o =>
      mkAssembly
        (update h (fun r => mkRing (ring r) (area r) (bbox r) (Some o)) (rings st))
        (outers st) (inners st)
  | None =>
      (* it's not a hole? *)
      mkAssembly
        (update h (fun r => mkRing (rev (ring r)) (neg (area r)) (bbox r) (outer r))
                (rings st))
        (outers st ++ [h])
        (update (indexOf h (inners st)) (fun _ => None) (inners st))
  end.

(** [for (const hole of inners)], from the slot [k] on; [n] slots are
    left.  Reading [hole.area] from a slot that is [null] would be a
    [TypeError] of the engine. *)
Fixpoint place_holes (n k : nat) (st : assembly) : result assembly :=
  match n with
  | O => OK st
  | S n' =>
      match nth k (inners st) None with
      | Some h => place_holes n' (S k) (place_hole st h)
      | None => Throw NullTypeError
      end
  end.

(** The two loops before the geometry is built: the ring of every outer
    becomes the one-element array of its reversal, then the reversal of
    every hole that is left is pushed on the array of its outer,
    [h.outer.ring]. *)
Fixpoint push_holes (rs : list ringrec) (os : list nat) (hs : list (option nat))
                    (polys : list (list (list point)))
  : result (list (list (list point))) :=
  match hs with
  | [] => OK polys
  | None :: rest => push_holes rs os rest polys
  | Some h :: rest =>
      match outer (get rs h) with
      | None => Throw NullTypeError
      | Some o =>
          push_holes rs os rest
            (update (position o os) (fun poly => poly ++ [rev (ring (get rs h))]) polys)
      end
  end.

Definition emit (st : assembly) : result (list (list (list point))) :=
  push_holes (rings st) (outers st) (inners st)
             (map (fun o => [rev (ring (get (rings st) o))]) (outers st)).

(** The indices of the records of [rs] whose area satisfies [keep], in
    the order of the array: [rings.filter(r => ..)]. *)
Definition filter_rings (keep : double -> bool) (rs : list ringrec) : list nat :=
  filter (fun i => keep (area (get rs i))) (seq 0 (length rs)).

Section Polygon.

(** [rings.sort((r1, r2) => r1.area - r2.area)].  While no area is NaN
    the comparator is consistent and the result is that of the stable
    sort, [sort_rings].  With a NaN among the areas the comparator
    returns NaN for some pairs and the order is left to the engine:
    the sort is a parameter, of which a statement asks what it
    needs. *)
Variable sort : list ringrec -> list ringrec.

(** [parseRecord], case 5, from the comment "now it's a polygon" on:
    [lines] holds one array of projected points per part. *)
Definition polygon_geometry (lines : list (list point)) : result geometry :=
  let* measured := measure_rings lines in
  let rs := sort measured in
  let os := filter_rings (fun a => ltb a zero) rs in
  let hs := filter_rings (fun a => ltb zero a) rs in
  let* st := place_holes (length hs) 0 (mkAssembly rs os (map Some hs)) in
  if (length (outers st) =? 0)%nat then Throw (TypeError NoOuterRings)
  else
    let* polys := emit st in
    if (length (outers st) =? 1)%nat then OK (Polygon (nth 0 polys []))
    else OK (MultiPolygon polys).

End Polygon.

(** *** Vocabulary for the statements over binary64 *)

(** The sort returns the records it was given, in some order. *)
Definition permutes (sort : list ringrec -> list ringrec) : Prop :=
  forall l, Permutation (sort l) l.

(** The exceptions of the polygon branch. *)
Definition polygon_error (e : error) : Prop :=
  e = TypeError RingTooShort \/ e = TypeError RingNotClosed
  \/ e = TypeError RingAreaIs0 \/ e = TypeError RingAreaZero
  \/ e = TypeError NoOuterRings.

Definition finite (x : double) : bool :=
  match exact x with
  | Some _ => true
  | None => false
  end.

(** The place of a number that is not NaN in the order of the doubles:
    the infinities at the ends, the negative numbers by falling exponent
    and mantissa, the two zeros together, the positive numbers by rising
    exponent and mantissa.  Places are compared from left to right. *)
Definition rank (x : double) : Z * Z * Z :=
  match x with
  | SpecFloat.S754_infinity true => (- 2, 0, 0)
  | SpecFloat.S754_finite true m e => (- 1, - e, Zneg m)
  | SpecFloat.S754_zero _ => (0, 0, 0)
  | SpecFloat.S754_nan => (0, 0, 0)
  | SpecFloat.S754_finite false m e => (1, e, Zpos m)
  | SpecFloat.S754_infinity false => (2, 0, 0)
  end.

Definition before (r1 r2 : Z * Z * Z) : Prop :=
  fst (fst r1) < fst (fst r2)
  \/ (fst (fst r1) = fst (fst r2)
      /\ (snd (fst r1) < snd (fst r2)
          \/ (snd (fst r1) = snd (fst r2) /\ snd r1 < snd r2))).

(** The state of the loop over the holes when the slots before [k] have
    been visited: every record left in [inners] is a record of [rings]
    and sits in one slot only, the one [indexOf] returns; a hole left in
    a slot before [k] has its [outer], which is one of [outers]; the
    slots from [k] on still hold their holes. *)
Definition settled (k : nat) (st : assembly) : Prop :=
  (forall j h, nth j (inners st) None = Some h ->
     (h < length (rings st))%nat /\ indexOf h (inners st) = j)
  /\ (forall j h, (j < k)%nat -> nth j (inners st) None = Some h ->
        exists o, outer (get (rings st) h) = Some o /\ In o (outers st))
  /\ (forall j, (k <= j < length (inners st))%nat -> nth j (inners st) None <> None).

(** The area is negative or positive: it is neither 0 nor NaN. *)
Definition signed (a : double) : bool := ltb a zero || ltb zero a.

(** The point with the coordinates of the given binary64 patterns. *)
Definition pt (x y : Z) : point := (of_bits x, of_bits y).

(** A sliver between three points of a projected grid, closed:
    [(500000.04, 5000000.035)], [(500000.03, 5000000.017)],
    [(500000.025, 5000000.008)]. *)
Definition sliver : list point :=
  [pt 0x411E848028F5C28F 0x415312D0023D70A4;
   pt 0x411E84801EB851EC 0x415312D00116872B;
   pt 0x411E84801999999A 0x415312D00083126F;
   pt 0x411E848028F5C28F 0x415312D0023D70A4].

(** A ring on one line, closed: [(0.1, 0.1)], [(0.2, 0.1)],
    [(0.7, 0.1)]. *)
Definition flat_ring : list point :=
  [pt 0x3FB999999999999A 0x3FB999999999999A;
   pt 0x3FC999999999999A 0x3FB999999999999A;
   pt 0x3FE6666666666666 0x3FB999999999999A;
   pt 0x3FB999999999999A 0x3FB999999999999A].

(** The points with the integer coordinates [x] and [y]. *)
Definition ipt (x y : Z) : point := (of_Z x, of_Z y).

(** The square with the corners [(0, 0)] and [(4, 4)] without its
    closing point, and a triangle without its closing point. *)
Definition open_square : list point := [ipt 0 0; ipt 0 4; ipt 4 4; ipt 4 0].
Definition open_triangle : list point := [ipt 0 0; ipt 1 0; ipt 0 1].

(** The square with the corners [(a, a)] and [(b, b)], closed, listed
    clockwise for [a < b]. *)
Definition square_cw (a b : Z) : list point :=
  [ipt a a; ipt a b; ipt b b; ipt b a; ipt a a].

(** A ring as thin as the doubles allow, closed: [(0, 0)], [(1, 0)],
    [(0, 5e-324)]. *)
Definition tiny_ring : list point :=
  [ipt 0 0; ipt 1 0; (of_Z 0, of_bits 1); ipt 0 0].

(** A closed ring with NaN for an abscissa, as [getFloat64] reads it
    from the pattern [0x7FF8000000000000]. *)
Definition nan_ring : list point :=
  [ipt 20 20; (of_bits 0x7FF8000000000000, of_Z 30); ipt 30 30; ipt 20 20].

End Double.

(** The rational point that a point with finite coordinates denotes. *)
Definition exact_point (p : Double.point) : point :=
  (match Double.exact (Double.px p) with Some q => q | None => 0%Q end,
   match Double.exact (Double.py p) with Some q => q | None => 0%Q end).

(** The area of a ring in exact arithmetic: the Shoelace formula on the
    rationals that its coordinates denote. *)
Definition exact_area (r : list Double.point) : Q := signedArea (map exact_point r).

Definition finite_ring (r : list Double.point) : bool :=
  forallb (fun p => Double.finite (Double.px p) && Double.finite (Double.py p)) r.

(** * Properties *)

(** ** Numbers *)

Lemma Qlt_bool_iff (x y : Q) : Qlt_bool x y = true <-> (x < y)%Q.
Proof.
  unfold Qlt_bool. rewrite negb_true_iff.
  split; intro H.
  - apply Qnot_le_lt. intro Hle. apply Qle_bool_iff in Hle. congruence.
  - destruct (Qle_bool y x) eqn:E; [|reflexivity].
    apply Qle_bool_iff in E. exfalso. apply (Qlt_not_le _ _ H E).
Qed.

(** ** Arrays updated by index, and [indexOf] *)

Section Update.
Context {A : Type}.
Implicit Types (l : list A) (f : A -> A) (d : A).

Lemma length_update i f l : length (update i f l) = length l.
Proof.
  revert i. induction l as [|x l IH]; intros [|i]; simpl; auto.
Qed.

Lemma nth_update_same i f l d :
  (i < length l)%nat -> nth i (update i f l) d = f (nth i l d).
Proof.
  revert i. induction l as [|x l IH]; intros [|i] H; simpl in *; try lia; auto.
  apply IH. lia.
Qed.

Lemma nth_update_other i j f l d :
  i <> j -> nth j (update i f l) d = nth j l d.
Proof.
  revert i j. induction l as [|x l IH]; intros [|i] [|j] H; simpl; auto.
  congruence.
Qed.

End Update.

Lemma indexOf_update_None (h : nat) (i : nat) (l : list (option nat)) :
  indexOf h l <> i -> indexOf h (update i (fun _ => None) l) = indexOf h l.
Proof.
  revert i. induction l as [|x l IH]; intros [|i] H; simpl in *; auto.
  - destruct x as [x|]; [|reflexivity].
    destruct (x =? h)%nat; [congruence | reflexivity].
  - destruct x as [x|].
    + destruct (x =? h)%nat; [reflexivity|]. f_equal. apply IH. congruence.
    + f_equal. apply IH. congruence.
Qed.

Lemma indexOf_map_Some (hs : list nat) (j h : nat) :
  NoDup hs -> nth j (map Some hs) None = Some h -> indexOf h (map Some hs) = j.
Proof.
  intro Hnd. revert j. induction Hnd as [|x hs Hx Hnd IH]; intros j Hj.
  - destruct j; discriminate.
  - destruct j as [|j]; simpl in *.
    + injection Hj as ->. rewrite Nat.eqb_refl. reflexivity.
    + assert (Hin : In h hs).
      { destruct (Nat.lt_ge_cases j (length (map Some hs))) as [Hlt|Hge].
        - rewrite length_map in Hlt.
          rewrite (nth_indep _ None (Some 0%nat)) in Hj by (rewrite length_map; lia).
          rewrite map_nth in Hj. injection Hj as <-. apply nth_In, Hlt.
        - rewrite nth_overflow in Hj by exact Hge. discriminate. }
      destruct (Nat.eqb_spec x h) as [->|_]; [contradiction|].
      f_equal. apply IH, Hj.
Qed.

(** C3, at a record with an inner ring that lies inside two outers.  The
    outers are scanned in ascending order of signed area, which for the
    negative areas of outers is descending order of absolute area: the
    hole [4..6] lies inside both squares [0..10] and [2..8], each of them
    passes the area test and the intersection test, and the hole is pushed
    on the larger one. *)
Theorem hole_goes_to_largest_outer :
  let big := square_cw 0 10 in
  let small := square_cw 2 8 in
  let hole := square_ccw 4 6 in
  (signedArea big == -100)%Q /\ (signedArea small == -36)%Q
  /\ (signedArea hole == 4)%Q
  /\ ringIntersect big (bbox_of big) hole (bbox_of hole) = true
  /\ ringIntersect small (bbox_of small) hole (bbox_of hole) = true
  /\ polygon_geometry [small; hole; big]
     = OK (MultiPolygon [[rev big; rev hole]; [rev small]]).
Proof. vm_compute. repeat split; reflexivity. Qed.

(** ** [stitch] *)

Lemma stitch_loop_closing (feats : list feature) (props : list row) :
  stitch_loop feats None props None =
  (merged feats props,
   if (length feats =? length props)%nat then None
   else if (length feats <? length props)%nat then Some (TypeError NotEnoughFeatures)
        else Some (TypeError NotEnoughDbf)).
Proof.
  revert props. induction feats as [|ft feats IH]; intros [|r props]; try reflexivity.
  simpl stitch_loop. rewrite IH. reflexivity.
Qed.

(** C4. On two streams that end after [m] features and [n] rows, [stitch]
    yields the first [min m n] pairs, merged, and then ends cleanly
    exactly when [m = n]; when one stream ends before the other it throws
    the pairing error of the shorter one. *)
Theorem stitch_pairs_then_mismatch (feats : list feature) (props : list row) :
  let m := length feats in
  let n := length props in
  fst (stitch (closing feats) (closing props)) = merged feats props
  /\ length (fst (stitch (closing feats) (closing props))) = Nat.min m n
  /\ snd (stitch (closing feats) (closing props)) =
     (if (m =? n)%nat then None
      else if (m <? n)%nat then Some (TypeError NotEnoughFeatures)
           else Some (TypeError NotEnoughDbf))
  /\ (snd (stitch (closing feats) (closing props)) = None <-> m = n).
Proof.
  intros m n. unfold stitch, closing. simpl items. simpl failure.
  rewrite stitch_loop_closing. simpl fst. simpl snd.
  split; [reflexivity|]. split.
  - unfold merged. rewrite length_map, length_combine. reflexivity.
  - split; [reflexivity|]. fold m n.
    destruct (Nat.eqb_spec m n) as [E|E].
    + split; auto.
    + destruct (m <? n)%nat; split; intro H; try discriminate; contradiction.
Qed.

(** The scenario of the specification: three features and two rows. *)
Example stitch_three_two (f1 f2 f3 : feature) (r1 r2 : row) :
  stitch (closing [f1; f2; f3]) (closing [r1; r2]) =
  ([with_properties f1 r1; with_properties f2 r2], Some (TypeError NotEnoughDbf)).
Proof. reflexivity. Qed.

(** ** Numeric fields of a row *)

Section NumericFields.

Variable decode : list byte -> jsstring.

Lemma numeric_column_value (type : N) (col : list byte) :
  type = 78%N \/ type = 70%N ->
  column_value decode type col =
  OK (match trim (decode col) with
      | [] => JNull
      | str => JNumber (Number str)
      end).
Proof.
  intros [-> | ->]; unfold column_value; simpl;
    destruct (trim (decode col)); reflexivity.
Qed.

End NumericFields.

(** C6, at a numeric field that holds text.  A field of spaces decodes to
    [null]; the field [abc] decodes to what [Number('abc')] returns, the
    number [NaN], and not to [null]. *)
Theorem numeric_field_of_text_is_NaN :
  let fields := [mkField (js "COUNT"%string) 78 3] in
  dbfRecord windows1252 (ascii_bytes " abc"%string) 0 fields
    = OK [(js "COUNT"%string, JNumber NaN)]
  /\ dbfRecord windows1252 (ascii_bytes "    "%string) 0 fields
    = OK [(js "COUNT"%string, JNull)].
Proof. split; reflexivity. Qed.

(** ** Reading from buffers *)

Lemma bind_OK {A B} (m : result A) (k : A -> result B) (v : B) :
  bind m k = OK v -> exists a, m = OK a /\ k a = OK v.
Proof. destruct m as [a|e]; simpl; [eauto | discriminate]. Qed.

Lemma bytes_at_OK (b : ArrayBuffer) (pos : Z) (n : nat) (bs : list byte) :
  bytes_at b pos n = OK bs ->
  0 <= pos /\ pos + Z.of_nat n <= byteLength b
  /\ bs = firstn n (skipn (Z.to_nat pos) b).
Proof.
  unfold bytes_at.
  destruct (Z.ltb_spec pos 0); simpl; [discriminate|].
  destruct (Z.ltb_spec (byteLength b) (pos + Z.of_nat n)); [discriminate|].
  intro E. injection E as <-. auto.
Qed.

Lemma bytes_at_inside (b : ArrayBuffer) (pos : Z) (n : nat) :
  0 <= pos -> pos + Z.of_nat n <= byteLength b ->
  bytes_at b pos n = OK (firstn n (skipn (Z.to_nat pos) b)).
Proof.
  intros H1 H2. unfold bytes_at.
  destruct (Z.ltb_spec pos 0); [lia|].
  destruct (Z.ltb_spec (byteLength b) (pos + Z.of_nat n)); [lia|]. reflexivity.
Qed.

Lemma length_bytes_at (b : ArrayBuffer) (pos : Z) (n : nat) (bs : list byte) :
  bytes_at b pos n = OK bs -> length bs = n.
Proof.
  intro H. apply bytes_at_OK in H as (H0 & H1 & ->).
  unfold byteLength in H1. rewrite length_firstn, length_skipn. lia.
Qed.

Lemma window_middle (pre w post : list byte) (p : Z) (n : nat) :
  0 <= p -> p + Z.of_nat n <= byteLength w ->
  firstn n (skipn (Z.to_nat (Z.of_nat (length pre) + p)) (pre ++ w ++ post))
  = firstn n (skipn (Z.to_nat p) w).
Proof.
  intros H0 H1. unfold byteLength in H1.
  replace (Z.to_nat (Z.of_nat (length pre) + p))
    with (Z.to_nat p + length pre)%nat by lia.
  rewrite <- skipn_skipn.
  rewrite (skipn_app (length pre)), skipn_all, Nat.sub_diag. simpl.
  rewrite skipn_app, firstn_app.
  replace (n - length (skipn (Z.to_nat p) w))%nat with 0%nat
    by (rewrite length_skipn; lia).
  rewrite firstn_O, app_nil_r. reflexivity.
Qed.

Lemma bytes_at_local (k : Z) (n : nat) :
  0 <= k -> local (fun b o => bytes_at b (o + k) n).
Proof.
  intros Hk w p bs H pre post. apply bytes_at_OK in H as (H0 & H1 & ->).
  rewrite bytes_at_inside.
  - f_equal. replace (Z.of_nat (length pre) + p + k)
      with (Z.of_nat (length pre) + (p + k)) by lia.
    apply window_middle; assumption.
  - lia.
  - unfold byteLength in *. rewrite !length_app. lia.
Qed.

Lemma local_bind {A B} (f : ArrayBuffer -> Z -> result A)
      (g : A -> ArrayBuffer -> Z -> result B) :
  local f -> (forall a, local (g a)) ->
  local (fun b o => let* a := f b o in g a b o).
Proof.
  intros Hf Hg w p v H pre post.
  apply bind_OK in H as (a & Ha & Hv).
  rewrite (Hf _ _ _ Ha). simpl. apply (Hg a _ _ _ Hv).
Qed.

Lemma local_map {A B} (f : ArrayBuffer -> Z -> result A) (h : A -> B) :
  local f -> local (fun b o => let* a := f b o in OK (h a)).
Proof.
  intros Hf w p v H pre post.
  apply bind_OK in H as (a & Ha & Hv).
  rewrite (Hf _ _ _ Ha). exact Hv.
Qed.

Lemma local_ext {A} (f g : ArrayBuffer -> Z -> result A) :
  (forall b o, f b o = g b o) -> local f -> local g.
Proof. intros E Hf w p v H pre post. rewrite <- E in *. apply Hf, H. Qed.

Lemma local_const {A} (r : result A) : local (fun _ _ => r).
Proof. intros w p v H pre post. exact H. Qed.

Lemma local_shift {A} (f : ArrayBuffer -> Z -> result A) (k : Z) :
  (forall j, 0 <= j -> local (fun b o => f b (o + j))) ->
  0 <= k -> local (fun b o => f b (o + k)).
Proof. intros H Hk. apply H, Hk. Qed.

Lemma getUint8_local (k : Z) : 0 <= k -> local (fun b o => getUint8 b (o + k)).
Proof. intro Hk. unfold getUint8. apply local_map, bytes_at_local, Hk. Qed.

Lemma getUint16_local (k : Z) (le : bool) :
  0 <= k -> local (fun b o => getUint16 b (o + k) le).
Proof. intro Hk. unfold getUint16. apply local_map, bytes_at_local, Hk. Qed.

Lemma getUint32_local (k : Z) (le : bool) :
  0 <= k -> local (fun b o => getUint32 b (o + k) le).
Proof. intro Hk. unfold getUint32. apply local_map, bytes_at_local, Hk. Qed.

Lemma getInt32_local (k : Z) (le : bool) :
  0 <= k -> local (fun b o => getInt32 b (o + k) le).
Proof. intro Hk. unfold getInt32. apply local_map, bytes_at_local, Hk. Qed.

Lemma view_local (k len : Z) : 0 <= k -> local (fun b o => view b (o + k) len).
Proof.
  intro Hk. unfold view. destruct (len <? 0).
  - apply local_const.
  - apply bytes_at_local, Hk.
Qed.

Lemma hd_skipn_nth {A} (l : list A) (i : nat) (d : A) :
  hd d (skipn i l) = nth i l d.
Proof.
  revert i. induction l as [|x l IH]; intros [|i]; simpl; auto.
Qed.

Lemma getUint8_inside (b : ArrayBuffer) (i : nat) :
  (i < length b)%nat -> getUint8 b (Z.of_nat i) = OK (byte_at b i).
Proof.
  intro H. unfold getUint8. rewrite bytes_at_inside by (unfold byteLength; lia).
  simpl. rewrite Nat2Z.id. unfold byte_at. rewrite <- hd_skipn_nth.
  destruct (skipn i b) as [|x rest] eqn:E.
  - exfalso. assert (L : length (skipn i b) = 0%nat) by (rewrite E; reflexivity).
    rewrite length_skipn in L. lia.
  - simpl. f_equal. lia.
Qed.

Lemma getUint8_at (b : ArrayBuffer) (p : Z) :
  0 <= p < byteLength b -> getUint8 b p = OK (byte_at b (Z.to_nat p)).
Proof.
  intro H. unfold byteLength in H.
  rewrite <- (Z2Nat.id p) at 1 by lia. apply getUint8_inside. lia.
Qed.

(** * The polygon branch with the arithmetic of the code *)

(** ** The checks of the first loop *)


(** What one turn of the first loop throws. *)
Lemma double_measure_ring_error (line : list Double.point)
      (rest : list (list Double.point)) (e : error) :
  Double.measure_rings (line :: rest) = Throw e ->
  (exists m, ring_error m /\ e = TypeError m)
  \/ (exists r, Double.measure_rings [line] = OK [r]
                /\ Double.measure_rings rest = Throw e).
Proof.
  cbn [Double.measure_rings]. unfold Double.ringClosed, Double.ringArea, ring_error.
  destruct (Z.of_nat (length line) - 1 <=? 2); cbn [bind].
  { intro H. injection H as <-. left. eauto 10. }
  destruct (negb _).
  { intro H. injection H as <-. left. eauto 10. }
  destruct (Double.eqb (Double.shoelace_sum line) Double.zero); cbn [bind].
  { intro H. injection H as <-. left. eauto 10. }
  destruct (Double.eqb _ Double.zero).
  { intro H. injection H as <-. left. eauto 10. }
  destruct (Double.measure_rings rest) as [rs|e']; cbn [bind]; [discriminate|].
  intro H. injection H as <-. right. eexists. split; reflexivity.
Qed.

Lemma double_measure_rings_errors (lines : list (list Double.point)) (e : error) :
  Double.measure_rings lines = Throw e -> exists m, ring_error m /\ e = TypeError m.
Proof.
  induction lines as [|l lines IH]; [discriminate|].
  intro H. apply double_measure_ring_error in H as [H|(r & _ & H)]; auto.
Qed.



Lemma double_polygon_measure_Throw (sort : list Double.ringrec -> list Double.ringrec)
      (lines : list (list Double.point)) (e : error) :
  Double.measure_rings lines = Throw e -> Double.polygon_geometry sort lines = Throw e.
Proof. intro H. unfold Double.polygon_geometry. rewrite H. reflexivity. Qed.

(** C1, at a sliver.  The ring is clockwise: its area in exact arithmetic
    is negative.  The sum that [ringArea] computes for it, in binary64, is
    positive, so the code takes the ring for an inner ring without an
    outer, reverses it twice, and the exterior ring of the polygon is the
    ring as it came, clockwise. *)
Theorem sliver_comes_out_clockwise :
  finite_ring Double.sliver = true
  /\ (exact_area Double.sliver < 0)%Q
  /\ (exists a, Double.ringArea Double.sliver = OK a /\ Double.ltb Double.zero a = true)
  /\ Double.polygon_geometry Double.sort_rings [Double.sliver]
     = OK (Double.Polygon [Double.sliver]).
Proof.
  split; [vm_compute; reflexivity|].
  split; [vm_compute; reflexivity|].
  split.
  - destruct (Double.ringArea Double.sliver) as [a|e] eqn:E.
    + exists a. split; [reflexivity|]. vm_compute in E. injection E as <-.
      vm_compute. reflexivity.
    + vm_compute in E. discriminate.
  - vm_compute. reflexivity.
Qed.

(** C8, at a ring that lies on one line.  Its area in exact arithmetic is
    0; the sum that [ringArea] computes for it, in binary64, is not 0 and
    neither is its half, so no check throws and the ring is the exterior
    ring of a polygon.  The other way round the reversed sliver of C1 has
    an exact area other than 0 and is refused, its sum in binary64
    being 0. *)
Theorem flat_ring_is_emitted :
  finite_ring Double.flat_ring = true
  /\ first_last_equal (map exact_point Double.flat_ring)
  /\ (exact_area Double.flat_ring == 0)%Q
  /\ Double.polygon_geometry Double.sort_rings [Double.flat_ring]
     = OK (Double.Polygon [rev Double.flat_ring])
  /\ ~ (exact_area (rev Double.sliver) == 0)%Q
  /\ Double.polygon_geometry Double.sort_rings [rev Double.sliver]
     = Throw (TypeError RingAreaIs0).
Proof.
  split; [vm_compute; reflexivity|].
  split; [vm_compute; split; reflexivity|].
  split; [vm_compute; reflexivity|].
  split; [vm_compute; reflexivity|].
  split; [intro H; vm_compute in H; discriminate|].
  vm_compute. reflexivity.
Qed.




(** ** The order of the doubles *)

(** The comparison of two numbers that are not NaN is the comparison of
    their places. *)
Lemma compare_rank (x y : Double.double) :
  Double.is_nan x = false -> Double.is_nan y = false ->
  match SpecFloat.SFcompare x y with
  | Some Lt => Double.before (Double.rank x) (Double.rank y)
  | Some Eq => Double.rank x = Double.rank y
  | Some Gt => Double.before (Double.rank y) (Double.rank x)
  | None => False
  end.
Proof.
  destruct x as [sx|sx| |sx mx ex], y as [sy|sy| |sy my ey]; intros Hx Hy;
    try discriminate; unfold Double.before;
    cbn [SpecFloat.SFcompare Double.rank];
    try (destruct sx; simpl; first [reflexivity | lia]);
    try (destruct sy; simpl; first [reflexivity | lia]);
    try (destruct sx, sy; simpl; first [reflexivity | lia]).
  change (PosDef.Pos.compare_cont Eq mx my) with (Pos.compare mx my).
  destruct sx, sy; cbn [fst snd]; try lia;
    destruct (Z.compare_spec ex ey) as [->|He|He];
    try (simpl; lia);
    destruct (Pos.compare_spec mx my) as [->|Hm|Hm]; simpl; try reflexivity; lia.
Qed.

Lemma ltb_before (x y : Double.double) :
  Double.ltb x y = true ->
  Double.is_nan x = false /\ Double.is_nan y = false
  /\ Double.before (Double.rank x) (Double.rank y).
Proof.
  unfold Double.ltb, SpecFloat.SFltb. intro H.
  assert (Hx : Double.is_nan x = false).
  { destruct x; try reflexivity. simpl in H. discriminate. }
  assert (Hy : Double.is_nan y = false).
  { destruct y; try reflexivity. destruct x; simpl in H; discriminate. }
  pose proof (compare_rank x y Hx Hy) as C.
  destruct (SpecFloat.SFcompare x y) as [[| |]|]; try discriminate. auto.
Qed.

Lemma leb_before (x y : Double.double) :
  Double.is_nan x = false -> Double.is_nan y = false ->
  (Double.leb x y = true
   <-> Double.before (Double.rank x) (Double.rank y) \/ Double.rank x = Double.rank y).
Proof.
  intros Hx Hy. unfold Double.leb, SpecFloat.SFleb.
  pose proof (compare_rank x y Hx Hy) as C.
  destruct (SpecFloat.SFcompare x y) as [[| |]|].
  - split; [intros _; right; exact C | reflexivity].
  - split; [intros _; left; exact C | reflexivity].
  - split; [discriminate|]. intro H. exfalso. unfold Double.before in *.
    destruct (Double.rank x) as [[a b] c], (Double.rank y) as [[a' b'] c'];
      cbn [fst snd] in *. destruct H as [H|H]; [lia|]. injection H as -> -> ->. lia.
  - destruct C.
Qed.

Lemma ltb_false_leb (x y : Double.double) :
  Double.is_nan x = false -> Double.is_nan y = false ->
  Double.ltb x y = false -> Double.leb y x = true.
Proof.
  intros Hx Hy H. apply (leb_before y x Hy Hx).
  unfold Double.ltb, SpecFloat.SFltb in H.
  pose proof (compare_rank x y Hx Hy) as C.
  destruct (SpecFloat.SFcompare x y) as [[| |]|]; try discriminate; auto.
  destruct C.
Qed.

Lemma leb_not_ltb (x y : Double.double) :
  Double.leb x y = true -> Double.ltb y x = false.
Proof.
  intro H.
  assert (Hx : Double.is_nan x = false).
  { destruct x; try reflexivity. discriminate. }
  assert (Hy : Double.is_nan y = false).
  { destruct y; try reflexivity. destruct x; discriminate. }
  destruct (Double.ltb y x) eqn:E; [|reflexivity]. exfalso.
  apply ltb_before in E as (_ & _ & B).
  apply (leb_before x y Hx Hy) in H. unfold Double.before in *.
  destruct (Double.rank x) as [[a b] c], (Double.rank y) as [[a' b'] c'];
    cbn [fst snd] in *. destruct H as [H|H]; [lia|]. injection H as -> -> ->. lia.
Qed.

Lemma ltb_not_leb (x y : Double.double) :
  Double.ltb x y = true -> Double.leb y x = false.
Proof.
  intro H. destruct (Double.leb y x) eqn:E; [|reflexivity].
  apply leb_not_ltb in E. congruence.
Qed.

(** ** The crossing number of a point above or below a ring *)

Lemma double_crosses_clear (p ri rn : Double.point) :
  (Double.leb (Double.py ri) (Double.py p) = true
   /\ Double.leb (Double.py rn) (Double.py p) = true)
  \/ (Double.ltb (Double.py p) (Double.py ri) = true
      /\ Double.ltb (Double.py p) (Double.py rn) = true) ->
  Double.crosses p ri rn = false.
Proof.
  unfold Double.crosses. intros [[Hi Hn]|[Hi Hn]].
  - rewrite (leb_not_ltb _ _ Hn), (leb_not_ltb _ _ Hi), Hi, Hn. reflexivity.
  - rewrite (ltb_not_leb _ _ Hi), (ltb_not_leb _ _ Hn), Hi. reflexivity.
Qed.

Lemma double_insideRing_no_crossing (p : Double.point) (ring : list Double.point) :
  (forall i, (i < length ring)%nat ->
     Double.crosses p (Double.at_ ring i)
                    (Double.at_ ring ((i + 1) mod length ring)) = false) ->
  Double.insideRing p ring = 0%nat.
Proof.
  intro H. unfold Double.insideRing.
  assert (G : forall l c, (forall i, In i l -> (i < length ring)%nat) ->
                fold_left
                  (fun count i =>
                     if Double.crosses p (Double.at_ ring i)
                          (Double.at_ ring ((i + 1) mod length ring))
                     then S count else count) l c = c).
  { induction l as [|i l IH]; intros c Hl; [reflexivity|].
    simpl. rewrite (H i) by (apply Hl; left; reflexivity).
    apply IH. intros j Hj. apply Hl. right. exact Hj. }
  apply G. intros i Hi. apply in_seq in Hi. lia.
Qed.

(** X5. Over binary64: [insideRing] counts no crossing for a point that lies
    at or above every vertex of the ring, or below every vertex.  Only
    comparisons are made then: no abscissa is computed. *)
Theorem insideRing_above_or_below (p : Double.point) (ring : list Double.point) :
  Forall (fun v => Double.leb (Double.py v) (Double.py p) = true) ring
  \/ Forall (fun v => Double.ltb (Double.py p) (Double.py v) = true) ring ->
  Double.insideRing p ring = 0%nat.
Proof.
  intro H. apply double_insideRing_no_crossing. intros i Hi.
  assert (Hn : ((i + 1) mod length ring < length ring)%nat)
    by (apply Nat.mod_upper_bound; lia).
  apply double_crosses_clear.
  destruct H as [H|H]; rewrite Forall_forall in H; [left|right];
    split; apply H; apply nth_In; assumption.
Qed.

Lemma insideRing_above_or_below_witness :
  Double.insideRing (Double.ipt 2 4) (Double.square_cw 0 4) = 0%nat
  /\ Double.insideRing (Double.ipt 2 (- 1)) (Double.square_cw 0 4) = 0%nat.
Proof.
  split.
  - apply (@insideRing_above_or_below (Double.ipt 2 4) (Double.square_cw 0 4)).
    left. repeat constructor.
  - apply (@insideRing_above_or_below (Double.ipt 2 (- 1)) (Double.square_cw 0 4)).
    right. repeat constructor.
Defined.

(** ** The box of a line *)

(** The four bounds while [bbox_of] runs: none is NaN, and each has
    every coordinate seen so far that is not NaN on its inner side. *)
Lemma double_bbox_of_fold (line : list Double.point) (b : Double.BBox) :
  let step := fun (b : Double.BBox) (p : Double.point) =>
                Double.mkBBox
                  (if Double.ltb (Double.px p) (Double.bw b) then Double.px p
                   else Double.bw b)
                  (if Double.ltb (Double.py p) (Double.bs b) then Double.py p
                   else Double.bs b)
                  (if Double.ltb (Double.be b) (Double.px p) then Double.px p
                   else Double.be b)
                  (if Double.ltb (Double.bn b) (Double.py p) then Double.py p
                   else Double.bn b) in
  let r := fold_left step line b in
  Double.is_nan (Double.bw b) = false -> Double.is_nan (Double.bs b) = false ->
  Double.is_nan (Double.be b) = false -> Double.is_nan (Double.bn b) = false ->
  (Double.is_nan (Double.bw r) = false /\ Double.is_nan (Double.bs r) = false
   /\ Double.is_nan (Double.be r) = false /\ Double.is_nan (Double.bn r) = false)
  /\ (Double.leb (Double.bw r) (Double.bw b) = true
      /\ Double.leb (Double.bs r) (Double.bs b) = true
      /\ Double.leb (Double.be b) (Double.be r) = true
      /\ Double.leb (Double.bn b) (Double.bn r) = true)
  /\ (forall p, In p line ->
        (Double.is_nan (Double.px p) = false ->
         Double.leb (Double.bw r) (Double.px p) = true
         /\ Double.leb (Double.px p) (Double.be r) = true)
        /\ (Double.is_nan (Double.py p) = false ->
            Double.leb (Double.bs r) (Double.py p) = true
            /\ Double.leb (Double.py p) (Double.bn r) = true)).
Proof.
  intros step. revert b.
  assert (Hrefl : forall x, Double.is_nan x = false -> Double.leb x x = true).
  { intros x Hx. apply (leb_before x x Hx Hx). right. reflexivity. }
  assert (Htrans : forall x y z,
             Double.leb x y = true -> Double.leb y z = true -> Double.leb x z = true).
  { intros x y z Hxy Hyz.
    assert (Hx : Double.is_nan x = false) by (destruct x; try reflexivity; discriminate).
    assert (Hy : Double.is_nan y = false) by (destruct y; try reflexivity; discriminate).
    assert (Hz : Double.is_nan z = false).
    { destruct z; try reflexivity. destruct y; discriminate. }
    apply (leb_before x y Hx Hy) in Hxy. apply (leb_before y z Hy Hz) in Hyz.
    apply (leb_before x z Hx Hz). unfold Double.before in *.
    destruct (Double.rank x) as [[a b] c], (Double.rank y) as [[a' b'] c'],
             (Double.rank z) as [[a'' b''] c'']; cbn [fst snd] in *.
    destruct Hxy as [Hxy|Hxy]; [|injection Hxy as -> -> ->; exact Hyz].
    destruct Hyz as [Hyz|Hyz]; [|injection Hyz as <- <- <-; left; exact Hxy].
    left. lia. }
  assert (Hlt : forall x y, Double.ltb x y = true -> Double.leb x y = true).
  { intros x y H. apply ltb_before in H as (Hx & Hy & B).
    apply (leb_before x y Hx Hy). left. exact B. }
  induction line as [|q line IH]; intros b r Hw Hs He Hn.
  { subst r. simpl. repeat split; auto; contradiction. }
  subst r. cbn [fold_left].
  set (b' := step b q).
  assert (Hb' : (Double.is_nan (Double.bw b') = false
                 /\ Double.is_nan (Double.bs b') = false
                 /\ Double.is_nan (Double.be b') = false
                 /\ Double.is_nan (Double.bn b') = false)
                /\ (Double.leb (Double.bw b') (Double.bw b) = true
                    /\ Double.leb (Double.bs b') (Double.bs b) = true
                    /\ Double.leb (Double.be b) (Double.be b') = true
                    /\ Double.leb (Double.bn b) (Double.bn b') = true)
                /\ (Double.is_nan (Double.px q) = false ->
                    Double.leb (Double.bw b') (Double.px q) = true
                    /\ Double.leb (Double.px q) (Double.be b') = true)
                /\ (Double.is_nan (Double.py q) = false ->
                    Double.leb (Double.bs b') (Double.py q) = true
                    /\ Double.leb (Double.py q) (Double.bn b') = true)).
  { unfold b', step. cbn [Double.bw Double.bs Double.be Double.bn].
    destruct (Double.ltb (Double.px q) (Double.bw b)) eqn:E1;
      destruct (Double.ltb (Double.py q) (Double.bs b)) eqn:E2;
      destruct (Double.ltb (Double.be b) (Double.px q)) eqn:E3;
      destruct (Double.ltb (Double.bn b) (Double.py q)) eqn:E4;
      repeat match goal with
             | H : Double.ltb _ _ = true |- _ =>
                 let Hx := fresh "Hx" in let Hy := fresh "Hy" in
                 pose proof (Hlt _ _ H);
                 apply ltb_before in H as (Hx & Hy & _)
             end;
      repeat split; auto using ltb_false_leb. }
  destruct Hb' as ((Hw' & Hs' & He' & Hn') & (Lw & Ls & Le & Ln) & Hqx & Hqy).
  destruct (IH b' Hw' Hs' He' Hn') as (Hnan & (Mw & Ms & Me & Mn) & Hin).
  split; [exact Hnan|]. split; [repeat split; eauto|].
  intros p [<-|Hp]; [|apply Hin, Hp].
  split; intro Hp.
  - destruct (Hqx Hp). split; eauto.
  - destruct (Hqy Hp). split; eauto.
Qed.

(** X2. Over binary64: the box that [bbox_of] returns holds every point of
    the line whose coordinates are not NaN, whatever the other points
    are. *)
Theorem bbox_of_contains (line : list Double.point) (p : Double.point) :
  In p line ->
  Double.is_nan (Double.px p) = false -> Double.is_nan (Double.py p) = false ->
  Double.bbox_contains (Double.bbox_of line) p = true.
Proof.
  intros Hin Hx Hy.
  destruct (@double_bbox_of_fold line
              (Double.mkBBox Double.MAX_SAFE_INTEGER Double.MAX_SAFE_INTEGER
                 (Double.neg Double.MAX_SAFE_INTEGER)
                 (Double.neg Double.MAX_SAFE_INTEGER)))
    as (_ & _ & H); try reflexivity.
  destruct (H p Hin) as [Hpx Hpy].
  destruct (Hpx Hx) as [H1 H2]. destruct (Hpy Hy) as [H3 H4].
  unfold Double.bbox_contains, Double.bbox_of.
  rewrite H1, H2, H3, H4. reflexivity.
Qed.

Lemma bbox_of_contains_witness :
  Double.bbox_contains
    (Double.bbox_of [Double.ipt 1 5; (Double.of_bits 0x7FF8000000000000, Double.of_Z 9);
                     Double.ipt (- 2) 3])
    (Double.ipt (- 2) 3) = true.
Proof.
  apply (@bbox_of_contains
           [Double.ipt 1 5; (Double.of_bits 0x7FF8000000000000, Double.of_Z 9);
            Double.ipt (- 2) 3]
           (Double.ipt (- 2) 3)).
  - simpl. auto.
  - reflexivity.
  - reflexivity.
Defined.

(** ** Ring assembly over binary64 runs to its end *)

Lemma slot_inside {A} (l : list (option A)) (j : nat) (x : A) :
  nth j l None = Some x -> (j < length l)%nat.
Proof.
  intro H. destruct (Nat.lt_ge_cases j (length l)) as [Hlt|Hge]; [exact Hlt|].
  rewrite nth_overflow in H by exact Hge. discriminate.
Qed.

Lemma double_get_update_other (h x : nat) (f : Double.ringrec -> Double.ringrec)
      (rs : list Double.ringrec) :
  h <> x -> Double.get (update h f rs) x = Double.get rs x.
Proof. intro H. unfold Double.get. apply nth_update_other. exact H. Qed.

Lemma double_scan_outers_In (rs : list Double.ringrec) (hole : Double.ringrec)
      (os : list nat) (o : nat) :
  Double.scan_outers rs hole os = Some o -> In o os.
Proof.
  induction os as [|x os IH]; simpl; [discriminate|].
  destruct (Double.leb _ _); [auto|].
  destruct (Double.ringIntersect _ _ _ _); [|auto].
  intro H. injection H as ->. auto.
Qed.

Lemma double_place_hole_settled (st : Double.assembly) (k h : nat) :
  Double.settled k st -> nth k (Double.inners st) None = Some h ->
  Double.settled (S k) (Double.place_hole st h)
  /\ length (Double.inners (Double.place_hole st h)) = length (Double.inners st)
  /\ Double.outers (Double.place_hole st h) <> []
  /\ (exists more, Double.outers (Double.place_hole st h) = Double.outers st ++ more).
Proof.
  intros (Hi & Hdone & Hleft) Hk.
  destruct (Hi _ _ Hk) as [Hrange Hidx].
  assert (Hother : forall j x, j <> k -> nth j (Double.inners st) None = Some x -> x <> h).
  { intros j x Hjk Hj ->. destruct (Hi _ _ Hj) as [_ E]. congruence. }
  unfold Double.place_hole.
  destruct (Double.scan_outers (Double.rings st) (Double.get (Double.rings st) h)
                               (Double.outers st)) as [o|] eqn:Es.
  - apply double_scan_outers_In in Es.
    split; [split; [|split] | split; [|split]]; simpl.
    + intros j x Hj. rewrite length_update. apply Hi, Hj.
    + intros j x Hj Hx. destruct (Nat.eq_dec j k) as [->|Hjk].
      * rewrite Hk in Hx. injection Hx as <-. exists o. split; [|exact Es].
        unfold Double.get. rewrite nth_update_same by exact Hrange. reflexivity.
      * rewrite double_get_update_other
          by (apply not_eq_sym; eapply Hother; eassumption).
        apply (Hdone j); [lia | exact Hx].
    + intros j Hj. apply Hleft. lia.
    + reflexivity.
    + intro E. rewrite E in Es. destruct Es.
    + exists []. rewrite app_nil_r. reflexivity.
  - rewrite Hidx.
    split; [split; [|split] | split; [|split]]; simpl.
    + intros j x Hx. rewrite length_update.
      destruct (Nat.eq_dec j k) as [->|Hjk].
      * rewrite nth_update_same in Hx by (eapply slot_inside; eassumption).
        discriminate.
      * rewrite nth_update_other in Hx by congruence.
        destruct (Hi _ _ Hx) as [Hr Hix]. split; [exact Hr|].
        rewrite indexOf_update_None by congruence. exact Hix.
    + intros j x Hj Hx.
      destruct (Nat.eq_dec j k) as [->|Hjk].
      * rewrite nth_update_same in Hx by (eapply slot_inside; eassumption).
        discriminate.
      * rewrite nth_update_other in Hx by congruence.
        rewrite double_get_update_other
          by (apply not_eq_sym; eapply Hother; eassumption).
        destruct (Hdone j x) as (o & Eo & Io); [lia | exact Hx |].
        exists o. split; [exact Eo | apply in_or_app; left; exact Io].
    + rewrite length_update. intros j Hj.
      rewrite nth_update_other by lia. apply Hleft. lia.
    + apply length_update.
    + intro E. apply app_eq_nil in E as [_ E]. discriminate.
    + exists [h]. reflexivity.
Qed.

Lemma double_place_holes_settled (n : nat) :
  forall (k : nat) (st : Double.assembly),
    Double.settled k st -> (k + n = length (Double.inners st))%nat ->
    exists st',
      Double.place_holes n k st = OK st'
      /\ Double.settled (length (Double.inners st')) st'
      /\ (n <> 0%nat \/ Double.outers st <> [] -> Double.outers st' <> [])
      /\ (n = 0%nat -> st' = st).
Proof.
  induction n as [|n IH]; intros k st Hs Hlen.
  - exists st. split; [reflexivity|].
    replace (length (Double.inners st)) with k by lia.
    split; [exact Hs|]. split; [intros [H|H]; [congruence | exact H]|].
    reflexivity.
  - cbn [Double.place_holes].
    destruct (nth k (Double.inners st) None) as [h|] eqn:Hk.
    + destruct (@double_place_hole_settled st k h Hs Hk) as (Hs' & Hl' & Hne & _).
      destruct (IH (S k) (Double.place_hole st h) Hs' ltac:(lia))
        as (st' & E & Hs'' & Hout & _).
      exists st'. split; [exact E|]. split; [exact Hs''|].
      split; [intros _; apply Hout; right; exact Hne | discriminate].
    + exfalso. destruct Hs as (_ & _ & Hleft). apply (Hleft k); [lia | exact Hk].
Qed.

Lemma double_push_holes_returns (rs : list Double.ringrec) (os : list nat)
      (hs : list (option nat)) :
  (forall h, In (Some h) hs -> exists o, Double.outer (Double.get rs h) = Some o) ->
  forall polys, exists polys', Double.push_holes rs os hs polys = OK polys'.
Proof.
  induction hs as [|[h|] hs IH]; intros Hh polys; simpl.
  - exists polys. reflexivity.
  - destruct (Hh h (or_introl eq_refl)) as (o & ->).
    apply IH. intros x Hx. apply Hh. right. exact Hx.
  - apply IH. intros x Hx. apply Hh. right. exact Hx.
Qed.

Lemma double_emit_returns (st : Double.assembly) :
  Double.settled (length (Double.inners st)) st -> exists polys, Double.emit st = OK polys.
Proof.
  intros (_ & Hdone & _). unfold Double.emit. apply double_push_holes_returns.
  intros h Hh. apply (In_nth _ _ None) in Hh as (j & Hj & Ej).
  destruct (Hdone j h Hj Ej) as (o & Eo & _). exists o. exact Eo.
Qed.

Lemma double_filter_rings_In (keep : Double.double -> bool) (rs : list Double.ringrec)
      (i : nat) :
  In i (Double.filter_rings keep rs)
  <-> (i < length rs)%nat /\ keep (Double.area (Double.get rs i)) = true.
Proof.
  unfold Double.filter_rings. rewrite filter_In, in_seq. intuition lia.
Qed.

Lemma double_initial_settled (rs : list Double.ringrec) (keep keep' : Double.double -> bool) :
  Double.settled 0 (Double.mkAssembly rs (Double.filter_rings keep rs)
                      (map Some (Double.filter_rings keep' rs))).
Proof.
  split; [|split]; simpl.
  - intros j h Hj.
    assert (Hin : In h (Double.filter_rings keep' rs)).
    { pose proof (slot_inside _ _ Hj) as Hlt. rewrite length_map in Hlt.
      rewrite (nth_indep _ None (Some 0%nat)) in Hj by (rewrite length_map; lia).
      rewrite map_nth in Hj. injection Hj as <-. apply nth_In, Hlt. }
    split; [apply double_filter_rings_In in Hin; tauto|].
    apply indexOf_map_Some; [|exact Hj].
    unfold Double.filter_rings. apply NoDup_filter, seq_NoDup.
  - intros j h Hj. lia.
  - intros j Hj. rewrite length_map in Hj.
    rewrite (nth_indep _ None (Some 0%nat)) by (rewrite length_map; lia).
    rewrite map_nth. discriminate.
Qed.

Lemma filter_rings_none (keep : Double.double -> bool) (rs : list Double.ringrec) :
  Forall (fun r => keep (Double.area r) = false) rs -> Double.filter_rings keep rs = [].
Proof.
  intro H. unfold Double.filter_rings.
  destruct (filter _ _) as [|i l] eqn:E; [reflexivity|]. exfalso.
  assert (Hi : In i (filter (fun i => keep (Double.area (Double.get rs i)))
                            (seq 0 (length rs)))) by (rewrite E; left; reflexivity).
  apply filter_In in Hi as [Hi Hk]. apply in_seq in Hi.
  rewrite Forall_forall in H.
  rewrite (H (Double.get rs i)) in Hk; [discriminate|].
  apply nth_In. lia.
Qed.

Lemma double_insert_ring_permutes (r : Double.ringrec) (s : list Double.ringrec) :
  Permutation (Double.insert_ring r s) (r :: s).
Proof.
  induction s as [|y s IHs]; simpl; [reflexivity|].
  destruct (Double.ltb _ _); [|reflexivity].
  transitivity (y :: r :: s); [constructor; exact IHs | constructor].
Qed.

Lemma double_sort_rings_permutes : Double.permutes Double.sort_rings.
Proof.
  intro l. induction l as [|x l IH]; [constructor|]. simpl.
  transitivity (x :: Double.sort_rings l);
    [apply double_insert_ring_permutes | constructor; exact IH].
Qed.

Lemma sort_one (sort : list Double.ringrec -> list Double.ringrec) (r : Double.ringrec) :
  Double.permutes sort -> sort [r] = [r].
Proof. intro H. apply Permutation_length_1_inv, Permutation_sym, H. Qed.

Lemma sort_two (sort : list Double.ringrec -> list Double.ringrec) (r1 r2 : Double.ringrec) :
  Double.permutes sort -> sort [r1; r2] = [r1; r2] \/ sort [r1; r2] = [r2; r1].
Proof. intro H. apply Permutation_length_2_inv, Permutation_sym, H. Qed.

(** X7. Over binary64: a polygon record whose rings pass the checks of the
    first loop gives a geometry when the area of one of its rings is
    negative or positive, and is refused for having no outer ring when
    none is: when the record has no ring, or when every area is NaN.
    Every inner ring finds an outer or becomes one, and no slot of
    [inners] is read after it was set to [null].  The sort may put the
    records in any order. *)
Theorem polygon_assembly_total (sort : list Double.ringrec -> list Double.ringrec)
        (lines : list (list Double.point)) (rs : list Double.ringrec) :
  Double.permutes sort ->
  Double.measure_rings lines = OK rs ->
  if existsb (fun r => Double.signed (Double.area r)) rs
  then exists g, Double.polygon_geometry sort lines = OK g
  else Double.polygon_geometry sort lines = Throw (TypeError NoOuterRings).
Proof.
  intros Hsort Hm. unfold Double.polygon_geometry. rewrite Hm. cbn [bind].
  set (rs' := sort rs).
  set (os := Double.filter_rings (fun a => Double.ltb a Double.zero) rs').
  set (hs := Double.filter_rings (fun a => Double.ltb Double.zero a) rs').
  destruct (@double_place_holes_settled (length hs) 0
              (Double.mkAssembly rs' os (map Some hs)))
    as (st & E & Hs & Hout & Hnone).
  { apply double_initial_settled. }
  { simpl. rewrite length_map. reflexivity. }
  rewrite E. cbn [bind].
  destruct (existsb (fun r => Double.signed (Double.area r)) rs) eqn:Ex.
  - apply existsb_exists in Ex as (r & Hr & Hsigned).
    assert (Hr' : In r rs') by (apply (Permutation_in r (Permutation_sym (Hsort rs))), Hr).
    apply (In_nth _ _ Double.no_ring) in Hr' as (i & Hi & Ei).
    assert (Hne : Double.outers st <> []).
    { apply Hout. simpl Double.outers. unfold Double.signed in Hsigned.
      apply orb_true_iff in Hsigned as [Hneg|Hpos].
      - right. intro E0.
        assert (Hin : In i os).
        { apply double_filter_rings_In. split; [exact Hi|].
          unfold Double.get. rewrite Ei. exact Hneg. }
        rewrite E0 in Hin. destruct Hin.
      - left. intro E0. apply length_zero_iff_nil in E0.
        assert (Hin : In i hs).
        { apply double_filter_rings_In. split; [exact Hi|].
          unfold Double.get. rewrite Ei. exact Hpos. }
        rewrite E0 in Hin. destruct Hin. }
    destruct (length (Double.outers st) =? 0)%nat eqn:E0.
    { apply Nat.eqb_eq, length_zero_iff_nil in E0. contradiction. }
    destruct (double_emit_returns Hs) as (polys & ->). cbn [bind].
    destruct (length (Double.outers st) =? 1)%nat; eexists; reflexivity.
  - assert (Hall : Forall (fun r => Double.signed (Double.area r) = false) rs').
    { apply Forall_forall. intros r Hr.
      apply (Permutation_in r (Hsort rs)) in Hr.
      destruct (Double.signed (Double.area r)) eqn:Er; [|reflexivity].
      assert (existsb (fun r => Double.signed (Double.area r)) rs = true)
        by (apply existsb_exists; eauto).
      congruence. }
    assert (Eos : os = []).
    { apply filter_rings_none. eapply Forall_impl; [|exact Hall].
      intros r Hr. unfold Double.signed in Hr. apply orb_false_iff in Hr. tauto. }
    assert (Ehs : hs = []).
    { apply filter_rings_none. eapply Forall_impl; [|exact Hall].
      intros r Hr. unfold Double.signed in Hr. apply orb_false_iff in Hr. tauto. }
    rewrite (Hnone ltac:(rewrite Ehs; reflexivity)). simpl Double.outers.
    rewrite Eos. reflexivity.
Qed.

Lemma polygon_assembly_total_witness :
  exists g,
    Double.polygon_geometry Double.sort_rings
      [Double.square_cw 0 10; rev (Double.square_cw 20 30); rev (Double.square_cw 4 6)]
    = OK g.
Proof.
  destruct (Double.measure_rings
              [Double.square_cw 0 10; rev (Double.square_cw 20 30);
               rev (Double.square_cw 4 6)]) as [rs|e] eqn:Em.
  - pose proof (@polygon_assembly_total Double.sort_rings
                  [Double.square_cw 0 10; rev (Double.square_cw 20 30);
                   rev (Double.square_cw 4 6)] rs) as H.
    vm_compute in Em. injection Em as <-.
    apply H; [exact double_sort_rings_permutes | reflexivity].
  - vm_compute in Em. discriminate.
Defined.

(** X10. Over binary64: the polygon branch throws its five [TypeError]s and
    nothing else: those of the ring checks of the first loop, 'ring too
    short', 'ring not closed', 'ring area is 0' and, for a ring whose sum
    is not 0 and whose half sum is, 'ring area is zero', and 'no outer
    rings'.  Each of them is thrown on some record, and no property of
    [null] is ever read, whatever order the sort puts the records in. *)
Theorem polygon_branch_errors (sort : list Double.ringrec -> list Double.ringrec)
        (e : error) :
  Double.permutes sort ->
  (exists lines, Double.polygon_geometry sort lines = Throw e) <-> Double.polygon_error e.
Proof.
  intro Hsort. split.
  - intros [lines H]. unfold Double.polygon_error.
    destruct (Double.measure_rings lines) as [rs|e'] eqn:Em.
    + pose proof (@polygon_assembly_total sort lines rs Hsort Em) as T.
      destruct (existsb _ rs).
      * destruct T as [g T]. rewrite T in H. discriminate.
      * rewrite T in H. injection H as <-. auto 10.
    + rewrite (@double_polygon_measure_Throw sort lines e' Em) in H. injection H as <-.
      destruct (@double_measure_rings_errors lines e' Em) as (m & Hm & ->).
      unfold ring_error in Hm. destruct Hm as [ -> | [ -> | [ -> | -> ] ] ]; auto 10.
  - unfold Double.polygon_error.
    intros [ -> | [ -> | [ -> | [ -> | -> ] ] ] ].
    + exists [Double.open_triangle]. apply double_polygon_measure_Throw.
      vm_compute. reflexivity.
    + exists [Double.open_square]. apply double_polygon_measure_Throw.
      vm_compute. reflexivity.
    + exists [rev Double.sliver]. apply double_polygon_measure_Throw.
      vm_compute. reflexivity.
    + exists [Double.tiny_ring]. apply double_polygon_measure_Throw.
      vm_compute. reflexivity.
    + exists []. exact (@polygon_assembly_total sort [] [] Hsort eq_refl).
Qed.

Lemma polygon_branch_errors_witness :
  Double.polygon_geometry Double.sort_rings [Double.tiny_ring]
  = Throw (TypeError RingAreaZero)
  /\ Double.polygon_error (TypeError RingAreaZero).
Proof.
  assert (E : Double.polygon_geometry Double.sort_rings [Double.tiny_ring]
              = Throw (TypeError RingAreaZero)) by (vm_compute; reflexivity).
  split; [exact E|].
  apply (proj1 (@polygon_branch_errors Double.sort_rings (TypeError RingAreaZero)
                  double_sort_rings_permutes)).
  exists [Double.tiny_ring]. exact E.
Defined.

(** X9. Over binary64: a polygon record with one closed ring whose area is
    not zero gives a polygon with that ring alone when the area is
    negative or positive: an outer ring, of negative area, comes out
    reversed, and a ring of positive area, an inner ring without an
    outer, comes out as it came in, reversed twice.  When the area is
    NaN the record is refused for having no outer ring. *)
Theorem lone_ring_polygon (sort : list Double.ringrec -> list Double.ringrec)
        (r : list Double.point) (a : Double.double) :
  Double.permutes sort ->
  Double.ringClosed r = OK true ->
  Double.ringArea r = OK a ->
  Double.eqb a Double.zero = false ->
  Double.polygon_geometry sort [r]
  = if Double.ltb a Double.zero then OK (Double.Polygon [rev r])
    else if Double.ltb Double.zero a then OK (Double.Polygon [r])
    else Throw (TypeError NoOuterRings).
Proof.
  intros Hsort Hc Ha Hz. unfold Double.polygon_geometry.
  cbn [Double.measure_rings]. rewrite Hc. cbn [bind negb]. rewrite Ha. cbn [bind].
  rewrite Hz. cbn [bind]. rewrite (@sort_one sort _ Hsort).
  unfold Double.filter_rings. cbn [length seq filter Double.get nth Double.area].
  destruct (Double.ltb a Double.zero) eqn:Hn.
  - assert (Hp : Double.ltb Double.zero a = false).
    { destruct (Double.ltb Double.zero a) eqn:Hp; [|reflexivity].
      destruct a as [s|s| |s m e]; try destruct s; discriminate. }
    rewrite Hp. reflexivity.
  - destruct (Double.ltb Double.zero a) eqn:Hp; [|reflexivity].
    cbn. rewrite rev_involutive. reflexivity.
Qed.

Lemma lone_ring_polygon_witness :
  Double.polygon_geometry Double.sort_rings [rev (Double.square_cw 0 10)]
  = OK (Double.Polygon [rev (Double.square_cw 0 10)])
  /\ Double.polygon_geometry Double.sort_rings [Double.square_cw 0 10]
     = OK (Double.Polygon [rev (Double.square_cw 0 10)]).
Proof.
  split.
  - exact (@lone_ring_polygon Double.sort_rings (rev (Double.square_cw 0 10))
             (Double.of_Z 100) double_sort_rings_permutes
             eq_refl eq_refl eq_refl).
  - exact (@lone_ring_polygon Double.sort_rings (Double.square_cw 0 10)
             (Double.of_Z (-100)) double_sort_rings_permutes
             eq_refl eq_refl eq_refl).
Defined.

(** X8. Over binary64: a ring is dropped without a word when its area is
    NaN.  The record with a square and a closed ring that has NaN for an
    abscissa gives the polygon of the square alone: the ring with the NaN
    passes both area checks, is neither among the outer rings nor among
    the inner ones, and the geometry has one ring for the two parts of
    the record, whatever order the sort leaves the two in. *)
Theorem nan_ring_is_dropped (sort : list Double.ringrec -> list Double.ringrec) :
  Double.permutes sort ->
  Double.ringClosed Double.nan_ring = OK true
  /\ (exists a, Double.ringArea Double.nan_ring = OK a /\ Double.is_nan a = true)
  /\ Double.polygon_geometry sort [Double.square_cw 0 10; Double.nan_ring]
     = OK (Double.Polygon [rev (Double.square_cw 0 10)]).
Proof.
  intro Hsort. split; [vm_compute; reflexivity|].
  split; [eexists; split; vm_compute; reflexivity|].
  unfold Double.polygon_geometry.
  destruct (Double.measure_rings [Double.square_cw 0 10; Double.nan_ring])
    as [rs|e] eqn:Em; vm_compute in Em; [|discriminate].
  injection Em as <-. cbn [bind].
  match goal with
  | |- context [sort [?x; ?y]] =>
      destruct (@sort_two sort x y Hsort) as [E | E]; rewrite E
  end; vm_compute; reflexivity.
Qed.

Lemma nan_ring_is_dropped_witness :
  Double.polygon_geometry Double.sort_rings [Double.square_cw 0 10; Double.nan_ring]
  = OK (Double.Polygon [rev (Double.square_cw 0 10)]).
Proof.
  exact (proj2 (proj2 (@nan_ring_is_dropped Double.sort_rings double_sort_rings_permutes))).
Defined.

(** ** The header of a DBF stream *)


Lemma byte_at_app (b rest : list byte) (i : nat) :
  (i < length b)%nat -> byte_at (b ++ rest) i = byte_at b i.
Proof. intro H. unfold byte_at. rewrite app_nth1 by exact H. reflexivity. Qed.

Lemma dbf_version_app (b rest : list byte) :
  32 <= byteLength b -> dbf_version (b ++ rest) = dbf_version b.
Proof.
  intro H. unfold dbf_version, byteLength in *. rewrite byte_at_app by lia.
  reflexivity.
Qed.

Lemma dbf_encrypted_app (b rest : list byte) :
  32 <= byteLength b -> dbf_encrypted (b ++ rest) = dbf_encrypted b.
Proof.
  intro H. unfold dbf_encrypted, byteLength in *. rewrite byte_at_app by lia.
  reflexivity.
Qed.

Lemma buffer_slice_0 (b : ArrayBuffer) : buffer_slice b 0 = b.
Proof.
  unfold buffer_slice. simpl. unfold byteLength.
  replace (Z.to_nat (Z.min 0 (Z.of_nat (length b)))) with 0%nat by lia.
  reflexivity.
Qed.

(** ** Chunks that own their buffer *)

Lemma elements_own (bs : list byte) : elements (own bs) = bs.
Proof.
  unfold elements, own. simpl. rewrite Nat2Z.id. apply firstn_all.
Qed.

Lemma zero_filled_nil (n : Z) : n <= 0 -> zero_filled n = [].
Proof.
  intro H. unfold zero_filled. replace (Z.to_nat n) with 0%nat by lia. reflexivity.
Qed.


Section DBFHeader.

Variable decode : list byte -> jsstring.



End DBFHeader.



(** ** Windows of buffers *)

Lemma view_window (pre w post : list byte) (p n : Z) :
  0 <= p -> 0 <= n -> p + n <= byteLength w ->
  view (pre ++ w ++ post) (Z.of_nat (length pre) + p) n = view w p n.
Proof.
  intros Hp Hn Hw. unfold view. destruct (Z.ltb_spec n 0); [lia|].
  rewrite !bytes_at_inside;
    try (unfold byteLength in *; rewrite ?length_app; lia).
  f_equal. apply window_middle; lia.
Qed.

Lemma view_whole (pre w post : list byte) :
  view (pre ++ w ++ post) (Z.of_nat (length pre)) (byteLength w) = OK w.
Proof.
  replace (Z.of_nat (length pre)) with (Z.of_nat (length pre) + 0) by lia.
  rewrite view_window by (unfold byteLength; lia).
  unfold view, byteLength. destruct (Z.ltb_spec (Z.of_nat (length w)) 0); [lia|].
  rewrite bytes_at_inside by (unfold byteLength; lia).
  rewrite Nat2Z.id. simpl. rewrite firstn_all. reflexivity.
Qed.

(** ** The exceptions of the decoders *)

Lemma throws_only_bind {A B} (P : error -> Prop) (m : result A) (k : A -> result B) :
  throws_only P m -> (forall a, throws_only P (k a)) -> throws_only P (bind m k).
Proof.
  intros Hm Hk e H. destruct m as [a|e']; simpl in H.
  - exact (Hk a e H).
  - injection H as <-. apply Hm. reflexivity.
Qed.

Lemma throws_only_OK {A} (P : error -> Prop) (a : A) : throws_only P (OK a).
Proof. intros e H. discriminate. Qed.

Lemma throws_only_Throw {A} (P : error -> Prop) (e : error) :
  P e -> throws_only P (@Throw A e).
Proof. intros H e' E. injection E as <-. exact H. Qed.

Create HintDb throws.

Ltac throws :=
  repeat first
    [ solve [auto with throws nocore]
    | apply throws_only_OK
    | apply throws_only_Throw; reflexivity
    | apply throws_only_bind; [|intro]
    | match goal with
      | |- throws_only _ (if ?c then _ else _) => destruct c
      | |- throws_only _ (match ?x with _ => _ end) => destruct x
      end ].

(** ** Slices of buffers *)

Lemma buffer_slice_inside (b : ArrayBuffer) (off : Z) :
  0 <= off <= byteLength b ->
  buffer_slice b off = skipn (Z.to_nat off) b
  /\ byteLength (buffer_slice b off) = byteLength b - off.
Proof.
  intro H. unfold buffer_slice. destruct (Z.ltb_spec off 0); [lia|].
  rewrite Z.min_l by lia. split; [reflexivity|].
  unfold byteLength in *. rewrite length_skipn. lia.
Qed.

(** ** Chunk boundaries and the machine *)

Lemma enqueued_Returned {S O} (out : list O) (o : outcome S O) (st : S) (out' : list O) :
  o = Returned st out' -> enqueued out o = Returned st (out ++ out').
Proof. intros ->. reflexivity. Qed.

Lemma skipn_app_inside {A} (n : nat) (l rest : list A) :
  (n <= length l)%nat -> skipn n (l ++ rest) = skipn n l ++ rest.
Proof.
  intro H. rewrite skipn_app. replace (n - length l)%nat with 0%nat by lia.
  reflexivity.
Qed.

Lemma firstn_app_inside {A} (n : nat) (l rest : list A) :
  (n <= length l)%nat -> firstn n (l ++ rest) = firstn n l.
Proof.
  intro H. rewrite firstn_app. replace (n - length l)%nat with 0%nat by lia.
  rewrite firstn_O, app_nil_r. reflexivity.
Qed.

Section MachineChunks.

Variables Reg Out : Type.
Variable wanted : Reg -> Z.
Variable round : Reg -> ArrayBuffer -> Z -> result (Reg * Z * list Out).

(** The registers with which a round reads at fixed places of the
    buffer: they occur with the cursor at 0 only. *)
Variable anchored : Reg -> bool.

Hypothesis round_local : forall r, anchored r = false -> local (round r).
Hypothesis round_anchored :
  forall r w v post,
    anchored r = true -> round r w 0 = OK v -> round r (w ++ post) 0 = OK v.
Hypothesis round_unanchors :
  forall r w r' adv out, round r w 0 = OK (r', adv, out) -> anchored r' = false.

(** A round that succeeds on its window succeeds on the buffer. *)
Lemma round_on_buffer (r : Reg) (data : ArrayBuffer) (off : Z) v :
  0 <= off <= byteLength data ->
  wanted r <= byteLength data - off ->
  (anchored r = true -> off = 0) ->
  round r (firstn (Z.to_nat (wanted r)) (skipn (Z.to_nat off) data)) 0 = OK v ->
  round r data off = OK v.
Proof.
  intros Hoff Hlen Hanch H.
  set (pre := firstn (Z.to_nat off) data).
  set (w := firstn (Z.to_nat (wanted r)) (skipn (Z.to_nat off) data)) in *.
  set (post := skipn (Z.to_nat (wanted r)) (skipn (Z.to_nat off) data)).
  assert (Edata : data = pre ++ w ++ post).
  { unfold pre, w, post. rewrite !firstn_skipn. reflexivity. }
  assert (Epre : Z.of_nat (length pre) = off).
  { unfold pre, byteLength in *. rewrite length_firstn. lia. }
  clearbody pre w post. clear Hoff Hlen. subst data off.
  destruct (anchored r) eqn:Ea.
  - specialize (Hanch eq_refl).
    assert (pre = []) as -> by (destruct pre; [reflexivity | simpl in Hanch; lia]).
    simpl. apply round_anchored; assumption.
  - replace (Z.of_nat (length pre)) with (Z.of_nat (length pre) + 0) by lia.
    apply (round_local Ea). exact H.
Qed.

Lemma machine_loop_decodes (r : Reg) (input : list byte) (rf : Reg) (outs : list Out) :
  decodes wanted round r input rf outs ->
  forall (data : ArrayBuffer) (off : Z) (rest : list byte) (fuel : nat),
    0 <= off <= byteLength data ->
    input = skipn (Z.to_nat off) data ++ rest ->
    (anchored r = true -> off = 0) ->
    (Z.to_nat (byteLength data - off) < fuel)%nat ->
    exists r1 off1 out1 out2,
      machine_loop wanted round fuel data r off = Returned (r1, off1) out1
      /\ outs = out1 ++ out2
      /\ decodes wanted round r1 (skipn (Z.to_nat off1) data ++ rest) rf out2
      /\ byteLength data - off1 < wanted r1
      /\ 0 <= off1 <= byteLength data
      /\ (anchored r1 = true -> off1 = 0).
Proof.
  induction 1 as [r input Hshort | r input r' adv out r'' out' Hlong Hround Hadv Hrest IH];
    intros data off rest fuel Hoff Hin Hanch Hfuel;
    (destruct fuel as [|fuel]; [lia|]); simpl.
  - assert (Hlen : byteLength (skipn (Z.to_nat off) data) = byteLength data - off).
    { unfold byteLength in *. rewrite length_skipn. lia. }
    assert (byteLength data - off <= byteLength input).
    { rewrite Hin, <- Hlen. unfold byteLength. rewrite length_app. lia. }
    destruct (Z.ltb_spec (byteLength data - off) (wanted r)); [|lia].
    exists r, off, [], []. repeat split; try assumption; try lia.
    rewrite <- Hin. apply decodes_wait. exact Hshort.
  - assert (Hlen : byteLength (skipn (Z.to_nat off) data) = byteLength data - off).
    { unfold byteLength in *. rewrite length_skipn. lia. }
    destruct (Z.ltb_spec (byteLength data - off) (wanted r)) as [Hwait|Hgo].
    + exists r, off, [], (out ++ out'). repeat split; try assumption; try lia.
      rewrite <- Hin. eapply decodes_round; eassumption.
    + assert (Ewin : firstn (Z.to_nat (wanted r)) input
                     = firstn (Z.to_nat (wanted r)) (skipn (Z.to_nat off) data)).
      { rewrite Hin. apply firstn_app_inside. unfold byteLength in *. lia. }
      rewrite Ewin in Hround.
      rewrite (@round_on_buffer r data off _ Hoff Hgo Hanch Hround).
      destruct (IH data (off + adv) rest fuel) as (r1 & off1 & out1 & out2 & E & Ho & Hd & Hw & Hb & Ha).
      * lia.
      * rewrite Hin. rewrite skipn_app_inside by (unfold byteLength in *; lia).
        f_equal. rewrite skipn_skipn. f_equal. lia.
      * intro Ha. rewrite (round_unanchors Hround) in Ha. discriminate.
      * lia.
      * exists r1, off1, (out ++ out1), out2.
        split; [apply enqueued_Returned, E|].
        split; [rewrite Ho; apply app_assoc|]. auto.
Qed.

Lemma machine_transform_live (fuel : nat) (c : list byte)
      (buf : option ArrayBuffer) (r : Reg) (off : Z) :
  match buf with
  | None => off = 0
  | Some b => 0 <= off <= byteLength b
  end ->
  machine_transform wanted round fuel c (buf, r, off)
  = map_outcome (fun ro => (Some (live buf off ++ c), fst ro, snd ro))
                (machine_loop wanted round fuel (live buf off ++ c) r 0).
Proof.
  intro Hbuf. unfold machine_transform. destruct buf as [b|]; cbv zeta.
  - destruct (@buffer_slice_inside b off Hbuf) as [Es _]. rewrite Es. reflexivity.
  - subst off. reflexivity.
Qed.

Lemma machine_feed_decodes (chunks : list (list byte)) :
  forall (buf : option ArrayBuffer) (r : Reg) (off : Z) (rf : Reg)
         (outs : list Out) (fuel : nat),
    match buf with
    | None => off = 0
    | Some b => 0 <= off <= byteLength b
    end ->
    decodes wanted round r (live buf off ++ concat chunks) rf outs ->
    byteLength (live buf off) < wanted r ->
    (byteLength (live buf off ++ concat chunks) < Z.of_nat fuel) ->
    exists buf' off',
      machine_feed wanted round fuel chunks (buf, r, off) = Returned (buf', rf, off') outs.
Proof.
  induction chunks as [|c cs IH]; intros buf r off rf outs fuel Hbuf Hdec Hshort Hfuel.
  - simpl in Hdec |- *. rewrite app_nil_r in Hdec. exists buf, off.
    inversion Hdec; subst; [reflexivity | lia].
  - simpl concat in *. cbn [machine_feed].
    rewrite (@machine_transform_live fuel c buf r off Hbuf).
    set (data := live buf off ++ c).
    assert (Hlen : byteLength (live buf off ++ c ++ concat cs)
                   = byteLength data + byteLength (concat cs)).
    { unfold data, byteLength. rewrite !length_app. lia. }
    assert (Hd0 : 0 <= byteLength data) by (unfold byteLength; lia).
    assert (Hc0 : 0 <= byteLength (concat cs)) by (unfold byteLength; lia).
    assert (Hloop : exists r1 off1 out1 out2,
               machine_loop wanted round fuel data r 0 = Returned (r1, off1) out1
               /\ outs = out1 ++ out2
               /\ decodes wanted round r1 (skipn (Z.to_nat off1) data ++ concat cs) rf out2
               /\ byteLength data - off1 < wanted r1
               /\ 0 <= off1 <= byteLength data
               /\ (anchored r1 = true -> off1 = 0)).
    { apply (machine_loop_decodes Hdec); try lia; auto.
      simpl. unfold data. rewrite app_assoc. reflexivity. }
    destruct Hloop as (r1 & off1 & out1 & out2 & E & Ho & Hd & Hw & Hb & Ha).
    rewrite E. simpl map_outcome.
    destruct (IH (Some data) r1 off1 rf out2 fuel) as (buf' & off' & E').
    + exact Hb.
    + exact Hd.
    + unfold live, byteLength in *. rewrite length_skipn. lia.
    + unfold live, byteLength in *. rewrite length_app, length_skipn in *. lia.
    + exists buf', off'. rewrite Ho. apply enqueued_Returned, E'.
Qed.

(** Whatever the chunks a stream comes in, the machine ends with the
    registers and the values that the rounds give on the whole input. *)
Lemma machine_feed_any_chunks (r0 : Reg) (input : list byte) (rf : Reg)
      (outs : list Out) (chunks : list (list byte)) (fuel : nat) :
  decodes wanted round r0 input rf outs ->
  0 < wanted r0 ->
  concat chunks = input ->
  (length input < fuel)%nat ->
  exists buf off,
    machine_feed wanted round fuel chunks (None, r0, 0) = Returned (buf, rf, off) outs.
Proof.
  intros Hdec Hw Hc Hfuel.
  apply machine_feed_decodes; simpl live; simpl app.
  - reflexivity.
  - rewrite Hc. exact Hdec.
  - unfold byteLength. simpl. lia.
  - rewrite Hc. unfold byteLength. lia.
Qed.

End MachineChunks.

(** ** The decoders are local *)

Ltac forward_pos := split; [cbv beta; lia | intro; cbv beta; lia].

Lemma bytes_at_forward (g : Z -> Z) (n : nat) :
  forward g -> local (fun b o => bytes_at b (g o) n).
Proof.
  intros [H0 Hg]. apply (@local_ext _ (fun b o => bytes_at b (o + g 0) n)).
  - intros b o. rewrite (Hg o). reflexivity.
  - apply bytes_at_local, H0.
Qed.

Lemma getUint8_forward (g : Z -> Z) :
  forward g -> local (fun b o => getUint8 b (g o)).
Proof. intro H. unfold getUint8. apply local_map, bytes_at_forward, H. Qed.

Lemma getInt32_forward (g : Z -> Z) (le : bool) :
  forward g -> local (fun b o => getInt32 b (g o) le).
Proof. intro H. unfold getInt32. apply local_map, bytes_at_forward, H. Qed.

Lemma view_forward (g : Z -> Z) (len : Z) :
  forward g -> local (fun b o => view b (g o) len).
Proof.
  intro H. unfold view. destruct (len <? 0).
  - apply local_const.
  - apply bytes_at_forward, H.
Qed.

Lemma forward_plus (g : Z -> Z) (k : Z) :
  forward g -> 0 <= k -> forward (fun o => g o + k).
Proof. intros [H0 Hg] Hk. split; [lia | intro o; rewrite (Hg o); lia]. Qed.

Lemma forward_id : forward (fun o => o).
Proof. split; [lia | intro; lia]. Qed.

Lemma read_parts_forward (n : nat) :
  forall g, forward g -> local (fun b o => read_parts b (g o) n).
Proof.
  induction n as [|n IH]; intros g Hg; simpl.
  - apply local_const.
  - apply local_bind; [apply getInt32_forward, Hg | intro part].
    apply local_map. apply (IH (fun o => g o + 4)), forward_plus; [exact Hg | lia].
Qed.

(** A local reader at a fixed place [k] of a buffer that starts at the
    cursor. *)
Lemma at_cursor_0 {A} (F : ArrayBuffer -> Z -> result A) (k : Z) :
  local (fun b o => F b (o + k)) ->
  forall (w post : list byte) (v : A), F w k = OK v -> F (w ++ post) k = OK v.
Proof.
  intros HL w post v H. specialize (HL w 0 v). simpl in HL.
  exact (HL H [] post).
Qed.

Lemma local_bind_pure {A B} (m : result A) (g : A -> ArrayBuffer -> Z -> result B) :
  (forall a, m = OK a -> local (g a)) ->
  local (fun b o => let* a := m in g a b o).
Proof.
  intros Hg w p v H pre post. destruct m as [a|e]; [|discriminate].
  simpl in *. apply (Hg a eq_refl), H.
Qed.

Section LocalSHP.

Variable float64 : list byte -> Q.
Variable project : point -> point.

Lemma getFloat64_forward (g : Z -> Z) :
  forward g -> local (fun b o => getFloat64 float64 b (g o)).
Proof. intro H. unfold getFloat64. apply local_map, bytes_at_forward, H. Qed.

Lemma read_point_forward (g : Z -> Z) :
  forward g -> local (fun b o => read_point float64 project b (g o)).
Proof.
  intro H. unfold read_point.
  apply local_bind; [apply getFloat64_forward, H | intro x].
  apply local_map. apply (@getFloat64_forward (fun o => g o + 8)).
  apply forward_plus; [exact H | lia].
Qed.

Lemma parseBBox_forward (g : Z -> Z) :
  forward g -> local (fun b o => parseBBox float64 project b (g o)).
Proof.
  intro H. unfold parseBBox.
  apply local_bind; [apply read_point_forward, H | intro lo].
  apply local_map. apply (@read_point_forward (fun o => g o + 16)).
  apply forward_plus; [exact H | lia].
Qed.

Lemma read_points_forward (n : nat) :
  forall g, forward g -> local (fun b o => read_points float64 project b (g o) n).
Proof.
  induction n as [|n IH]; intros g Hg; simpl.
  - apply local_const.
  - apply local_bind; [apply read_point_forward, Hg | intro p].
    apply local_map. apply (IH (fun o => g o + 16)).
    apply forward_plus; [exact Hg | lia].
Qed.

Lemma parseRecord_local : local (parseRecord float64 project).
Proof.
  unfold parseRecord.
  apply local_bind; [apply (@getInt32_forward (fun o => o) true), forward_id | intro type].
  destruct (type =? 0); [apply local_const|].
  destruct (type =? 1).
  { apply local_map. apply (@read_point_forward (fun o => o + 4)). forward_pos. }
  destruct ((type =? 3) || (type =? 5)).
  { apply local_bind;
      [apply (@parseBBox_forward (fun o => o + 4)); forward_pos | intro bbox].
    apply local_bind;
      [apply (@getInt32_forward (fun o => o + 36) true); forward_pos | intro nparts].
    apply local_bind;
      [apply (@getInt32_forward (fun o => o + 40) true); forward_pos | intro npoints].
    apply local_bind_pure. intros np Hnp.
    apply local_bind_pure. intros nq _.
    assert (Hpos : 0 <= nparts).
    { unfold Array_ in Hnp. destruct (Z.ltb_spec nparts 0); [discriminate | lia]. }
    apply local_bind;
      [apply (@read_parts_forward np (fun o => o + 44)); forward_pos | intro parts].
    apply local_bind;
      [apply (@read_points_forward nq (fun o => o + 44 + 4 * nparts)); forward_pos
      | intro points].
    destruct (type =? 3); [apply local_const|].
    apply local_const. }
  destruct (type =? 8); [|apply local_const].
  apply local_bind;
    [apply (@parseBBox_forward (fun o => o + 4)); forward_pos | intro bbox].
  apply local_bind;
    [apply (@getInt32_forward (fun o => o + 36) true); forward_pos | intro num].
  apply local_bind_pure. intros n _.
  apply local_map. apply (@read_points_forward n (fun o => o + 40)). forward_pos.
Qed.

Lemma getInt32_extends (k : Z) (le : bool) (w post : list byte) (v : Z) :
  0 <= k -> getInt32 w k le = OK v -> getInt32 (w ++ post) k le = OK v.
Proof.
  intros Hk H.
  apply (@at_cursor_0 Z (fun b o => getInt32 b o le) k); [|exact H].
  apply (@getInt32_forward (fun o => o + k) le). forward_pos.
Qed.

Lemma parseBBox_extends (k : Z) (w post : list byte) (v : BBox) :
  0 <= k ->
  parseBBox float64 project w k = OK v ->
  parseBBox float64 project (w ++ post) k = OK v.
Proof.
  intros Hk H.
  apply (@at_cursor_0 BBox (fun b o => parseBBox float64 project b o) k); [|exact H].
  apply (@parseBBox_forward (fun o => o + k)). forward_pos.
Qed.

Lemma parseHeader_extends (w post : list byte) v :
  parseHeader float64 project w = OK v ->
  parseHeader float64 project (w ++ post) = OK v.
Proof.
  unfold parseHeader. intro H.
  apply bind_OK in H as (magic & Hm & H).
  rewrite (@getInt32_extends 0 false w post magic ltac:(lia) Hm).
  simpl bind. destruct (negb (magic =? 9994)); [discriminate|].
  apply bind_OK in H as (words & Hw & H).
  rewrite (@getInt32_extends 24 false w post words ltac:(lia) Hw).
  simpl bind.
  apply bind_OK in H as (bbox & Hb & H).
  rewrite (@parseBBox_extends 36 w post bbox ltac:(lia) Hb).
  exact H.
Qed.

End LocalSHP.

(** ** The transforms are instances of the machine *)

Lemma map_outcome_map_outcome {S T U O} (f : S -> T) (g : T -> U) (o : outcome S O) :
  map_outcome g (map_outcome f o) = map_outcome (fun s => g (f s)) o.
Proof. destruct o; reflexivity. Qed.

Lemma map_outcome_ext {S T O} (f g : S -> T) (o : outcome S O) :
  (forall s, f s = g s) -> map_outcome f o = map_outcome g o.
Proof. intro H. destruct o; simpl; rewrite ?H; reflexivity. Qed.

Lemma map_outcome_enqueued {S T O} (f : S -> T) (out : list O) (o : outcome S O) :
  map_outcome f (enqueued out o) = enqueued out (map_outcome f o).
Proof. destruct o; reflexivity. Qed.

Lemma enqueued_nil {S O} (o : outcome S O) : enqueued [] o = o.
Proof. destruct o; reflexivity. Qed.

Section SHPInstance.

Variable shpHeader : ArrayBuffer -> result (BBox * Z).
Variable shpRecord : ArrayBuffer -> Z -> bool -> result feature.
Variable withM : bool.

(** What the proofs about whole streams ask of the two decoders: a
    record that is decoded from a buffer is decoded alike from any
    buffer that holds the same bytes at a later place, and a header
    that is decoded from a buffer is decoded alike when more bytes
    follow. *)
Hypothesis shpRecord_local : local (fun b o => shpRecord b o withM).
Hypothesis shpHeader_extends :
  forall (w post : list byte) v, shpHeader w = OK v -> shpHeader (w ++ post) = OK v.

Lemma shp_state_eta (st : SHPTransform.state) :
  SHPMachine.state_of (SHPTransform.buffer st)
    (SHPMachine.registers_of st, SHPTransform.offset st) = st.
Proof. destruct st; reflexivity. Qed.

Lemma shp_loop_machine (fuel : nat) (data : ArrayBuffer) :
  forall st : SHPTransform.state,
    SHPTransform.loop shpHeader shpRecord withM fuel data st
    = map_outcome (SHPMachine.state_of (SHPTransform.buffer st))
        (machine_loop SHPMachine.needed (SHPMachine.round shpHeader shpRecord withM)
           fuel data (SHPMachine.registers_of st) (SHPTransform.offset st)).
Proof.
  induction fuel as [|fuel IH]; intro st; [reflexivity|].
  remember (SHPMachine.round shpHeader shpRecord withM) as rnd eqn:Ernd.
  cbn [SHPTransform.loop machine_loop].
  change (SHPMachine.needed (SHPMachine.registers_of st)) with (SHPTransform.needed st).
  destruct (byteLength data - SHPTransform.offset st <? SHPTransform.needed st).
  { simpl. rewrite shp_state_eta. reflexivity. }
  assert (Hr : rnd (SHPMachine.registers_of st) data (SHPTransform.offset st)
               = SHPMachine.round shpHeader shpRecord withM (SHPMachine.registers_of st)
                   data (SHPTransform.offset st)) by (rewrite Ernd; reflexivity).
  rewrite Hr. clear Hr. unfold SHPMachine.round.
  change (SHPMachine.status (SHPMachine.registers_of st)) with (SHPTransform.status st).
  destruct (SHPTransform.status st =? 0).
  { destruct (shpHeader data) as [[hbbox hfilesize]|e];
      cbn [bind fst snd].
    - rewrite enqueued_nil, IH. cbn [SHPTransform.buffer SHPTransform.offset].
      replace (SHPTransform.offset st + (100 - SHPTransform.offset st)) with 100 by lia.
      reflexivity.
    - simpl. rewrite shp_state_eta. reflexivity. }
  destruct (SHPTransform.status st =? 1).
  { destruct (getInt32 data (SHPTransform.offset st + 4) false) as [words|e];
      cbn [bind].
    - rewrite enqueued_nil, IH. reflexivity.
    - simpl. rewrite shp_state_eta. reflexivity. }
  destruct (SHPTransform.status st =? 2).
  { destruct (shpRecord data (SHPTransform.offset st) withM)
      as [ft|e]; cbn [bind].
    - rewrite IH, map_outcome_enqueued. reflexivity.
    - simpl. rewrite shp_state_eta. reflexivity. }
  simpl. rewrite shp_state_eta. reflexivity.
Qed.

(** On a chunk that owns its buffer [transform] is the step of the
    machine on the bytes of the chunk. *)
Lemma shp_transform_machine (fuel : nat) (chunk : list byte) (st : SHPTransform.state) :
  SHPTransform.transform shpHeader shpRecord withM fuel (own chunk) st
  = map_outcome shp_to_state
      (machine_transform SHPMachine.needed (SHPMachine.round shpHeader shpRecord withM)
         fuel chunk (shp_of_state st)).
Proof.
  unfold SHPTransform.transform, machine_transform, shp_of_state.
  rewrite elements_own. change (chunk_buffer (own chunk)) with chunk.
  destruct (SHPTransform.buffer st) as [b|]; cbv zeta;
    rewrite shp_loop_machine, map_outcome_map_outcome; reflexivity.
Qed.

Lemma shp_feed_machine (fuel : nat) (chunks : list (list byte)) :
  forall st : SHPTransform.state,
    SHPTransform.feed shpHeader shpRecord withM fuel (map own chunks) st
    = map_outcome shp_to_state
        (machine_feed SHPMachine.needed (SHPMachine.round shpHeader shpRecord withM)
           fuel chunks (shp_of_state st)).
Proof.
  induction chunks as [|c cs IH]; intro st; cbn [map SHPTransform.feed machine_feed].
  - simpl. unfold shp_to_state, shp_of_state. simpl. rewrite shp_state_eta. reflexivity.
  - rewrite shp_transform_machine.
    destruct (machine_transform _ _ fuel c (shp_of_state st)) as [ms out|e ms out|];
      simpl; try reflexivity.
    rewrite IH, map_outcome_enqueued.
    replace (shp_of_state (shp_to_state ms)) with ms
      by (destruct ms as [[buf r] off]; destruct r; reflexivity).
    reflexivity.
Qed.

Lemma shp_round_local (r : SHPMachine.registers) :
  shp_anchored r = false -> local (SHPMachine.round shpHeader shpRecord withM r).
Proof.
  unfold shp_anchored, SHPMachine.round. intros ->.
  destruct (SHPMachine.status r =? 1).
  { apply local_map. apply (@getInt32_forward (fun o => o + 4) false). forward_pos. }
  destruct (SHPMachine.status r =? 2); [|apply local_const].
  apply local_map. exact shpRecord_local.
Qed.

Lemma shp_round_anchored (r : SHPMachine.registers) (w : list byte) v (post : list byte) :
  shp_anchored r = true ->
  SHPMachine.round shpHeader shpRecord withM r w 0 = OK v ->
  SHPMachine.round shpHeader shpRecord withM r (w ++ post) 0 = OK v.
Proof.
  unfold shp_anchored, SHPMachine.round. intros -> H.
  apply bind_OK in H as (h & Hh & H).
  rewrite (@shpHeader_extends w post h Hh). exact H.
Qed.

Lemma shp_round_unanchors (r : SHPMachine.registers) (w : list byte)
      (r' : SHPMachine.registers) (adv : Z) (out : list feature) :
  SHPMachine.round shpHeader shpRecord withM r w 0 = OK (r', adv, out) ->
  shp_anchored r' = false.
Proof.
  unfold SHPMachine.round, shp_anchored. intro H.
  destruct (SHPMachine.status r =? 0).
  { apply bind_OK in H as (h & _ & H). injection H as <- _ _. reflexivity. }
  destruct (SHPMachine.status r =? 1).
  { apply bind_OK in H as (h & _ & H). injection H as <- _ _. reflexivity. }
  destruct (SHPMachine.status r =? 2); [|discriminate].
  apply bind_OK in H as (h & _ & H). injection H as <- _ _. reflexivity.
Qed.

(** The result of a whole stream that is accepted, whatever its chunks. *)
Lemma shp_run_decodes (bs : list byte) (r : SHPMachine.registers) (out : list feature)
      (chunks : list (list byte)) (fuel : nat) :
  decodes SHPMachine.needed (SHPMachine.round shpHeader shpRecord withM)
          SHPMachine.init bs r out ->
  concat chunks = bs ->
  (length bs < fuel)%nat ->
  SHPTransform.run shpHeader shpRecord withM fuel (map own chunks)
  = Some (out, SHPMachine.bbox r, shp_flush r).
Proof.
  intros Hdec Hc Hfuel.
  destruct (@machine_feed_any_chunks _ _ SHPMachine.needed
              (SHPMachine.round shpHeader shpRecord withM) shp_anchored
              shp_round_local shp_round_anchored shp_round_unanchors
              SHPMachine.init bs r out chunks fuel Hdec ltac:(simpl; lia) Hc Hfuel)
    as (buf & off & E).
  unfold SHPTransform.run.
  change SHPTransform.init with (shp_to_state (None, SHPMachine.init, 0)).
  rewrite shp_feed_machine.
  replace (shp_of_state (shp_to_state (None, SHPMachine.init, 0)))
    with (@None ArrayBuffer, SHPMachine.init, 0) by reflexivity.
  rewrite E. reflexivity.
Qed.

End SHPInstance.

(** A local reader stays local at a place that is given outright. *)
Lemma local_at {A} (F : ArrayBuffer -> Z -> result A) :
  local (fun b o => F b (o + 0)) ->
  forall (w : list byte) (q : Z) (v : A) (pre post : list byte),
    F w q = OK v -> F (pre ++ w ++ post) (Z.of_nat (length pre) + q) = OK v.
Proof.
  intros HL w q v pre post H. unfold local in HL. specialize (HL w q v).
  cbv beta in HL. rewrite Z.add_0_r in HL. specialize (HL H pre post).
  rewrite Z.add_0_r in HL. exact HL.
Qed.

Section DBFInstance.

Variable decode : list byte -> jsstring.

Lemma dbf_state_eta (st : DBFTransform.state) :
  DBFMachine.state_of (DBFTransform.buffer st)
    (DBFMachine.registers_of st, DBFTransform.offset st) = st.
Proof. destruct st; reflexivity. Qed.

Lemma dbf_loop_machine (fuel : nat) (data : ArrayBuffer) :
  forall st : DBFTransform.state,
    DBFTransform.loop decode fuel data st
    = map_outcome (DBFMachine.state_of (DBFTransform.buffer st))
        (machine_loop DBFMachine.needed (DBFMachine.round decode)
           fuel data (DBFMachine.registers_of st) (DBFTransform.offset st)).
Proof.
  induction fuel as [|fuel IH]; intro st; [reflexivity|].
  remember (DBFMachine.round decode) as rnd eqn:Ernd.
  cbn [DBFTransform.loop machine_loop].
  change (DBFMachine.needed (DBFMachine.registers_of st)) with (DBFTransform.needed st).
  destruct (byteLength data - DBFTransform.offset st <? DBFTransform.needed st).
  { simpl. rewrite dbf_state_eta. reflexivity. }
  assert (Hr : rnd (DBFMachine.registers_of st) data (DBFTransform.offset st)
               = DBFMachine.round decode (DBFMachine.registers_of st)
                   data (DBFTransform.offset st)) by (rewrite Ernd; reflexivity).
  rewrite Hr. clear Hr. unfold DBFMachine.round.
  change (DBFMachine.status (DBFMachine.registers_of st)) with (DBFTransform.status st).
  change (DBFMachine.reclen (DBFMachine.registers_of st)) with (DBFTransform.reclen st).
  change (DBFMachine.fields (DBFMachine.registers_of st)) with (DBFTransform.fields st).
  change (DBFMachine.numrec (DBFMachine.registers_of st)) with (DBFTransform.numrec st).
  change (DBFMachine.needed (DBFMachine.registers_of st)) with (DBFTransform.needed st).
  destruct (DBFTransform.status st =? 0) eqn:E0.
  { destruct (dbfHeader data) as [[hnumrec hreclen]|e]; cbn [bind fst snd].
    - rewrite enqueued_nil, IH. cbn [DBFTransform.buffer DBFTransform.offset].
      replace (DBFTransform.offset st + (32 - DBFTransform.offset st)) with 32 by lia.
      reflexivity.
    - simpl. rewrite dbf_state_eta. reflexivity. }
  destruct (DBFTransform.status st =? 1) eqn:E1.
  { destruct (dbfField decode data (DBFTransform.offset st)) as [[f|]|e]; cbn [bind].
    - rewrite enqueued_nil, IH. apply Z.eqb_eq in E1.
      unfold DBFMachine.registers_of at 1. cbn. rewrite E1. reflexivity.
    - rewrite enqueued_nil, IH. reflexivity.
    - simpl. rewrite dbf_state_eta. reflexivity. }
  destruct (DBFTransform.status st =? 2) eqn:E2.
  { destruct (view data (DBFTransform.offset st) (DBFTransform.reclen st)) as [rec|e];
      cbn [bind]; [|simpl; rewrite dbf_state_eta; reflexivity].
    destruct (getUint8 rec 0) as [flag|e];
      cbn [bind]; [|simpl; rewrite dbf_state_eta; reflexivity].
    destruct (flag =? 42).
    { rewrite enqueued_nil, IH. reflexivity. }
    destruct (negb (flag =? 32)).
    { simpl. rewrite dbf_state_eta. reflexivity. }
    destruct (dbfRecord decode data (DBFTransform.offset st) (DBFTransform.fields st))
      as [v|e]; cbn [bind].
    - rewrite IH, map_outcome_enqueued. reflexivity.
    - simpl. rewrite dbf_state_eta. reflexivity. }
  rewrite enqueued_nil, IH. rewrite Z.add_0_r. reflexivity.
Qed.

(** On a chunk that owns its buffer [transform] is the step of the
    machine on the bytes of the chunk: no byte is left to fill with 0. *)
Lemma dbf_transform_machine (fuel : nat) (chunk : list byte) (st : DBFTransform.state) :
  DBFTransform.transform decode fuel (own chunk) st
  = map_outcome dbf_to_state
      (machine_transform DBFMachine.needed (DBFMachine.round decode)
         fuel chunk (dbf_of_state st)).
Proof.
  unfold DBFTransform.transform, machine_transform, dbf_of_state.
  rewrite elements_own. change (chunk_buffer (own chunk)) with chunk.
  rewrite zero_filled_nil by lia. rewrite app_nil_r.
  destruct (DBFTransform.buffer st) as [b|]; cbv zeta;
    rewrite dbf_loop_machine, map_outcome_map_outcome; reflexivity.
Qed.

Lemma dbf_feed_machine (fuel : nat) (chunks : list (list byte)) :
  forall st : DBFTransform.state,
    DBFTransform.feed decode fuel (map own chunks) st
    = map_outcome dbf_to_state
        (machine_feed DBFMachine.needed (DBFMachine.round decode)
           fuel chunks (dbf_of_state st)).
Proof.
  induction chunks as [|c cs IH]; intro st; cbn [map DBFTransform.feed machine_feed].
  - simpl. unfold dbf_to_state, dbf_of_state. simpl. rewrite dbf_state_eta. reflexivity.
  - rewrite dbf_transform_machine.
    destruct (machine_transform _ _ fuel c (dbf_of_state st)) as [ms out|e ms out|];
      simpl; try reflexivity.
    rewrite IH, map_outcome_enqueued.
    replace (dbf_of_state (dbf_to_state ms)) with ms
      by (destruct ms as [[buf r] off]; destruct r; reflexivity).
    reflexivity.
Qed.

Lemma dbfField_local : local (dbfField decode).
Proof.
  unfold dbfField.
  apply local_bind; [apply (@getUint8_forward (fun o => o)), forward_id | intro b].
  destruct (b =? 13); [apply local_const|].
  apply local_bind; [apply (@view_forward (fun o => o) 11), forward_id | intro raw].
  apply local_bind;
    [apply (@getUint8_forward (fun o => o + 11)); forward_pos | intro t].
  apply local_map. apply (@getUint8_forward (fun o => o + 16)). forward_pos.
Qed.

Lemma view_shift (w : list byte) (q len : Z) (v : list byte) (pre post : list byte) :
  view w q len = OK v ->
  view (pre ++ w ++ post) (Z.of_nat (length pre) + q) len = OK v.
Proof.
  apply (@local_at _ (fun b o => view b o len)).
  apply (@view_forward (fun o => o + 0) len). forward_pos.
Qed.

Lemma dbfRecord_fields_local (fs : list field) :
  forall (pos : Z) (r : object), local (fun b o => dbfRecord_fields decode b o fs pos r).
Proof.
  induction fs as [|f fs IH]; intros pos r w p v H pre post; simpl in *.
  - exact H.
  - apply bind_OK in H as (col & Hcol & H).
    replace (Z.of_nat (length pre) + p + pos + 1)
      with (Z.of_nat (length pre) + (p + pos + 1)) by lia.
    rewrite (view_shift _ _ _ pre post Hcol). simpl bind.
    destruct (column_value decode (type f) col) as [x|e]; [|discriminate].
    simpl in *. apply (IH _ _ _ _ _ H).
Qed.

Lemma dbf_round_local (r : DBFMachine.registers) :
  dbf_anchored r = false -> local (DBFMachine.round decode r).
Proof.
  unfold dbf_anchored, DBFMachine.round. intros ->.
  destruct (DBFMachine.status r =? 1).
  { apply local_bind; [apply dbfField_local | intro field].
    destruct field; apply local_const. }
  destruct (DBFMachine.status r =? 2); [|apply local_const].
  apply local_bind;
    [apply (@view_forward (fun o => o) (DBFMachine.reclen r)), forward_id | intro rec].
  apply local_bind_pure. intros flag _.
  destruct (flag =? 42); [apply local_const|].
  destruct (negb (flag =? 32)); [apply local_const|].
  apply local_map. unfold dbfRecord. apply dbfRecord_fields_local.
Qed.

Lemma dbfHeader_extends (w post : list byte) v :
  dbfHeader w = OK v -> dbfHeader (w ++ post) = OK v.
Proof.
  unfold dbfHeader. intro H.
  apply bind_OK in H as (b0 & H0 & H).
  rewrite (@at_cursor_0 Z (fun b o => getUint8 b o) 0
             (@getUint8_forward (fun o => o + 0) ltac:(forward_pos)) w post b0 H0).
  simpl bind. destruct (negb (Z.land b0 7 =? 3)); [discriminate|].
  apply bind_OK in H as (numrec & Hn & H).
  rewrite (@at_cursor_0 Z (fun b o => getUint32 b o true) 4
             (@local_map _ _ (fun b o => bytes_at b (o + 4) 4) (uint_of true)
                (@bytes_at_forward (fun o => o + 4) 4 ltac:(forward_pos)))
             w post numrec Hn).
  simpl bind.
  apply bind_OK in H as (reclen & Hl & H).
  rewrite (@at_cursor_0 Z (fun b o => getUint16 b o true) 10
             (@local_map _ _ (fun b o => bytes_at b (o + 10) 2) (uint_of true)
                (@bytes_at_forward (fun o => o + 10) 2 ltac:(forward_pos)))
             w post reclen Hl).
  simpl bind.
  apply bind_OK in H as (enc & He & H).
  rewrite (@at_cursor_0 Z (fun b o => getUint8 b o) 15
             (@getUint8_forward (fun o => o + 15) ltac:(forward_pos)) w post enc He).
  exact H.
Qed.

Lemma dbf_round_anchored (r : DBFMachine.registers) (w : list byte) v (post : list byte) :
  dbf_anchored r = true ->
  DBFMachine.round decode r w 0 = OK v ->
  DBFMachine.round decode r (w ++ post) 0 = OK v.
Proof.
  unfold dbf_anchored, DBFMachine.round. intros -> H.
  apply bind_OK in H as (h & Hh & H).
  rewrite (@dbfHeader_extends w post h Hh). exact H.
Qed.

Lemma dbf_round_unanchors (r : DBFMachine.registers) (w : list byte)
      (r' : DBFMachine.registers) (adv : Z) (out : list row) :
  DBFMachine.round decode r w 0 = OK (r', adv, out) ->
  dbf_anchored r' = false.
Proof.
  unfold DBFMachine.round, dbf_anchored. intro H.
  destruct (DBFMachine.status r =? 0) eqn:E0.
  { apply bind_OK in H as (h & _ & H). injection H as <- _ _. reflexivity. }
  destruct (DBFMachine.status r =? 1) eqn:E1.
  { apply bind_OK in H as ([f|] & _ & H); injection H as <- _ _; simpl;
      [exact E0 | reflexivity]. }
  destruct (DBFMachine.status r =? 2) eqn:E2.
  { apply bind_OK in H as (rec & _ & H). apply bind_OK in H as (flag & _ & H).
    destruct (flag =? 42); [injection H as <- _ _; exact E0|].
    destruct (negb (flag =? 32)); [discriminate|].
    apply bind_OK in H as (x & _ & H). injection H as <- _ _. exact E0. }
  injection H as <- _ _. exact E0.
Qed.

Lemma dbf_run_decodes (bs : list byte) (r : DBFMachine.registers) (out : list row)
      (chunks : list (list byte)) (fuel : nat) :
  decodes DBFMachine.needed (DBFMachine.round decode) DBFMachine.init bs r out ->
  concat chunks = bs ->
  (length bs < fuel)%nat ->
  DBFTransform.run decode fuel (map own chunks) = Some (out, dbf_flush r).
Proof.
  intros Hdec Hc Hfuel.
  destruct (@machine_feed_any_chunks _ _ DBFMachine.needed
              (DBFMachine.round decode) dbf_anchored
              dbf_round_local dbf_round_anchored dbf_round_unanchors
              DBFMachine.init bs r out chunks fuel Hdec ltac:(simpl; lia) Hc Hfuel)
    as (buf & off & E).
  unfold DBFTransform.run.
  change DBFTransform.init with (dbf_to_state (None, DBFMachine.init, 0)).
  rewrite dbf_feed_machine.
  replace (dbf_of_state (dbf_to_state (None, DBFMachine.init, 0)))
    with (@None ArrayBuffer, DBFMachine.init, 0) by reflexivity.
  rewrite E. reflexivity.
Qed.

End DBFInstance.

(** ** Chunk boundaries *)

Lemma concat_bytewise (bs : list byte) : concat (bytewise bs) = bs.
Proof. induction bs as [|b bs IH]; simpl; [|rewrite IH]; reflexivity. Qed.

Lemma concat_whole (bs : list byte) : concat [bs] = bs.
Proof. simpl. apply app_nil_r. Qed.

Section WindowedSound.

Variables Reg Out : Type.
Variable wanted : Reg -> Z.
Variable round : Reg -> ArrayBuffer -> Z -> result (Reg * Z * list Out).

Lemma windowed_decodes (fuel : nat) :
  forall (r : Reg) (input : list byte) (rf : Reg) (outs : list Out),
    windowed wanted round fuel r input = Some (rf, outs) ->
    decodes wanted round r input rf outs.
Proof.
  induction fuel as [|fuel IH]; intros r input rf outs H; [discriminate|].
  simpl in H.
  destruct (Z.ltb_spec (byteLength input) (wanted r)) as [Hs|Hl].
  - injection H as <- <-. apply decodes_wait, Hs.
  - destruct (round r (firstn (Z.to_nat (wanted r)) input) 0)
      as [[[r' adv] out]|e] eqn:Er; [|discriminate].
    destruct (Z.ltb_spec 0 adv); [|discriminate].
    destruct (Z.leb_spec adv (wanted r)); [|discriminate]. simpl in H.
    destruct (windowed wanted round fuel r' (skipn (Z.to_nat adv) input))
      as [[rf' outs']|] eqn:Ew; [|discriminate].
    injection H as <- <-.
    eapply decodes_round; eauto.
Qed.

End WindowedSound.

(** C2, at a stream whose two chunks are windows of one buffer, as
    [subarray] makes them.  In one chunk that owns its buffer the sample
    table gives its two rows and no error.  Cut after 50 bytes into two
    windows of the same buffer it gives the two rows from the first
    chunk already, whose [chunk.buffer] is the whole table, and the second
    chunk is then decoded as records: the end mark is taken for a
    deletion flag and the stream ends with 'DBFTransform: format
    error.'. *)
Theorem chunks_that_share_a_buffer :
  let file := own sample_dbf in
  let chunks := [subarray file 0 50; subarray file 50 146] in
  concat (map elements chunks) = sample_dbf
  /\ exists rows,
       length rows = 2%nat
       /\ DBFTransform.run windows1252 20 [file] = Some (rows, None)
       /\ DBFTransform.run windows1252 20 chunks
          = Some (rows, Some (TypeError DBFFormatError)).
Proof.
  split; [vm_compute; reflexivity|].
  destruct (DBFTransform.run windows1252 20 [own sample_dbf]) as [[rows e]|] eqn:E.
  - exists rows. vm_compute in E. injection E as <- <-.
    repeat split; vm_compute; reflexivity.
  - vm_compute in E. discriminate.
Qed.

(** A record header that gives -4 words for the length of its content
    sends the cursor back to where it is: the loop reads the same record
    header again and again, enqueues a feature each time and never
    returns. *)
Lemma shp_loop_never_returns
      (shpHeader : ArrayBuffer -> result (BBox * Z))
      (shpRecord : ArrayBuffer -> Z -> bool -> result feature) (withM : bool)
      (data : ArrayBuffer) (o : Z) (ft : feature)
      (buf : option ArrayBuffer) (b : option BBox) :
  8 <= byteLength data - o ->
  getInt32 data (o + 4) false = OK (- 4) ->
  shpRecord data (o + 8) withM = OK ft ->
  forall (fuel : nat) (F : Z),
    SHPTransform.loop shpHeader shpRecord withM fuel data
                      (SHPTransform.mkState buf o 8 1 F b) = OutOfFuel
    /\ SHPTransform.loop shpHeader shpRecord withM fuel data
                         (SHPTransform.mkState buf (o + 8) (- 4 * 2) 2 (F - 8) b)
       = OutOfFuel.
Proof.
  intros Hlen Hw Hr. induction fuel as [|fuel IH]; intro F; [split; reflexivity|].
  destruct (IH F) as [IH1 IH2]. split.
  - cbn [SHPTransform.loop SHPTransform.offset SHPTransform.needed SHPTransform.status
         SHPTransform.filesize SHPTransform.bbox SHPTransform.buffer].
    destruct (Z.ltb_spec (byteLength data - o) 8); [lia|].
    change (1 =? 0) with false. change (1 =? 1) with true. cbv iota.
    rewrite Hw. exact IH2.
  - cbn [SHPTransform.loop SHPTransform.offset SHPTransform.needed SHPTransform.status
         SHPTransform.filesize SHPTransform.bbox SHPTransform.buffer].
    destruct (Z.ltb_spec (byteLength data - (o + 8)) (- 4 * 2)); [lia|].
    change (2 =? 0) with false. change (2 =? 1) with false. change (2 =? 2) with true.
    cbv iota. rewrite Hr.
    replace (o + 8 + - 4 * 2) with o by lia.
    replace (F - 8 - - 4 * 2) with F by lia.
    rewrite IH1. reflexivity.
Qed.

(** C5, at a stream that is cut inside its header, and at a stream that
    the decoder never leaves.  The first 60 bytes of a stream declare a
    file of 264 bytes; the decoder consumes none of them, and [flush]
    throws nothing: the counter [filesize] is 0 until the header has been
    parsed.  The two decoders are not called.  On the second stream,
    whose one record header gives -4 words for the length of the
    content, the loop of [transform] does not end, with [parseHeader] and
    [parseRecord] for the two decoders: no amount of steps brings the
    stream to [flush]. *)
Theorem header_cut_ends_silently
        (shpHeader : ArrayBuffer -> result (BBox * Z))
        (shpRecord : ArrayBuffer -> Z -> bool -> result feature) (withM : bool) :
  let cut := firstn 60 (sample_shp 132) in
  shp_declared cut = 264
  /\ SHPTransform.run shpHeader shpRecord withM 5 [own cut] = Some ([], None, None)
  /\ SHPTransform.run shpHeader shpRecord withM 5 (map own (bytewise cut))
     = Some ([], None, None)
  /\ (forall fuel,
        SHPTransform.run sample_shpHeader sample_shpRecord false fuel [own looping_shp]
        = None).
Proof.
  split; [vm_compute; reflexivity|]. split; [vm_compute; reflexivity|].
  split; [vm_compute; reflexivity|].
  intro fuel. unfold SHPTransform.run.
  cbn [SHPTransform.feed SHPTransform.transform SHPTransform.init SHPTransform.buffer
       own chunk_buffer SHPTransform.offset SHPTransform.needed SHPTransform.status
       SHPTransform.filesize SHPTransform.bbox].
  destruct fuel as [|fuel]; [reflexivity|].
  cbn [SHPTransform.loop SHPTransform.offset SHPTransform.needed SHPTransform.status
       SHPTransform.filesize SHPTransform.bbox SHPTransform.buffer].
  change (byteLength looping_shp - 0 <? 100) with false.
  change (0 =? 0) with true. cbv iota.
  destruct (sample_shpHeader looping_shp) as [[hbbox hfilesize]|e] eqn:Eh;
    [|vm_compute in Eh; discriminate].
  assert (H1 : 8 <= byteLength looping_shp - 100) by (vm_compute; discriminate).
  assert (H2 : getInt32 looping_shp (100 + 4) false = OK (- 4))
    by (vm_compute; reflexivity).
  assert (H3 : sample_shpRecord looping_shp (100 + 8) false
               = OK (mkFeature None None None)) by (vm_compute; reflexivity).
  pose proof (proj1 (@shp_loop_never_returns sample_shpHeader sample_shpRecord false
                       looping_shp 100 (mkFeature None None None)
                       (Some looping_shp) (Some hbbox) H1 H2 H3
                       fuel (hfilesize - 100))) as H.
  match goal with
  | |- match match ?x with _ => _ end with _ => _ end = None =>
      change x with (SHPTransform.loop sample_shpHeader sample_shpRecord false fuel
                       looping_shp
                       (SHPTransform.mkState (Some looping_shp) 100 8 1
                                             (hfilesize - 100) (Some hbbox)));
      rewrite H
  end.
  reflexivity.
Qed.

(** C7, at a small table.  22 bytes follow the field descriptor: the
    terminator, a deleted record, a second record and the end mark.  The
    decoder waits for 32 bytes before it looks at what follows a
    descriptor, so it never sees the terminator: the deleted record is
    not counted, the record after it is not enqueued, and a second record
    with the flag [?] raises no format error; [flush] reports the two
    records that remained. *)
Theorem small_table_rows_are_lost :
  byteLength (small_dbf " "%string) = 86
  /\ DBFTransform.run windows1252 20 [own (small_dbf " "%string)]
     = Some ([], Some (TypeError (RecordsRemained 2)))
  /\ DBFTransform.run windows1252 20 [own (small_dbf "?"%string)]
     = Some ([], Some (TypeError (RecordsRemained 2))).
Proof.
  repeat split; vm_compute; reflexivity.
Qed.

(** X1. With chunks that own their buffer the result of a stream that is
    accepted (every round of the decoder succeeds on exactly the bytes it
    asks for) does not depend on the chunks: the same bytes in one chunk,
    one byte per chunk, or cut in any other way give the same records,
    the same [bbox] and the same end of the stream.  The two decoders
    that [SHPTransform] imports are asked to read a record where it lies
    and a header from the front of the buffer. *)
Theorem owned_chunks_do_not_matter
        (shpHeader : ArrayBuffer -> result (BBox * Z))
        (shpRecord : ArrayBuffer -> Z -> bool -> result feature) (withM : bool)
        (decode : list byte -> jsstring)
        (shp dbf : list byte) (shp_chunks dbf_chunks : list (list byte))
        (fuel : nat) :
  local (fun b o => shpRecord b o withM) ->
  (forall (w post : list byte) v, shpHeader w = OK v -> shpHeader (w ++ post) = OK v) ->
  SHPMachine.accepts shpHeader shpRecord withM shp ->
  DBFMachine.accepts decode dbf ->
  concat shp_chunks = shp ->
  concat dbf_chunks = dbf ->
  (length shp < fuel)%nat ->
  (length dbf < fuel)%nat ->
  (exists features bbox ending,
      SHPTransform.run shpHeader shpRecord withM fuel [own shp]
      = Some (features, bbox, ending)
      /\ SHPTransform.run shpHeader shpRecord withM fuel (map own (bytewise shp))
         = Some (features, bbox, ending)
      /\ SHPTransform.run shpHeader shpRecord withM fuel (map own shp_chunks)
         = Some (features, bbox, ending))
  /\ (exists rows ending,
         DBFTransform.run decode fuel [own dbf] = Some (rows, ending)
         /\ DBFTransform.run decode fuel (map own (bytewise dbf)) = Some (rows, ending)
         /\ DBFTransform.run decode fuel (map own dbf_chunks) = Some (rows, ending)).
Proof.
  intros Hlocal Hext (r & out & Hshp) (r' & out' & Hdbf) Hc Hc' Hfuel Hfuel'. split.
  - exists out, (SHPMachine.bbox r), (shp_flush r).
    repeat split;
      [ apply (@shp_run_decodes shpHeader shpRecord withM Hlocal Hext shp r out [shp] fuel)
      | apply (@shp_run_decodes shpHeader shpRecord withM Hlocal Hext shp r out
                 (bytewise shp) fuel)
      | apply (@shp_run_decodes shpHeader shpRecord withM Hlocal Hext shp r out
                 shp_chunks fuel) ];
      auto using concat_whole, concat_bytewise.
  - exists out', (dbf_flush r').
    repeat split;
      [ apply (@dbf_run_decodes decode dbf r' out' [dbf] fuel)
      | apply (@dbf_run_decodes decode dbf r' out' (bytewise dbf) fuel)
      | apply (@dbf_run_decodes decode dbf r' out' dbf_chunks fuel) ];
      auto using concat_whole, concat_bytewise.
Qed.

Lemma owned_chunks_do_not_matter_witness :
  let shp := sample_shp 132 in
  let dbf := sample_dbf in
  (SHPTransform.run sample_shpHeader sample_shpRecord false 300 (map own (bytewise shp))
   = SHPTransform.run sample_shpHeader sample_shpRecord false 300 [own shp]
   /\ SHPTransform.run sample_shpHeader sample_shpRecord false 300
        (map own [firstn 107 shp; skipn 107 shp])
      = SHPTransform.run sample_shpHeader sample_shpRecord false 300 [own shp])
  /\ (DBFTransform.run windows1252 300 (map own (bytewise dbf))
      = DBFTransform.run windows1252 300 [own dbf]
      /\ DBFTransform.run windows1252 300 (map own [firstn 40 dbf; skipn 40 dbf])
         = DBFTransform.run windows1252 300 [own dbf]).
Proof.
  intros shp dbf.
  assert (Hshp : SHPMachine.accepts sample_shpHeader sample_shpRecord false shp).
  { destruct (windowed SHPMachine.needed
                (SHPMachine.round sample_shpHeader sample_shpRecord false)
                10 SHPMachine.init shp) as [[r out]|] eqn:E.
    - exists r, out. apply (windowed_decodes _ _ _ _ _ E).
    - vm_compute in E. discriminate. }
  assert (Hdbf : DBFMachine.accepts windows1252 dbf).
  { destruct (windowed DBFMachine.needed (DBFMachine.round windows1252)
                       10 DBFMachine.init dbf) as [[r out]|] eqn:E.
    - exists r, out. apply (windowed_decodes _ _ _ _ _ E).
    - vm_compute in E. discriminate. }
  destruct (@owned_chunks_do_not_matter sample_shpHeader sample_shpRecord false
              windows1252 shp dbf [firstn 107 shp; skipn 107 shp]
              [firstn 40 dbf; skipn 40 dbf] 300
              (@parseRecord_local binary64 identity)
              (@parseHeader_extends binary64 identity)
              Hshp Hdbf)
    as [(fs & bb & e & E1 & E2 & E3) (rows & e' & E4 & E5 & E6)];
    try (vm_compute; reflexivity); try (vm_compute; lia).
  rewrite E1, E2, E3, E4, E5, E6. repeat split.
Defined.

(** * Further properties of the code *)

(** ** Areas, boxes and crossing numbers ([common.js]) *)

(** The body of the loop of [bbox_of]. *)
Lemma bbox_of_fold (line : list point) (b : BBox) :
  let step := fun (b : BBox) (p : point) =>
                mkBBox (if Qlt_bool (px p) (bw b) then px p else bw b)
                       (if Qlt_bool (py p) (bs b) then py p else bs b)
                       (if Qlt_bool (be b) (px p) then px p else be b)
                       (if Qlt_bool (bn b) (py p) then py p else bn b) in
  let r := fold_left step line b in
  ((bw r <= bw b)%Q /\ (bs r <= bs b)%Q /\ (be b <= be r)%Q /\ (bn b <= bn r)%Q)
  /\ (forall p, In p line ->
        (bw r <= px p)%Q /\ (px p <= be r)%Q /\ (bs r <= py p)%Q /\ (py p <= bn r)%Q)
  /\ ((bw r == bw b)%Q \/ exists p, In p line /\ (px p == bw r)%Q)
  /\ ((bs r == bs b)%Q \/ exists p, In p line /\ (py p == bs r)%Q)
  /\ ((be r == be b)%Q \/ exists p, In p line /\ (px p == be r)%Q)
  /\ ((bn r == bn b)%Q \/ exists p, In p line /\ (py p == bn r)%Q).
Proof.
  intros step. revert b. induction line as [|q line IH]; intros b r.
  - subst r. simpl. repeat split; try lra; try (intros p []); left; lra.
  - subst r. simpl fold_left.
    specialize (IH (step b q)). cbv zeta in IH.
    set (r := fold_left step line (step b q)) in *.
    destruct IH as ((Hw & Hs & He & Hn) & Hin & Aw & As & Ae & An).
    assert (Sw : (bw (step b q) <= bw b)%Q /\ (bw (step b q) <= px q)%Q
                 /\ ((bw (step b q) == bw b)%Q \/ bw (step b q) = px q)).
    { unfold step; simpl. destruct (Qlt_bool (px q) (bw b)) eqn:E.
      - apply Qlt_bool_iff in E. repeat split; try lra; right; reflexivity.
      - assert (~ (px q < bw b)%Q) by (rewrite <- Qlt_bool_iff; congruence).
        repeat split; try lra; left; lra. }
    assert (Ss : (bs (step b q) <= bs b)%Q /\ (bs (step b q) <= py q)%Q
                 /\ ((bs (step b q) == bs b)%Q \/ bs (step b q) = py q)).
    { unfold step; simpl. destruct (Qlt_bool (py q) (bs b)) eqn:E.
      - apply Qlt_bool_iff in E. repeat split; try lra; right; reflexivity.
      - assert (~ (py q < bs b)%Q) by (rewrite <- Qlt_bool_iff; congruence).
        repeat split; try lra; left; lra. }
    assert (Se : (be b <= be (step b q))%Q /\ (px q <= be (step b q))%Q
                 /\ ((be (step b q) == be b)%Q \/ be (step b q) = px q)).
    { unfold step; simpl. destruct (Qlt_bool (be b) (px q)) eqn:E.
      - apply Qlt_bool_iff in E. repeat split; try lra; right; reflexivity.
      - assert (~ (be b < px q)%Q) by (rewrite <- Qlt_bool_iff; congruence).
        repeat split; try lra; left; lra. }
    assert (Sn : (bn b <= bn (step b q))%Q /\ (py q <= bn (step b q))%Q
                 /\ ((bn (step b q) == bn b)%Q \/ bn (step b q) = py q)).
    { unfold step; simpl. destruct (Qlt_bool (bn b) (py q)) eqn:E.
      - apply Qlt_bool_iff in E. repeat split; try lra; right; reflexivity.
      - assert (~ (bn b < py q)%Q) by (rewrite <- Qlt_bool_iff; congruence).
        repeat split; try lra; left; lra. }
    destruct Sw as (Sw1 & Sw2 & Sw3), Ss as (Ss1 & Ss2 & Ss3),
             Se as (Se1 & Se2 & Se3), Sn as (Sn1 & Sn2 & Sn3).
    split; [repeat split; lra|].
    split.
    { intros p [<-|Hp]; [repeat split; lra | apply Hin; exact Hp]. }
    repeat split.
    + destruct Aw as [Aw|(p & Hp & Ep)]; [|right; exists p; split; [right|]; assumption].
      destruct Sw3 as [Sw3|Sw3]; [left; lra|].
      right. exists q. split; [left; reflexivity|]. rewrite Aw, Sw3. reflexivity.
    + destruct As as [As|(p & Hp & Ep)]; [|right; exists p; split; [right|]; assumption].
      destruct Ss3 as [Ss3|Ss3]; [left; lra|].
      right. exists q. split; [left; reflexivity|]. rewrite As, Ss3. reflexivity.
    + destruct Ae as [Ae|(p & Hp & Ep)]; [|right; exists p; split; [right|]; assumption].
      destruct Se3 as [Se3|Se3]; [left; lra|].
      right. exists q. split; [left; reflexivity|]. rewrite Ae, Se3. reflexivity.
    + destruct An as [An|(p & Hp & Ep)]; [|right; exists p; split; [right|]; assumption].
      destruct Sn3 as [Sn3|Sn3]; [left; lra|].
      right. exists q. split; [left; reflexivity|]. rewrite An, Sn3. reflexivity.
Qed.

(** X3. For a line that is not empty and whose coordinates are safe integers
    at most in absolute value, every side of the box of [bbox_of] passes
    through a point of the line: the box is the smallest one. *)
Theorem bbox_of_tight (line : list point) :
  line <> [] -> within_safe line ->
  (exists p, In p line /\ (px p == bw (bbox_of line))%Q)
  /\ (exists p, In p line /\ (py p == bs (bbox_of line))%Q)
  /\ (exists p, In p line /\ (px p == be (bbox_of line))%Q)
  /\ (exists p, In p line /\ (py p == bn (bbox_of line))%Q).
Proof.
  intros Hne Hsafe. unfold bbox_of.
  destruct (bbox_of_fold line
              (mkBBox MAX_SAFE_INTEGER MAX_SAFE_INTEGER
                      (- MAX_SAFE_INTEGER) (- MAX_SAFE_INTEGER)))
    as (_ & Hin & Aw & As & Ae & An).
  cbv zeta in *.
  set (r := fold_left _ line _) in *.
  destruct line as [|q line]; [congruence|].
  assert (Hq : In q (q :: line)) by (left; reflexivity).
  destruct (Hin q Hq) as (H1 & H2 & H3 & H4).
  apply Forall_inv in Hsafe. destruct Hsafe as [(X1 & X2) (Y1 & Y2)].
  simpl bw in Aw. simpl bs in As. simpl be in Ae. simpl bn in An.
  repeat split.
  - destruct Aw as [Aw|Aw]; [|exact Aw]. exists q. split; [exact Hq | lra].
  - destruct As as [As|As]; [|exact As]. exists q. split; [exact Hq | lra].
  - destruct Ae as [Ae|Ae]; [|exact Ae]. exists q. split; [exact Hq | lra].
  - destruct An as [An|An]; [|exact An]. exists q. split; [exact Hq | lra].
Qed.

Lemma bbox_of_tight_witness :
  let line := [(0, 5); (2, 3); (-1, 4)]%Q in
  (exists p, In p line /\ (px p == bw (bbox_of line))%Q)
  /\ (exists p, In p line /\ (py p == bs (bbox_of line))%Q)
  /\ (exists p, In p line /\ (px p == be (bbox_of line))%Q)
  /\ (exists p, In p line /\ (py p == bn (bbox_of line))%Q).
Proof.
  intro line. apply (@bbox_of_tight line).
  - discriminate.
  - repeat constructor; vm_compute; discriminate.
Defined.

(** The comparisons behind a conjunction of [bbox_contains]. *)
Ltac inside_boxes :=
  repeat match goal with
         | H : _ && _ = true |- _ => apply andb_true_iff in H; destruct H
         | H : Qle_bool _ _ = true |- _ => apply Qle_bool_iff in H
         end.

(** X4. A point lies in the box of [bbox_intersection] exactly when it lies in
    both boxes; when the function returns [null], no point lies in both. *)
Theorem bbox_intersection_contains (b1 b2 : BBox) (p : point) :
  match bbox_intersection b1 b2 with
  | Some bb => bbox_contains bb p = bbox_contains b1 p && bbox_contains b2 p
  | None => bbox_contains b1 p && bbox_contains b2 p = false
  end.
Proof.
  unfold bbox_intersection.
  destruct (Qlt_bool (be b1) (bw b2)) eqn:E1; simpl orb.
  { apply Qlt_bool_iff in E1.
    destruct (bbox_contains b1 p && bbox_contains b2 p) eqn:E; [|reflexivity].
    unfold bbox_contains in E. inside_boxes. lra. }
  destruct (Qlt_bool (be b2) (bw b1)) eqn:E2; simpl orb.
  { apply Qlt_bool_iff in E2.
    destruct (bbox_contains b1 p && bbox_contains b2 p) eqn:E; [|reflexivity].
    unfold bbox_contains in E. inside_boxes. lra. }
  destruct (Qlt_bool (bn b2) (bs b1)) eqn:E3; simpl orb.
  { apply Qlt_bool_iff in E3.
    destruct (bbox_contains b1 p && bbox_contains b2 p) eqn:E; [|reflexivity].
    unfold bbox_contains in E. inside_boxes. lra. }
  destruct (Qlt_bool (bn b1) (bs b2)) eqn:E4.
  { apply Qlt_bool_iff in E4.
    destruct (bbox_contains b1 p && bbox_contains b2 p) eqn:E; [|reflexivity].
    unfold bbox_contains in E. inside_boxes. lra. }
  apply eq_true_iff_eq. unfold bbox_contains. simpl bw. simpl bs. simpl be. simpl bn.
  rewrite !andb_true_iff, !Qle_bool_iff.
  generalize (Q.max_lub_iff (bw b1) (bw b2) (px p)).
  generalize (Q.max_lub_iff (bs b1) (bs b2) (py p)).
  generalize (Q.min_glb_iff (be b1) (be b2) (px p)).
  generalize (Q.min_glb_iff (bn b1) (bn b2) (py p)).
  tauto.
Qed.








(** ** What [parseRecord] returns and what it throws *)

(** The reads of [parseRecord] throw nothing but the [RangeError] of a
    [DataView] or of [Array]. *)
Lemma bytes_at_range b pos n : throws_only (eq RangeError) (bytes_at b pos n).
Proof. unfold bytes_at. throws. Qed.
#[local] Hint Resolve bytes_at_range : throws.

Lemma getInt32_range b pos le : throws_only (eq RangeError) (getInt32 b pos le).
Proof. unfold getInt32. throws. Qed.
#[local] Hint Resolve getInt32_range : throws.

Lemma Array_range n : throws_only (eq RangeError) (Array_ n).
Proof. unfold Array_. throws. Qed.
#[local] Hint Resolve Array_range : throws.

Section RecordReads.

Variable float64 : list byte -> Q.
Variable project : point -> point.

Lemma read_point_range b pos :
  throws_only (eq RangeError) (read_point float64 project b pos).
Proof. unfold read_point, getFloat64. throws. Qed.
Hint Resolve read_point_range : throws.

Lemma parseBBox_range b off :
  throws_only (eq RangeError) (parseBBox float64 project b off).
Proof. unfold parseBBox. throws. Qed.

Lemma read_parts_range n : forall b pos,
  throws_only (eq RangeError) (read_parts b pos n).
Proof. induction n; intros; simpl; throws. Qed.

Lemma read_points_range n : forall b pos,
  throws_only (eq RangeError) (read_points float64 project b pos n).
Proof. induction n; intros; simpl; throws. Qed.

End RecordReads.

Ltac kinds :=
  unfold implemented, feature_of_type; simpl;
  repeat split; try discriminate; try lia.

Section Records.

Variable float64 : list byte -> Q.
Variable project : point -> point.

(** X11. When [parseRecord] returns, the shape type is one of 0, 1, 3, 5 and
    8, and the feature has the geometry of that type: none for the null
    shape, a point, lines, a polygon or points; [bbox] is present except
    on null shapes and points, and [properties] is [null]. *)
Theorem parseRecord_dispatch (bytes : ArrayBuffer) (offset : Z) (ft : feature) :
  parseRecord float64 project bytes offset = OK ft ->
  exists type, getInt32 bytes offset true = OK type
               /\ implemented type /\ feature_of_type type ft.
Proof.
  unfold parseRecord.
  destruct (getInt32 bytes offset true) as [type|e0] eqn:Et; cbn [bind];
    [|discriminate].
  intro H. exists type. split; [reflexivity|].
  destruct (Z.eqb_spec type 0) as [->|N0].
  { injection H as <-. kinds. }
  destruct (Z.eqb_spec type 1) as [->|N1].
  { destruct (read_point _ _ _ _); [|discriminate]. injection H as <-. kinds. }
  destruct (Z.eqb_spec type 3) as [->|N3]; cbn [orb] in H.
  { repeat match type of H with
           | bind ?m _ = _ => destruct m; cbn [bind] in H; [|discriminate]
           end.
    injection H as <-. destruct (_ =? 1); kinds. }
  destruct (Z.eqb_spec type 5) as [->|N5]; cbn [orb] in H.
  { repeat match type of H with
           | bind ?m _ = _ => destruct m eqn:?; cbn [bind] in H; [|discriminate]
           end.
    injection H as <-.
    match goal with E : polygon_geometry _ = OK ?g |- _ =>
      unfold polygon_geometry in E;
      repeat match type of E with
             | bind ?m _ = _ => destruct m; cbn [bind] in E; [|discriminate]
             | (if ?c then _ else _) = _ => destruct c; [discriminate|]
             end
    end.
    match goal with E : (if ?c then _ else _) = OK _ |- _ =>
      destruct c; injection E as <- end; kinds. }
  destruct (Z.eqb_spec type 8) as [->|N8]; [|discriminate].
  repeat match type of H with
         | bind ?m _ = _ => destruct m; cbn [bind] in H; [|discriminate]
         end.
  injection H as <-. kinds.
Qed.

End Records.

Lemma parseRecord_dispatch_witness :
  exists type, getInt32 sample_point_record 8 true = OK type
               /\ implemented type
               /\ feature_of_type type (mkFeature None (Some (Point (1, 2)%Q)) None).
Proof.
  apply (@parseRecord_dispatch binary64 identity sample_point_record 8).
  vm_compute. reflexivity.
Defined.

(** ** The lines of a record *)

Lemma climbs_le (parts : list Z) : forall lo hi, climbs lo parts hi -> lo <= hi.
Proof.
  induction parts as [|p parts IH]; intros lo hi H; simpl in H; [exact H|].
  destruct H as [H1 H2]. apply IH in H2. lia.
Qed.

Lemma array_slice_inside {A} (l : list A) (i0 i1 : Z) :
  0 <= i0 <= i1 -> i1 <= Z.of_nat (length l) ->
  array_slice l i0 i1 = firstn (Z.to_nat (i1 - i0)) (skipn (Z.to_nat i0) l).
Proof.
  intros H0 H1. unfold array_slice.
  destruct (Z.ltb_spec i0 0); [lia|]. destruct (Z.ltb_spec i1 0); [lia|].
  rewrite !Z.min_l by lia. reflexivity.
Qed.

Lemma slice_parts_from (points : list point) (rest : list Z) :
  forall i0, 0 <= i0 -> climbs i0 rest (Z.of_nat (length points)) ->
             concat (slice_parts points (Z.of_nat (length points)) (i0 :: rest))
             = skipn (Z.to_nat i0) points.
Proof.
  induction rest as [|i1 rest IH]; intros i0 H0 Hc.
  - simpl in Hc. simpl. rewrite app_nil_r.
    rewrite array_slice_inside by lia.
    apply firstn_all2. rewrite length_skipn. lia.
  - destruct Hc as [H01 Hc]. pose proof (climbs_le _ _ _ Hc) as H1.
    change (concat (slice_parts points (Z.of_nat (length points)) (i0 :: i1 :: rest)))
      with (array_slice points i0 i1
            ++ concat (slice_parts points (Z.of_nat (length points)) (i1 :: rest))).
    rewrite IH by (try lia; exact Hc).
    rewrite array_slice_inside by lia.
    replace (Z.to_nat i1) with (Z.to_nat (i1 - i0) + Z.to_nat i0)%nat by lia.
    rewrite <- skipn_skipn. apply firstn_skipn.
Qed.

(** X12. For a record whose part index starts at 0 and climbs up to the
    number of points, the lines that [parseRecord] cuts out of the points
    are one per part and, put end to end, give the points back: every
    point is on one line, in the order of the record. *)
Theorem lines_partition_points (points : list point) (rest : list Z) :
  climbs 0 rest (Z.of_nat (length points)) ->
  let lines := slice_parts points (Z.of_nat (length points)) (0 :: rest) in
  concat lines = points /\ length lines = S (length rest).
Proof.
  intros Hc lines. split.
  - unfold lines. rewrite slice_parts_from by (try lia; exact Hc). reflexivity.
  - unfold lines. clear Hc lines. generalize 0 as i0.
    induction rest as [|i1 rest IH]; intro i0; [reflexivity|].
    change (length (slice_parts points (Z.of_nat (length points)) (i0 :: i1 :: rest)))
      with (S (length (slice_parts points (Z.of_nat (length points)) (i1 :: rest)))).
    rewrite IH. reflexivity.
Qed.

Lemma lines_partition_points_witness :
  let points := square_cw 0 4 ++ square_ccw 1 2 in
  let lines := slice_parts points 10 [0; 5] in
  concat lines = points /\ length lines = 2%nat.
Proof.
  intro points. apply (@lines_partition_points points [5]). simpl. lia.
Defined.

(** ** Chunk boundaries and a round that throws *)

Lemma enqueued_Threw {S O} (out : list O) (o : outcome S O) (e : error) (st : S)
      (out' : list O) :
  o = Threw e st out' -> enqueued out o = Threw e st (out ++ out').
Proof. intros ->. reflexivity. Qed.

Section MachineBreaks.

Variables Reg Out : Type.
Variable wanted : Reg -> Z.
Variable round : Reg -> ArrayBuffer -> Z -> result (Reg * Z * list Out).
Variable anchored : Reg -> bool.

Hypothesis round_local : forall r, anchored r = false -> local (round r).
Hypothesis round_anchored :
  forall r w v post,
    anchored r = true -> round r w 0 = OK v -> round r (w ++ post) 0 = OK v.
Hypothesis round_unanchors :
  forall r w r' adv out, round r w 0 = OK (r', adv, out) -> anchored r' = false.

Lemma throws_on_buffer (r : Reg) (data : ArrayBuffer) (off : Z) (e : error) :
  0 <= off <= byteLength data ->
  wanted r <= byteLength data - off ->
  (anchored r = true -> off = 0) ->
  throws_on round anchored r
            (firstn (Z.to_nat (wanted r)) (skipn (Z.to_nat off) data)) e ->
  round r data off = Throw e.
Proof.
  intros Hoff Hlen Hanch H.
  set (pre := firstn (Z.to_nat off) data).
  set (w := firstn (Z.to_nat (wanted r)) (skipn (Z.to_nat off) data)) in *.
  set (post := skipn (Z.to_nat (wanted r)) (skipn (Z.to_nat off) data)).
  assert (Edata : data = pre ++ w ++ post).
  { unfold pre, w, post. rewrite !firstn_skipn. reflexivity. }
  assert (Epre : Z.of_nat (length pre) = off).
  { unfold pre, byteLength in *. rewrite length_firstn. lia. }
  rewrite Edata at 1. rewrite <- Epre. apply H.
  intro Ha. specialize (Hanch Ha).
  destruct pre; [reflexivity | simpl in Epre; lia].
Qed.

Lemma machine_loop_breaks (r : Reg) (input : list byte) (rf : Reg) (outs : list Out)
      (e : error) :
  breaks wanted round anchored r input rf outs e ->
  forall (data : ArrayBuffer) (off : Z) (rest : list byte) (fuel : nat),
    0 <= off <= byteLength data ->
    input = skipn (Z.to_nat off) data ++ rest ->
    (anchored r = true -> off = 0) ->
    (Z.to_nat (byteLength data - off) < fuel)%nat ->
    (exists off1, machine_loop wanted round fuel data r off = Threw e (rf, off1) outs)
    \/ (exists r1 off1 out1 out2,
           machine_loop wanted round fuel data r off = Returned (r1, off1) out1
           /\ outs = out1 ++ out2
           /\ breaks wanted round anchored r1
                     (skipn (Z.to_nat off1) data ++ rest) rf out2 e
           /\ byteLength data - off1 < wanted r1
           /\ 0 <= off1 <= byteLength data
           /\ (anchored r1 = true -> off1 = 0)).
Proof.
  induction 1 as [r input e Hlong Hthrow
                 | r input r' adv out rf out' e Hlong Hround Hadv Hrest IH];
    intros data off rest fuel Hoff Hin Hanch Hfuel;
    (destruct fuel as [|fuel]; [lia|]); simpl.
  - assert (Hlen : byteLength (skipn (Z.to_nat off) data) = byteLength data - off).
    { unfold byteLength in *. rewrite length_skipn. lia. }
    destruct (Z.ltb_spec (byteLength data - off) (wanted r)) as [Hwait|Hgo].
    + right. exists r, off, [], []. repeat split; try assumption; try lia.
      rewrite <- Hin. apply breaks_here; assumption.
    + left. exists off.
      assert (Ewin : firstn (Z.to_nat (wanted r)) input
                     = firstn (Z.to_nat (wanted r)) (skipn (Z.to_nat off) data)).
      { rewrite Hin. apply firstn_app_inside. unfold byteLength in *. lia. }
      rewrite Ewin in Hthrow.
      rewrite (@throws_on_buffer r data off e Hoff Hgo Hanch Hthrow). reflexivity.
  - assert (Hlen : byteLength (skipn (Z.to_nat off) data) = byteLength data - off).
    { unfold byteLength in *. rewrite length_skipn. lia. }
    destruct (Z.ltb_spec (byteLength data - off) (wanted r)) as [Hwait|Hgo].
    + right. exists r, off, [], (out ++ out'). repeat split; try assumption; try lia.
      rewrite <- Hin. eapply breaks_later; eassumption.
    + assert (Ewin : firstn (Z.to_nat (wanted r)) input
                     = firstn (Z.to_nat (wanted r)) (skipn (Z.to_nat off) data)).
      { rewrite Hin. apply firstn_app_inside. unfold byteLength in *. lia. }
      rewrite Ewin in Hround.
      rewrite (@round_on_buffer _ _ wanted round anchored round_local round_anchored
                 r data off _ Hoff Hgo Hanch Hround).
      destruct (IH data (off + adv) rest fuel)
        as [(off1 & E)|(r1 & off1 & out1 & out2 & E & Ho & Hd & Hw & Hb & Ha)].
      * lia.
      * rewrite Hin. rewrite skipn_app_inside by (unfold byteLength in *; lia).
        f_equal. rewrite skipn_skipn. f_equal. lia.
      * intro Ha. rewrite (round_unanchors Hround) in Ha. discriminate.
      * lia.
      * left. exists off1. apply enqueued_Threw, E.
      * right. exists r1, off1, (out ++ out1), out2.
        split; [apply enqueued_Returned, E|].
        split; [rewrite Ho; apply app_assoc|]. auto.
Qed.

Lemma machine_feed_breaks (chunks : list (list byte)) :
  forall (buf : option ArrayBuffer) (r : Reg) (off : Z) (rf : Reg)
         (outs : list Out) (e : error) (fuel : nat),
    match buf with
    | None => off = 0
    | Some b => 0 <= off <= byteLength b
    end ->
    breaks wanted round anchored r (live buf off ++ concat chunks) rf outs e ->
    byteLength (live buf off) < wanted r ->
    (anchored r = true -> off = 0) ->
    (byteLength (live buf off ++ concat chunks) < Z.of_nat fuel) ->
    exists buf' off',
      machine_feed wanted round fuel chunks (buf, r, off)
      = Threw e (buf', rf, off') outs.
Proof.
  induction chunks as [|c cs IH];
    intros buf r off rf outs e fuel Hbuf Hbr Hshort Hanch Hfuel.
  - simpl in Hbr. rewrite app_nil_r in Hbr. exfalso.
    inversion Hbr; subst; lia.
  - simpl concat in *. cbn [machine_feed].
    rewrite (@machine_transform_live _ _ wanted round fuel c buf r off Hbuf).
    set (data := live buf off ++ c).
    assert (Hlen : byteLength (live buf off ++ c ++ concat cs)
                   = byteLength data + byteLength (concat cs)).
    { unfold data, byteLength. rewrite !length_app. lia. }
    assert (Hd0 : 0 <= byteLength data) by (unfold byteLength; lia).
    assert (Hc0 : 0 <= byteLength (concat cs)) by (unfold byteLength; lia).
    destruct (@machine_loop_breaks r _ rf outs e Hbr data 0 (concat cs) fuel)
      as [(off1 & E)|(r1 & off1 & out1 & out2 & E & Ho & Hd & Hw & Hb & Ha)].
    + lia.
    + simpl. unfold data. rewrite app_assoc. reflexivity.
    + auto.
    + lia.
    + rewrite E. simpl. eexists _, _. reflexivity.
    + rewrite E. simpl map_outcome.
      destruct (IH (Some data) r1 off1 rf out2 e fuel) as (buf' & off' & E').
      * exact Hb.
      * exact Hd.
      * unfold live, byteLength in *. rewrite length_skipn. lia.
      * exact Ha.
      * unfold live, byteLength in *. rewrite length_app, length_skipn in *. lia.
      * exists buf', off'. rewrite Ho. apply enqueued_Threw, E'.
Qed.

(** Whatever the chunks a stream comes in, the machine throws where the
    rounds on the whole input throw, after the same values. *)
Lemma machine_feed_breaks_any_chunks (r0 : Reg) (input : list byte) (rf : Reg)
      (outs : list Out) (e : error) (chunks : list (list byte)) (fuel : nat) :
  breaks wanted round anchored r0 input rf outs e ->
  0 < wanted r0 ->
  concat chunks = input ->
  (length input < fuel)%nat ->
  exists buf off,
    machine_feed wanted round fuel chunks (None, r0, 0) = Threw e (buf, rf, off) outs.
Proof.
  intros Hbr Hw Hc Hfuel.
  apply machine_feed_breaks; simpl live; simpl app.
  - reflexivity.
  - rewrite Hc. exact Hbr.
  - unfold byteLength. simpl. lia.
  - reflexivity.
  - rewrite Hc. unfold byteLength. lia.
Qed.

End MachineBreaks.

(** ** Whole geometry streams *)

Lemma getInt32_whole (w : list byte) (pos : Z) (le : bool) :
  0 <= pos -> pos + 4 <= byteLength w ->
  getInt32 w pos le = OK (to_int32 (uint_of le (firstn 4 (skipn (Z.to_nat pos) w)))).
Proof.
  intros H0 H1. unfold getInt32. rewrite bytes_at_inside by lia. reflexivity.
Qed.

Lemma byteLength_app (a b : list byte) :
  byteLength (a ++ b) = byteLength a + byteLength b.
Proof. unfold byteLength. rewrite length_app. lia. Qed.

Lemma byteLength_frames_cons (rc : list byte * list byte)
      (records : list (list byte * list byte)) :
  byteLength (frames (rc :: records))
  = byteLength (fst rc) + byteLength (snd rc) + byteLength (frames records).
Proof. unfold frames. simpl. rewrite !byteLength_app. lia. Qed.

Section SHPStreams.

Variable shpHeader : ArrayBuffer -> result (BBox * Z).
Variable shpRecord : ArrayBuffer -> Z -> bool -> result feature.
Variable withM : bool.

Hypothesis shpRecord_local : local (fun b o => shpRecord b o withM).
Hypothesis shpHeader_front : reads_front shpHeader.

Lemma shp_run_breaks (bs : list byte) (r : SHPMachine.registers) (out : list feature)
      (e : error) (chunks : list (list byte)) (fuel : nat) :
  breaks SHPMachine.needed (SHPMachine.round shpHeader shpRecord withM) shp_anchored
         SHPMachine.init bs r out e ->
  concat chunks = bs ->
  (length bs < fuel)%nat ->
  SHPTransform.run shpHeader shpRecord withM fuel (map own chunks)
  = Some (out, SHPMachine.bbox r, Some e).
Proof.
  intros Hbr Hc Hfuel.
  destruct (@machine_feed_breaks_any_chunks _ _ SHPMachine.needed
              (SHPMachine.round shpHeader shpRecord withM) shp_anchored
              (@shp_round_local shpHeader shpRecord withM shpRecord_local)
              (@shp_round_anchored shpHeader shpRecord withM shpHeader_front)
              (@shp_round_unanchors shpHeader shpRecord withM)
              SHPMachine.init bs r out e chunks fuel Hbr ltac:(simpl; lia) Hc Hfuel)
    as (buf & off & E).
  unfold SHPTransform.run.
  change SHPTransform.init with (shp_to_state (None, SHPMachine.init, 0)).
  rewrite shp_feed_machine.
  replace (shp_of_state (shp_to_state (None, SHPMachine.init, 0)))
    with (@None ArrayBuffer, SHPMachine.init, 0) by reflexivity.
  rewrite E. reflexivity.
Qed.

(** The rounds on well-framed input, for any property of the rest of
    the run that a round carries backwards. *)
Section Steps.

Variable P : SHPMachine.registers -> list byte -> list feature -> Prop.

Hypothesis P_round :
  forall r input r' adv out out',
    SHPMachine.needed r <= byteLength input ->
    SHPMachine.round shpHeader shpRecord withM r
                     (firstn (Z.to_nat (SHPMachine.needed r)) input) 0
    = OK (r', adv, out) ->
    0 < adv <= SHPMachine.needed r ->
    P r' (skipn (Z.to_nat adv) input) out' ->
    P r input (out ++ out').

Lemma shp_header_step (header rest : list byte) (hbbox : BBox) (declared : Z)
      (out : list feature) :
  length header = 100%nat ->
  shpHeader header = OK (hbbox, declared) ->
  P (SHPMachine.mkRegisters 8 1 (declared - 100) (Some hbbox)) rest out ->
  P SHPMachine.init (header ++ rest) out.
Proof.
  intros Hlen Hh HP.
  change out with ([] ++ out).
  apply (@P_round SHPMachine.init (header ++ rest)
           (SHPMachine.mkRegisters 8 1 (declared - 100) (Some hbbox)) 100 [] out).
  - simpl. rewrite byteLength_app. unfold byteLength. lia.
  - simpl SHPMachine.needed. change (Z.to_nat 100) with 100%nat.
    rewrite firstn_app_inside by lia. rewrite firstn_all2 by lia.
    unfold SHPMachine.round. simpl SHPMachine.status. simpl Z.eqb. cbv iota.
    rewrite Hh. reflexivity.
  - simpl. lia.
  - change (Z.to_nat 100) with 100%nat.
    rewrite skipn_app_inside by lia. rewrite skipn_all2 by lia. exact HP.
Qed.

Lemma shp_record_step (h c rest : list byte) (ft : feature) (fs : Z)
      (bb : option BBox) (out : list feature) :
  framed (h, c) ->
  shpRecord c 0 withM = OK ft ->
  P (SHPMachine.mkRegisters 8 1 (fs - 8 - byteLength c) bb) rest out ->
  P (SHPMachine.mkRegisters 8 1 fs bb) ((h ++ c) ++ rest) (ft :: out).
Proof.
  intros (Hh & Hw & Hc) Hft HP. simpl fst in *. simpl snd in *.
  rewrite <- app_assoc.
  change (ft :: out) with ([] ++ [ft] ++ out).
  apply (@P_round (SHPMachine.mkRegisters 8 1 fs bb) (h ++ c ++ rest)
           (SHPMachine.mkRegisters (record_words h * 2) 2 (fs - 8) bb) 8
           [] ([ft] ++ out)).
  - simpl. rewrite byteLength_app. unfold byteLength. lia.
  - simpl SHPMachine.needed. change (Z.to_nat 8) with 8%nat.
    rewrite firstn_app_inside by lia. rewrite firstn_all2 by lia.
    unfold SHPMachine.round. simpl SHPMachine.status. simpl Z.eqb. cbv iota.
    rewrite getInt32_whole; [| lia | unfold byteLength; lia].
    reflexivity.
  - simpl. lia.
  - change (Z.to_nat 8) with 8%nat.
    rewrite skipn_app_inside by lia. rewrite skipn_all2 by lia. simpl app.
    apply (@P_round (SHPMachine.mkRegisters (record_words h * 2) 2 (fs - 8) bb)
             (c ++ rest)
             (SHPMachine.mkRegisters 8 1 (fs - 8 - byteLength c) bb)
             (byteLength c) [ft] out).
    + simpl. rewrite byteLength_app. unfold byteLength in *. lia.
    + simpl SHPMachine.needed. rewrite Hw.
      unfold byteLength. rewrite Nat2Z.id.
      rewrite firstn_app_inside by lia. rewrite firstn_all.
      unfold SHPMachine.round. simpl SHPMachine.status. simpl Z.eqb. cbv iota.
      rewrite Hft. cbn [bind].
      reflexivity.
    + simpl SHPMachine.needed. lia.
    + unfold byteLength. rewrite Nat2Z.id.
      rewrite skipn_app_inside by lia. rewrite skipn_all. exact HP.
Qed.

Lemma shp_records_steps (records : list (list byte * list byte))
      (fts : list feature) :
  Forall framed records ->
  Forall2 (fun rc ft => shpRecord (snd rc) 0 withM = OK ft) records fts ->
  forall (fs : Z) (bb : option BBox) (rest : list byte) (out : list feature),
    P (SHPMachine.mkRegisters 8 1 (fs - byteLength (frames records)) bb) rest out ->
    P (SHPMachine.mkRegisters 8 1 fs bb) (frames records ++ rest) (fts ++ out).
Proof.
  intros Hf H2. induction H2 as [|[h c] ft records fts Hft H2 IH];
    intros fs bb rest out HP.
  - unfold frames in *. simpl in *.
    replace (fs - byteLength []) with fs in HP by (unfold byteLength; simpl; lia).
    exact HP.
  - inversion Hf as [|? ? Hhc Hf']; subst.
    change (frames ((h, c) :: records)) with ((h ++ c) ++ frames records).
    rewrite <- app_assoc. simpl app.
    apply shp_record_step; [exact Hhc | exact Hft |].
    apply IH; [exact Hf'|].
    rewrite byteLength_frames_cons in HP. simpl fst in HP. simpl snd in HP.
    destruct Hhc as (Hh & _). simpl in Hh.
    replace (fs - 8 - byteLength c - byteLength (frames records))
      with (fs - (byteLength h + byteLength c + byteLength (frames records)))
      by (unfold byteLength; lia).
    exact HP.
Qed.

End Steps.

End SHPStreams.

(** ** Exceptions that do not depend on the rest of the buffer *)

Lemma steady_of_local {A} (f : ArrayBuffer -> Z -> result A) :
  local f -> (forall w p, throws_only (eq RangeError) (f w p)) -> steady f.
Proof.
  intros Hl Ht w p r E Hr pre post. destruct r as [v|e].
  - apply Hl, E.
  - exfalso. apply Hr. f_equal. symmetry. apply (Ht w p e E).
Qed.

Lemma steady_bind {A B} (f : ArrayBuffer -> Z -> result A)
      (g : A -> ArrayBuffer -> Z -> result B) :
  steady f -> (forall a, steady (g a)) ->
  steady (fun b o => let* a := f b o in g a b o).
Proof.
  intros Hf Hg w p r E Hr pre post. cbv beta in *.
  destruct (f w p) as [a|e] eqn:Ef; cbn [bind] in E.
  - rewrite (Hf w p (OK a) Ef ltac:(discriminate)). cbn [bind].
    apply (Hg a w p r E Hr).
  - subst r. rewrite (Hf w p (Throw e) Ef).
    + reflexivity.
    + intro H. apply Hr. injection H as ->. reflexivity.
Qed.

Lemma steady_bind_pure {A B} (m : result A) (g : A -> ArrayBuffer -> Z -> result B) :
  (forall a, m = OK a -> steady (g a)) ->
  steady (fun b o => let* a := m in g a b o).
Proof.
  intros Hg w p r E Hr pre post. cbv beta in *.
  destruct m as [a|e]; cbn [bind] in *; [|exact E].
  apply (Hg a eq_refl w p r E Hr).
Qed.

Lemma steady_const {A} (r : result A) : steady (fun _ _ => r).
Proof. intros w p r' E Hr pre post. exact E. Qed.

Section SteadySHP.

Variable float64 : list byte -> Q.
Variable project : point -> point.

Lemma getInt32_steady (g : Z -> Z) (le : bool) :
  forward g -> steady (fun b o => getInt32 b (g o) le).
Proof.
  intro H. apply steady_of_local; [apply getInt32_forward, H|].
  intros w p. apply getInt32_range.
Qed.

Lemma read_point_steady (g : Z -> Z) :
  forward g -> steady (fun b o => read_point float64 project b (g o)).
Proof.
  intro H. apply steady_of_local; [apply read_point_forward, H|].
  intros w p. apply read_point_range.
Qed.

Lemma parseBBox_steady (g : Z -> Z) :
  forward g -> steady (fun b o => parseBBox float64 project b (g o)).
Proof.
  intro H. apply steady_of_local; [apply parseBBox_forward, H|].
  intros w p. apply parseBBox_range.
Qed.

Lemma read_parts_steady (n : nat) (g : Z -> Z) :
  forward g -> steady (fun b o => read_parts b (g o) n).
Proof.
  intro H. apply steady_of_local; [apply read_parts_forward, H|].
  intros w p. apply read_parts_range.
Qed.

Lemma read_points_steady (n : nat) (g : Z -> Z) :
  forward g -> steady (fun b o => read_points float64 project b (g o) n).
Proof.
  intro H. apply steady_of_local; [apply read_points_forward, H|].
  intros w p. apply read_points_range.
Qed.

(** An exception of [parseRecord] other than a [RangeError] is thrown
    on every buffer that holds the bytes of the record. *)
Lemma parseRecord_steady : steady (parseRecord float64 project).
Proof.
  unfold parseRecord.
  apply steady_bind; [apply (@getInt32_steady (fun o => o) true), forward_id | intro type].
  destruct (type =? 0); [apply steady_const|].
  destruct (type =? 1).
  { apply steady_bind;
      [apply (@read_point_steady (fun o => o + 4)); forward_pos | intro pt].
    apply steady_const. }
  destruct ((type =? 3) || (type =? 5)).
  { apply steady_bind;
      [apply (@parseBBox_steady (fun o => o + 4)); forward_pos | intro bbox].
    apply steady_bind;
      [apply (@getInt32_steady (fun o => o + 36) true); forward_pos | intro nparts].
    apply steady_bind;
      [apply (@getInt32_steady (fun o => o + 40) true); forward_pos | intro npoints].
    apply steady_bind_pure. intros np Hnp.
    apply steady_bind_pure. intros nq _.
    assert (Hpos : 0 <= nparts).
    { unfold Array_ in Hnp. destruct (Z.ltb_spec nparts 0); [discriminate | lia]. }
    apply steady_bind;
      [apply (@read_parts_steady np (fun o => o + 44)); forward_pos | intro parts].
    apply steady_bind;
      [apply (@read_points_steady nq (fun o => o + 44 + 4 * nparts)); forward_pos
      | intro points].
    destruct (type =? 3); apply steady_const. }
  destruct (type =? 8); [|apply steady_const].
  apply steady_bind;
    [apply (@parseBBox_steady (fun o => o + 4)); forward_pos | intro bbox].
  apply steady_bind;
    [apply (@getInt32_steady (fun o => o + 36) true); forward_pos | intro num].
  apply steady_bind_pure. intros n _.
  apply steady_bind;
    [apply (@read_points_steady n (fun o => o + 40)); forward_pos | intro points].
  apply steady_const.
Qed.

End SteadySHP.

Lemma local_of_steady {A} (f : ArrayBuffer -> Z -> result A) : steady f -> local f.
Proof.
  intros H w p v E pre post. apply (H w p (OK v) E). discriminate.
Qed.

Section SHPStreamTheorems.

Variable shpHeader : ArrayBuffer -> result (BBox * Z).
Variable shpRecord : ArrayBuffer -> Z -> bool -> result feature.
Variable withM : bool.

Lemma shp_record_header_step
      (P : SHPMachine.registers -> list byte -> list feature -> Prop)
      (P_round :
         forall r input r' adv out out',
           SHPMachine.needed r <= byteLength input ->
           SHPMachine.round shpHeader shpRecord withM r
                            (firstn (Z.to_nat (SHPMachine.needed r)) input) 0
           = OK (r', adv, out) ->
           0 < adv <= SHPMachine.needed r ->
           P r' (skipn (Z.to_nat adv) input) out' ->
           P r input (out ++ out'))
      (h rest : list byte) (fs : Z) (bb : option BBox) (out : list feature) :
  length h = 8%nat ->
  P (SHPMachine.mkRegisters (record_words h * 2) 2 (fs - 8) bb) rest out ->
  P (SHPMachine.mkRegisters 8 1 fs bb) (h ++ rest) out.
Proof.
  intros Hh HP. change out with ([] ++ out).
  apply (@P_round (SHPMachine.mkRegisters 8 1 fs bb) (h ++ rest)
           (SHPMachine.mkRegisters (record_words h * 2) 2 (fs - 8) bb) 8 [] out).
  - simpl. rewrite byteLength_app. unfold byteLength. lia.
  - simpl SHPMachine.needed. change (Z.to_nat 8) with 8%nat.
    rewrite firstn_app_inside by lia. rewrite firstn_all2 by lia.
    unfold SHPMachine.round. simpl SHPMachine.status. simpl Z.eqb. cbv iota.
    rewrite getInt32_whole; [| lia | unfold byteLength; lia].
    reflexivity.
  - simpl. lia.
  - change (Z.to_nat 8) with 8%nat.
    rewrite skipn_app_inside by lia. rewrite skipn_all2 by lia. exact HP.
Qed.

(** X13. A geometry stream of a header and whole records, in chunks that own
    their buffer, whatever the cuts: one feature per record, in the
    order of the records, each decoded from the content of its record
    alone; the bounding box of the header; and at the end the
    truncation error exactly when the length that the header declares
    is not the length of the header and the records.  The two decoders
    that the transform imports are asked to read a header at the front
    of the buffer and a record where it lies. *)
Theorem shp_stream_of_records
        (header : list byte) (records : list (list byte * list byte))
        (tail : list byte) (fts : list feature) (hbbox : BBox) (declared : Z)
        (chunks : list (list byte)) (fuel : nat) :
  reads_front shpHeader ->
  local (fun b o => shpRecord b o withM) ->
  length header = 100%nat ->
  shpHeader header = OK (hbbox, declared) ->
  Forall framed records ->
  Forall2 (fun rc ft => shpRecord (snd rc) 0 withM = OK ft) records fts ->
  (length tail < 8)%nat ->
  concat chunks = header ++ frames records ++ tail ->
  (length (concat chunks) < fuel)%nat ->
  SHPTransform.run shpHeader shpRecord withM fuel (map own chunks)
  = Some (fts, Some hbbox, truncation (declared - 100 - byteLength (frames records))).
Proof.
  intros Hfront Hlocal Hlen Hh Hf H2 Htail Hc Hfuel.
  set (rf := SHPMachine.mkRegisters 8 1 (declared - 100 - byteLength (frames records))
                                    (Some hbbox)).
  change (Some (fts, Some hbbox,
                truncation (declared - 100 - byteLength (frames records))))
    with (Some (fts, SHPMachine.bbox rf, shp_flush rf)).
  apply (@shp_run_decodes shpHeader shpRecord withM Hlocal Hfront (concat chunks)); auto.
  rewrite Hc.
  set (P := fun r input out =>
              decodes SHPMachine.needed (SHPMachine.round shpHeader shpRecord withM)
                      r input rf out).
  assert (P_round : forall r input r' adv out out',
             SHPMachine.needed r <= byteLength input ->
             SHPMachine.round shpHeader shpRecord withM r
                              (firstn (Z.to_nat (SHPMachine.needed r)) input) 0
             = OK (r', adv, out) ->
             0 < adv <= SHPMachine.needed r ->
             P r' (skipn (Z.to_nat adv) input) out' ->
             P r input (out ++ out')).
  { intros. eapply decodes_round; eassumption. }
  apply (@shp_header_step shpHeader shpRecord withM P P_round header _ hbbox declared fts
           Hlen Hh).
  rewrite <- (app_nil_r fts).
  apply (@shp_records_steps shpHeader shpRecord withM P P_round records fts Hf H2).
  apply decodes_wait. unfold byteLength. simpl. lia.
Qed.

(** X15. A stream in which the record decoder refuses a record with a
    [TypeError], on the bytes of the record wherever they lie: the
    features of the records before it are enqueued, then the stream
    ends with that exception, whatever the cuts between the chunks,
    which own their buffer, and whatever follows the record. *)
Theorem shp_stream_breaks_at_record
        (header : list byte) (records : list (list byte * list byte))
        (bad : list byte * list byte) (rest : list byte)
        (fts : list feature) (hbbox : BBox) (declared : Z) (m : message)
        (chunks : list (list byte)) (fuel : nat) :
  reads_front shpHeader ->
  steady (fun b o => shpRecord b o withM) ->
  length header = 100%nat ->
  shpHeader header = OK (hbbox, declared) ->
  Forall framed records ->
  Forall2 (fun rc ft => shpRecord (snd rc) 0 withM = OK ft) records fts ->
  framed bad ->
  shpRecord (snd bad) 0 withM = Throw (TypeError m) ->
  concat chunks = header ++ frames records ++ (fst bad ++ snd bad) ++ rest ->
  (length (concat chunks) < fuel)%nat ->
  SHPTransform.run shpHeader shpRecord withM fuel (map own chunks)
  = Some (fts, Some hbbox, Some (TypeError m)).
Proof.
  intros Hfront Hsteady Hlen Hh Hf H2 Hbad Hm Hc Hfuel.
  pose proof (local_of_steady Hsteady) as Hlocal.
  destruct bad as [h c]. destruct Hbad as (Hh8 & Hw & Hc0).
  simpl fst in *. simpl snd in *.
  set (rf := SHPMachine.mkRegisters (record_words h * 2) 2
               (declared - 100 - byteLength (frames records) - 8) (Some hbbox)).
  change (Some hbbox) with (SHPMachine.bbox rf) at 1.
  apply (@shp_run_breaks shpHeader shpRecord withM Hlocal Hfront (concat chunks)); auto.
  rewrite Hc.
  set (P := fun r input out =>
              breaks SHPMachine.needed (SHPMachine.round shpHeader shpRecord withM)
                     shp_anchored r input rf out (TypeError m)).
  assert (P_round : forall r input r' adv out out',
             SHPMachine.needed r <= byteLength input ->
             SHPMachine.round shpHeader shpRecord withM r
                              (firstn (Z.to_nat (SHPMachine.needed r)) input) 0
             = OK (r', adv, out) ->
             0 < adv <= SHPMachine.needed r ->
             P r' (skipn (Z.to_nat adv) input) out' ->
             P r input (out ++ out')).
  { intros. eapply breaks_later; eassumption. }
  apply (@shp_header_step shpHeader shpRecord withM P P_round header _ hbbox declared fts
           Hlen Hh).
  rewrite <- (app_nil_r fts).
  apply (@shp_records_steps shpHeader shpRecord withM P P_round records fts Hf H2).
  rewrite <- app_assoc.
  apply (@shp_record_header_step P P_round h (c ++ rest) _ (Some hbbox) [] Hh8).
  apply breaks_here.
  - simpl SHPMachine.needed. rewrite byteLength_app. unfold byteLength in *. lia.
  - simpl SHPMachine.needed. rewrite Hw. unfold byteLength. rewrite Nat2Z.id.
    rewrite firstn_app_inside by lia. rewrite firstn_all.
    intros pre post _.
    unfold SHPMachine.round. simpl SHPMachine.status. simpl Z.eqb. cbv iota.
    pose proof (Hsteady c 0 _ Hm ltac:(discriminate) pre post) as E.
    cbv beta in E. rewrite Z.add_0_r in E. rewrite E. reflexivity.
Qed.

End SHPStreamTheorems.

Lemma shp_stream_of_records_witness :
  SHPTransform.run sample_shpHeader sample_shpRecord false 300
                   (map own (bytewise (sample_shp 132)))
  = Some ([mkFeature None (Some (Point (1, 2)%Q)) None;
           mkFeature (Some (mkBBox 0 0 4 4)) (Some (Polygon [rev (square_cw 0 4)])) None],
          Some (mkBBox 0 0 4 4), None).
Proof.
  change (@None error)
    with (truncation (264 - 100 - byteLength (frames sample_records))).
  apply (@shp_stream_of_records sample_shpHeader sample_shpRecord false
           (sample_shp_header 132) sample_records []).
  - exact (@parseHeader_extends binary64 identity).
  - exact (@parseRecord_local binary64 identity).
  - reflexivity.
  - vm_compute. reflexivity.
  - repeat constructor; vm_compute; try reflexivity; discriminate.
  - repeat constructor; vm_compute; reflexivity.
  - simpl. lia.
  - vm_compute. reflexivity.
  - vm_compute. lia.
Defined.

Lemma shp_stream_breaks_at_record_witness :
  SHPTransform.run sample_shpHeader sample_shpRecord false 300
    (map own (bytewise (sample_shp_header 132 ++ sample_point_record
                        ++ (be32 3 ++ be32 2 ++ le32 15) ++ sample_polygon_record)))
  = Some ([mkFeature None (Some (Point (1, 2)%Q)) None],
          Some (mkBBox 0 0 4 4), Some (TypeError (RecordTypeNotImplemented 15))).
Proof.
  apply (@shp_stream_breaks_at_record sample_shpHeader sample_shpRecord false
           (sample_shp_header 132)
           [(firstn 8 sample_point_record, skipn 8 sample_point_record)]
           sample_polygonz_record sample_polygon_record
           _ _ 264 (RecordTypeNotImplemented 15)).
  - exact (@parseHeader_extends binary64 identity).
  - exact (@parseRecord_steady binary64 identity).
  - reflexivity.
  - vm_compute. reflexivity.
  - repeat constructor; vm_compute; try reflexivity; discriminate.
  - repeat constructor; vm_compute; reflexivity.
  - repeat split; vm_compute; try reflexivity; discriminate.
  - vm_compute. reflexivity.
  - vm_compute. reflexivity.
  - vm_compute. lia.
Defined.

(** ** Whole attribute streams *)

Lemma view_all (w : list byte) : view w 0 (byteLength w) = OK w.
Proof.
  unfold view, byteLength. destruct (Z.ltb_spec (Z.of_nat (length w)) 0); [lia|].
  rewrite bytes_at_inside by (unfold byteLength; lia).
  rewrite Nat2Z.id. simpl. rewrite firstn_all. reflexivity.
Qed.

Section DBFStreams.

Variable decode : list byte -> jsstring.

Lemma dbf_run_breaks (bs : list byte) (r : DBFMachine.registers) (out : list row)
      (e : error) (chunks : list (list byte)) (fuel : nat) :
  breaks DBFMachine.needed (DBFMachine.round decode) dbf_anchored
         DBFMachine.init bs r out e ->
  concat chunks = bs ->
  (length bs < fuel)%nat ->
  DBFTransform.run decode fuel (map own chunks) = Some (out, Some e).
Proof.
  intros Hbr Hc Hfuel.
  destruct (@machine_feed_breaks_any_chunks _ _ DBFMachine.needed
              (DBFMachine.round decode) dbf_anchored
              (@dbf_round_local decode) (@dbf_round_anchored decode)
              (@dbf_round_unanchors decode)
              DBFMachine.init bs r out e chunks fuel Hbr ltac:(simpl; lia) Hc Hfuel)
    as (buf & off & E).
  unfold DBFTransform.run.
  change DBFTransform.init with (dbf_to_state (None, DBFMachine.init, 0)).
  rewrite dbf_feed_machine.
  replace (dbf_of_state (dbf_to_state (None, DBFMachine.init, 0)))
    with (@None ArrayBuffer, DBFMachine.init, 0) by reflexivity.
  rewrite E. reflexivity.
Qed.

Section Steps.

Variable P : DBFMachine.registers -> list byte -> list row -> Prop.

Hypothesis P_round :
  forall r input r' adv out out',
    DBFMachine.needed r <= byteLength input ->
    DBFMachine.round decode r (firstn (Z.to_nat (DBFMachine.needed r)) input) 0
    = OK (r', adv, out) ->
    0 < adv <= DBFMachine.needed r ->
    P r' (skipn (Z.to_nat adv) input) out' ->
    P r input (out ++ out').

Lemma dbf_header_step (hdr rest : list byte) (numrec reclen : Z) (out : list row) :
  length hdr = 32%nat ->
  dbfHeader hdr = OK (numrec, reclen) ->
  P (DBFMachine.mkRegisters 32 1 numrec reclen []) rest out ->
  P DBFMachine.init (hdr ++ rest) out.
Proof.
  intros Hlen Hh HP. change out with ([] ++ out).
  apply (@P_round DBFMachine.init (hdr ++ rest)
           (DBFMachine.mkRegisters 32 1 numrec reclen []) 32 [] out).
  - simpl. rewrite byteLength_app. unfold byteLength. lia.
  - simpl DBFMachine.needed. change (Z.to_nat 32) with 32%nat.
    rewrite firstn_app_inside by lia. rewrite firstn_all2 by lia.
    unfold DBFMachine.round. simpl DBFMachine.status. simpl Z.eqb. cbv iota.
    rewrite Hh. reflexivity.
  - simpl. lia.
  - change (Z.to_nat 32) with 32%nat.
    rewrite skipn_app_inside by lia. rewrite skipn_all2 by lia. exact HP.
Qed.

Lemma dbf_descriptor_step (d rest : list byte) (f : field) (n L : Z)
      (fs : list field) (out : list row) :
  length d = 32%nat ->
  dbfField decode d 0 = OK (Some f) ->
  P (DBFMachine.mkRegisters 32 1 n L (fs ++ [f])) rest out ->
  P (DBFMachine.mkRegisters 32 1 n L fs) (d ++ rest) out.
Proof.
  intros Hlen Hd HP. change out with ([] ++ out).
  apply (@P_round (DBFMachine.mkRegisters 32 1 n L fs) (d ++ rest)
           (DBFMachine.mkRegisters 32 1 n L (fs ++ [f])) 32 [] out).
  - simpl. rewrite byteLength_app. unfold byteLength. lia.
  - simpl DBFMachine.needed. change (Z.to_nat 32) with 32%nat.
    rewrite firstn_app_inside by lia. rewrite firstn_all2 by lia.
    unfold DBFMachine.round. simpl DBFMachine.status. simpl Z.eqb. cbv iota.
    rewrite Hd. reflexivity.
  - simpl. lia.
  - change (Z.to_nat 32) with 32%nat.
    rewrite skipn_app_inside by lia. rewrite skipn_all2 by lia. exact HP.
Qed.

Lemma dbf_descriptors_steps (descs : list (list byte)) (fs' : list field) :
  Forall2 (fun d f => length d = 32%nat /\ dbfField decode d 0 = OK (Some f))
          descs fs' ->
  forall (n L : Z) (fs : list field) (rest : list byte) (out : list row),
    P (DBFMachine.mkRegisters 32 1 n L (fs ++ fs')) rest out ->
    P (DBFMachine.mkRegisters 32 1 n L fs) (concat descs ++ rest) out.
Proof.
  induction 1 as [|d f descs fs' [Hlen Hd] H2 IH]; intros n L fs rest out HP.
  - simpl. rewrite app_nil_r in HP. exact HP.
  - simpl concat. rewrite <- app_assoc.
    apply (@dbf_descriptor_step d (concat descs ++ rest) f n L fs out Hlen Hd).
    apply IH. rewrite <- app_assoc. exact HP.
Qed.

Lemma dbf_terminator_step (rest : list byte) (n L : Z) (fs : list field)
      (out : list row) :
  (31 <= length rest)%nat ->
  P (DBFMachine.mkRegisters L 2 n L fs) rest out ->
  P (DBFMachine.mkRegisters 32 1 n L fs) (x0d :: rest) out.
Proof.
  intros Hlen HP. change out with ([] ++ out).
  apply (@P_round (DBFMachine.mkRegisters 32 1 n L fs) (x0d :: rest)
           (DBFMachine.mkRegisters L 2 n L fs) 1 [] out).
  - simpl. unfold byteLength. simpl length. lia.
  - simpl DBFMachine.needed. change (Z.to_nat 32) with 32%nat.
    unfold DBFMachine.round. simpl DBFMachine.status. simpl Z.eqb. cbv iota.
    unfold dbfField.
    change (firstn 32 (x0d :: rest)) with (x0d :: firstn 31 rest).
    rewrite (@getUint8_at (x0d :: firstn 31 rest) 0)
      by (unfold byteLength; simpl length; lia).
    reflexivity.
  - simpl. lia.
  - exact HP.
Qed.

Lemma dbf_record_step (r rest : list byte) (n L : Z) (fs : list field)
      (out : list row) :
  byteLength r = L -> 0 < L ->
  match rows_result decode fs [r] with
  | (rows, None) =>
      P (DBFMachine.mkRegisters L 2 (n - 1) L fs) rest out ->
      P (DBFMachine.mkRegisters L 2 n L fs) (r ++ rest) (rows ++ out)
  | (_, Some _) => True
  end.
Proof.
  intros Hr HL. simpl rows_result. unfold deleted.
  assert (Hwin : firstn (Z.to_nat L) (r ++ rest) = r).
  { subst L. unfold byteLength. rewrite Nat2Z.id.
    rewrite firstn_app_inside by lia. apply firstn_all. }
  assert (Hskip : skipn (Z.to_nat L) (r ++ rest) = rest).
  { subst L. unfold byteLength. rewrite Nat2Z.id.
    rewrite skipn_app_inside by lia. rewrite skipn_all. reflexivity. }
  assert (Hview : view r 0 L = OK r) by (subst L; apply view_all).
  assert (Hflag : getUint8 r 0 = OK (flag r)).
  { rewrite (@getUint8_at r 0) by lia. reflexivity. }
  assert (Hlong : DBFMachine.needed (DBFMachine.mkRegisters L 2 n L fs)
                  <= byteLength (r ++ rest)).
  { simpl. rewrite byteLength_app. unfold byteLength in *. lia. }
  destruct (Z.eqb_spec (flag r) 42) as [E42|N42].
  - intro HP. change ([] ++ out) with ([] ++ out).
    apply (@P_round (DBFMachine.mkRegisters L 2 n L fs) (r ++ rest)
             (DBFMachine.mkRegisters L 2 (n - 1) L fs) L [] out Hlong).
    + simpl DBFMachine.needed. rewrite Hwin.
      unfold DBFMachine.round. simpl DBFMachine.status. simpl Z.eqb. cbv iota.
      simpl DBFMachine.reclen. rewrite Hview. cbn [bind]. rewrite Hflag. cbn [bind].
      rewrite E42. reflexivity.
    + simpl. lia.
    + rewrite Hskip. exact HP.
  - destruct (Z.eqb_spec (flag r) 32) as [E32|N32]; simpl negb; cbv iota; [|exact I].
    destruct (dbfRecord decode r 0 fs) as [v|e] eqn:Ev; [|exact I].
    intro HP. change ((v :: []) ++ out) with ([v] ++ out).
    apply (@P_round (DBFMachine.mkRegisters L 2 n L fs) (r ++ rest)
             (DBFMachine.mkRegisters L 2 (n - 1) L fs) L [v] out Hlong).
    + simpl DBFMachine.needed. rewrite Hwin.
      unfold DBFMachine.round. simpl DBFMachine.status. simpl Z.eqb. cbv iota.
      simpl DBFMachine.reclen. rewrite Hview. cbn [bind]. rewrite Hflag. cbn [bind].
      destruct (Z.eqb_spec (flag r) 42); [contradiction|].
      rewrite E32. simpl Z.eqb. simpl negb. cbv iota.
      simpl DBFMachine.fields. rewrite Ev. reflexivity.
    + simpl. lia.
    + rewrite Hskip. exact HP.
Qed.

Lemma dbf_records_steps (records : list (list byte)) (L : Z) (fs : list field) :
  0 < L ->
  Forall (fun r => byteLength r = L) records ->
  forall (rows : list row) (n : Z) (rest : list byte) (out : list row),
    rows_result decode fs records = (rows, None) ->
    P (DBFMachine.mkRegisters L 2 (n - Z.of_nat (length records)) L fs) rest out ->
    P (DBFMachine.mkRegisters L 2 n L fs) (concat records ++ rest) (rows ++ out).
Proof.
  intros HL Hrec. induction Hrec as [|r records Hr Hrec IH];
    intros rows n rest out Hrows HP.
  - simpl in Hrows. injection Hrows as <-. simpl in *.
    replace (n - 0) with n in HP by lia. exact HP.
  - simpl concat. rewrite <- app_assoc.
    assert (HP' : P (DBFMachine.mkRegisters L 2 (n - 1 - Z.of_nat (length records))
                                            L fs) rest out).
    { replace (n - 1 - Z.of_nat (length records))
        with (n - Z.of_nat (length (r :: records))) by (simpl length; lia).
      exact HP. }
    pose proof (@dbf_record_step r (concat records ++ rest) n L fs) as Hstep.
    simpl rows_result in Hrows, Hstep.
    destruct (deleted r).
    + specialize (IH rows (n - 1) rest out Hrows).
      apply (Hstep (rows ++ out) Hr HL). apply IH. exact HP'.
    + destruct (negb (flag r =? 32)); [discriminate|].
      destruct (dbfRecord decode r 0 fs) as [v|e]; [|discriminate].
      destruct (rows_result decode fs records) as [rows' [e'|]] eqn:Er;
        [discriminate|].
      injection Hrows as <-.
      specialize (IH rows' (n - 1) rest out eq_refl).
      apply (Hstep (rows' ++ out) Hr HL). apply IH. exact HP'.
Qed.

End Steps.

End DBFStreams.

Lemma view_range b pos len : throws_only (eq RangeError) (view b pos len).
Proof.
  unfold view. destruct (len <? 0);
    [apply throws_only_Throw; reflexivity | apply bytes_at_range].
Qed.

Section DBFStreamTheorems.

Variable decode : list byte -> jsstring.

Lemma dbfRecord_fields_steady (fs : list field) :
  forall (pos : Z) (r : object),
    steady (fun b o => dbfRecord_fields decode b o fs pos r).
Proof.
  induction fs as [|f fs IH]; intros pos r w p res E Hres pre post; simpl in *.
  - exact E.
  - destruct (view w (p + pos + 1) (size f)) as [col|e] eqn:Ev; cbn [bind] in E.
    + replace (Z.of_nat (length pre) + p + pos + 1)
        with (Z.of_nat (length pre) + (p + pos + 1)) by lia.
      rewrite (@view_shift w (p + pos + 1) (size f) col pre post Ev). cbn [bind].
      destruct (column_value decode (type f) col) as [x|e]; cbn [bind] in *.
      * apply (IH _ _ w p res E Hres).
      * exact E.
    + exfalso. apply Hres. subst res. f_equal. symmetry.
      apply (@view_range w (p + pos + 1) (size f) e Ev).
Qed.

(** A record that is refused with a [TypeError], for its flag or for
    the type of a field, is refused on every buffer that holds it. *)
Lemma dbf_record_throws_on (r0 : list byte) (n L : Z) (fs : list field) (m : message) :
  byteLength r0 = L -> 0 < L ->
  rows_result decode fs [r0] = ([], Some (TypeError m)) ->
  throws_on (DBFMachine.round decode) dbf_anchored
            (DBFMachine.mkRegisters L 2 n L fs) r0 (TypeError m).
Proof.
  intros Hr HL Hrows pre post _.
  unfold DBFMachine.round. simpl DBFMachine.status. simpl Z.eqb. cbv iota.
  simpl DBFMachine.reclen. simpl DBFMachine.fields.
  rewrite <- Hr at 1. rewrite view_whole. cbn [bind].
  rewrite (@getUint8_at r0 0) by lia. cbn [bind].
  change (byte_at r0 (Z.to_nat 0)) with (flag r0).
  simpl rows_result in Hrows. unfold deleted in Hrows.
  destruct (flag r0 =? 42); [discriminate|].
  destruct (negb (flag r0 =? 32)); [injection Hrows as <-; reflexivity|].
  destruct (dbfRecord decode r0 0 fs) as [v|e] eqn:Ev; [discriminate|].
  injection Hrows as ->.
  pose proof (@dbfRecord_fields_steady fs 0 (mkObject [] true) r0 0 _ Ev ltac:(discriminate) pre post)
    as E.
  rewrite Z.add_0_r in E. unfold dbfRecord. rewrite E. reflexivity.
Qed.

(** X16. An attribute stream of a header, field descriptors, the
    terminator and whole records, in chunks that own their buffer,
    whatever the cuts: the rows of the records that are not deleted, in
    the order of the records, each decoded from the bytes of its record
    alone with the fields of the descriptors; and at the end the
    exception 'records remained' exactly when the header announces
    another number of records than the stream holds, deleted ones
    included.  The terminator is only seen once 31 bytes have followed
    it. *)
Theorem dbf_stream_of_records
        (hdr : list byte) (descs : list (list byte)) (fs : list field)
        (records : list (list byte)) (tail : list byte) (rows : list row)
        (numrec reclen : Z) (chunks : list (list byte)) (fuel : nat) :
  length hdr = 32%nat ->
  dbfHeader hdr = OK (numrec, reclen) ->
  0 < reclen ->
  Forall2 (fun d f => length d = 32%nat /\ dbfField decode d 0 = OK (Some f)) descs fs ->
  Forall (fun r => byteLength r = reclen) records ->
  byteLength tail < reclen ->
  (31 <= length (concat records ++ tail))%nat ->
  rows_result decode fs records = (rows, None) ->
  concat chunks = hdr ++ concat descs ++ x0d :: concat records ++ tail ->
  (length (concat chunks) < fuel)%nat ->
  DBFTransform.run decode fuel (map own chunks)
  = Some (rows, records_remained (numrec - Z.of_nat (length records))).
Proof.
  intros Hlen Hh HL Hd Hrec Htail Hroom Hrows Hc Hfuel.
  set (rf := DBFMachine.mkRegisters reclen 2 (numrec - Z.of_nat (length records))
                                    reclen fs).
  change (records_remained (numrec - Z.of_nat (length records))) with (dbf_flush rf).
  apply (@dbf_run_decodes decode (concat chunks)); auto.
  rewrite Hc.
  set (P := fun r input out =>
              decodes DBFMachine.needed (DBFMachine.round decode) r input rf out).
  assert (P_round : forall r input r' adv out out',
             DBFMachine.needed r <= byteLength input ->
             DBFMachine.round decode r (firstn (Z.to_nat (DBFMachine.needed r)) input) 0
             = OK (r', adv, out) ->
             0 < adv <= DBFMachine.needed r ->
             P r' (skipn (Z.to_nat adv) input) out' ->
             P r input (out ++ out')).
  { intros. eapply decodes_round; eassumption. }
  apply (@dbf_header_step decode P P_round hdr _ numrec reclen rows Hlen Hh).
  apply (@dbf_descriptors_steps decode P P_round descs fs Hd numrec reclen []).
  apply (@dbf_terminator_step decode P P_round _ numrec reclen fs rows Hroom).
  rewrite <- (app_nil_r rows).
  apply (@dbf_records_steps decode P P_round records reclen fs HL Hrec rows numrec
           tail [] Hrows).
  apply decodes_wait. exact Htail.
Qed.

(** X17. When fewer than 32 bytes follow the last field descriptor, the
    terminator among them, and the chunks own their buffer, the decoder
    never leaves the descriptors: no row of the stream is decoded, and
    the stream ends with 'records remained' unless its header announces
    no record.  A table whose records and end mark take less than 31
    bytes loses its rows this way. *)
Theorem dbf_rows_need_room
        (hdr : list byte) (descs : list (list byte)) (fs : list field)
        (tail : list byte) (numrec reclen : Z)
        (chunks : list (list byte)) (fuel : nat) :
  length hdr = 32%nat ->
  dbfHeader hdr = OK (numrec, reclen) ->
  Forall2 (fun d f => length d = 32%nat /\ dbfField decode d 0 = OK (Some f)) descs fs ->
  (length tail < 32)%nat ->
  concat chunks = hdr ++ concat descs ++ tail ->
  (length (concat chunks) < fuel)%nat ->
  DBFTransform.run decode fuel (map own chunks) = Some ([], records_remained numrec).
Proof.
  intros Hlen Hh Hd Htail Hc Hfuel.
  set (rf := DBFMachine.mkRegisters 32 1 numrec reclen fs).
  change (records_remained numrec) with (dbf_flush rf).
  apply (@dbf_run_decodes decode (concat chunks)); auto.
  rewrite Hc.
  set (P := fun r input out =>
              decodes DBFMachine.needed (DBFMachine.round decode) r input rf out).
  assert (P_round : forall r input r' adv out out',
             DBFMachine.needed r <= byteLength input ->
             DBFMachine.round decode r (firstn (Z.to_nat (DBFMachine.needed r)) input) 0
             = OK (r', adv, out) ->
             0 < adv <= DBFMachine.needed r ->
             P r' (skipn (Z.to_nat adv) input) out' ->
             P r input (out ++ out')).
  { intros. eapply decodes_round; eassumption. }
  apply (@dbf_header_step decode P P_round hdr _ numrec reclen [] Hlen Hh).
  apply (@dbf_descriptors_steps decode P P_round descs fs Hd numrec reclen []).
  apply decodes_wait. simpl. unfold byteLength. lia.
Qed.

(** X18. A stream in which a record is refused with a [TypeError], for a
    deletion flag that is neither a space nor an asterisk or for the
    type of a field: the rows of the records before it are enqueued,
    then the stream ends with that exception, whatever the cuts
    between the chunks, which own their buffer, and whatever follows
    the record. *)
Theorem dbf_stream_breaks_at_record
        (hdr : list byte) (descs : list (list byte)) (fs : list field)
        (good : list (list byte)) (bad rest : list byte) (rows : list row)
        (m : message) (numrec reclen : Z) (chunks : list (list byte)) (fuel : nat) :
  length hdr = 32%nat ->
  dbfHeader hdr = OK (numrec, reclen) ->
  0 < reclen ->
  Forall2 (fun d f => length d = 32%nat /\ dbfField decode d 0 = OK (Some f)) descs fs ->
  Forall (fun r => byteLength r = reclen) good ->
  byteLength bad = reclen ->
  (31 <= length (concat good ++ bad ++ rest))%nat ->
  rows_result decode fs good = (rows, None) ->
  rows_result decode fs [bad] = ([], Some (TypeError m)) ->
  concat chunks = hdr ++ concat descs ++ x0d :: concat good ++ bad ++ rest ->
  (length (concat chunks) < fuel)%nat ->
  DBFTransform.run decode fuel (map own chunks) = Some (rows, Some (TypeError m)).
Proof.
  intros Hlen Hh HL Hd Hgood Hbad Hroom Hrows Hthrow Hc Hfuel.
  set (rf := DBFMachine.mkRegisters reclen 2 (numrec - Z.of_nat (length good))
                                    reclen fs).
  apply (@dbf_run_breaks decode (concat chunks) rf); auto.
  rewrite Hc.
  set (P := fun r input out =>
              breaks DBFMachine.needed (DBFMachine.round decode) dbf_anchored
                     r input rf out (TypeError m)).
  assert (P_round : forall r input r' adv out out',
             DBFMachine.needed r <= byteLength input ->
             DBFMachine.round decode r (firstn (Z.to_nat (DBFMachine.needed r)) input) 0
             = OK (r', adv, out) ->
             0 < adv <= DBFMachine.needed r ->
             P r' (skipn (Z.to_nat adv) input) out' ->
             P r input (out ++ out')).
  { intros. eapply breaks_later; eassumption. }
  apply (@dbf_header_step decode P P_round hdr _ numrec reclen rows Hlen Hh).
  apply (@dbf_descriptors_steps decode P P_round descs fs Hd numrec reclen []).
  apply (@dbf_terminator_step decode P P_round _ numrec reclen fs rows Hroom).
  rewrite <- (app_nil_r rows).
  apply (@dbf_records_steps decode P P_round good reclen fs HL Hgood rows numrec
           (bad ++ rest) [] Hrows).
  apply breaks_here.
  - simpl DBFMachine.needed. rewrite byteLength_app. unfold byteLength in *. lia.
  - simpl DBFMachine.needed.
    assert (Hwin : firstn (Z.to_nat reclen) (bad ++ rest) = bad).
    { rewrite <- Hbad. unfold byteLength. rewrite Nat2Z.id.
      rewrite firstn_app_inside by lia. apply firstn_all. }
    rewrite Hwin. apply dbf_record_throws_on; assumption.
Qed.

End DBFStreamTheorems.

Lemma dbf_stream_of_records_witness :
  DBFTransform.run windows1252 300 (map own (bytewise sample_dbf))
  = Some ([[(js "COUNT"%string, JNumber (Num 12));
            (js "LABEL"%string, JString (js "first"%string))];
           [(js "COUNT"%string, JNumber (Num 34));
            (js "LABEL"%string, JString (js "third"%string))]],
          None).
Proof.
  change (@None error) with (records_remained (3 - Z.of_nat (length sample_rows))).
  apply (@dbf_stream_of_records windows1252 (sample_dbf_header 3)
           [sample_descriptor "COUNT"%string 78 7; sample_descriptor "LABEL"%string 67 8]
           sample_fields sample_rows (bytes_of [26%N]) _ 3 16).
  - reflexivity.
  - vm_compute. reflexivity.
  - lia.
  - repeat constructor; vm_compute; reflexivity.
  - repeat constructor; vm_compute; reflexivity.
  - vm_compute. reflexivity.
  - vm_compute. lia.
  - vm_compute. reflexivity.
  - vm_compute. reflexivity.
  - vm_compute. lia.
Defined.

(** A table of one record of 16 bytes: with the terminator and the end
    mark, 18 bytes follow the descriptors. *)
Lemma dbf_rows_need_room_witness :
  DBFTransform.run windows1252 300
    (map own
       [sample_dbf_header 3
        ++ sample_descriptor "COUNT"%string 78 7 ++ sample_descriptor "LABEL"%string 67 8
        ++ bytes_of [13%N] ++ ascii_bytes " 0000012first   "%string ++ bytes_of [26%N]])
  = Some ([], Some (TypeError (RecordsRemained 3))).
Proof.
  change (Some (TypeError (RecordsRemained 3))) with (records_remained 3).
  apply (@dbf_rows_need_room windows1252 (sample_dbf_header 3)
           [sample_descriptor "COUNT"%string 78 7; sample_descriptor "LABEL"%string 67 8]
           sample_fields
           (bytes_of [13%N] ++ ascii_bytes " 0000012first   "%string ++ bytes_of [26%N])
           3 16).
  - reflexivity.
  - vm_compute. reflexivity.
  - repeat constructor; vm_compute; reflexivity.
  - vm_compute. lia.
  - vm_compute. reflexivity.
  - vm_compute. lia.
Defined.

Lemma dbf_stream_breaks_at_record_witness :
  DBFTransform.run windows1252 300
    (map own (bytewise
       (sample_dbf_header 3
        ++ sample_descriptor "COUNT"%string 78 7 ++ sample_descriptor "LABEL"%string 67 8
        ++ bytes_of [13%N]
        ++ ascii_bytes " 0000012first   "%string
        ++ ascii_bytes "X0000099broken  "%string
        ++ ascii_bytes " 0000034third   "%string)))
  = Some ([[(js "COUNT"%string, JNumber (Num 12));
            (js "LABEL"%string, JString (js "first"%string))]],
          Some (TypeError DBFFormatError)).
Proof.
  apply (@dbf_stream_breaks_at_record windows1252 (sample_dbf_header 3)
           [sample_descriptor "COUNT"%string 78 7; sample_descriptor "LABEL"%string 67 8]
           sample_fields
           [ascii_bytes " 0000012first   "%string]
           (ascii_bytes "X0000099broken  "%string)
           (ascii_bytes " 0000034third   "%string)
           _ DBFFormatError 3 16).
  - reflexivity.
  - vm_compute. reflexivity.
  - lia.
  - repeat constructor; vm_compute; reflexivity.
  - repeat constructor; vm_compute; reflexivity.
  - vm_compute. reflexivity.
  - vm_compute. lia.
  - vm_compute. reflexivity.
  - vm_compute. reflexivity.
  - vm_compute. reflexivity.
  - vm_compute. lia.
Defined.

(** ** Streams that end inside the header *)

Section ShortStreams.

Variable shpHeader : ArrayBuffer -> result (BBox * Z).
Variable shpRecord : ArrayBuffer -> Z -> bool -> result feature.
Variable withM : bool.
Variable decode : list byte -> jsstring.

Lemma shp_feed_waits (fuel : nat) (chunks : list (list byte)) :
  (0 < fuel)%nat ->
  forall buf : option ArrayBuffer,
    byteLength (match buf with Some b => b | None => [] end ++ concat chunks) < 100 ->
    exists buf',
      SHPTransform.feed shpHeader shpRecord withM fuel (map own chunks)
                        (SHPTransform.mkState buf 0 100 0 0 None)
      = Returned (SHPTransform.mkState buf' 0 100 0 0 None) [].
Proof.
  intro Hfuel. destruct fuel as [|fuel]; [lia|]. clear Hfuel.
  induction chunks as [|c cs IH]; intros buf Hlen.
  { exists buf. reflexivity. }
  set (data := match buf with Some b => b ++ c | None => c end).
  assert (Ed : match buf with Some b => b | None => [] end ++ concat (c :: cs)
               = data ++ concat cs).
  { unfold data. destruct buf as [b|]; simpl; [|reflexivity].
    rewrite app_assoc. reflexivity. }
  rewrite Ed in Hlen.
  assert (Hd : byteLength data < 100).
  { rewrite byteLength_app in Hlen. unfold byteLength in *. lia. }
  destruct (IH (Some data) Hlen) as [buf' E].
  exists buf'.
  assert (Et : SHPTransform.transform shpHeader shpRecord withM (S fuel) (own c)
                 (SHPTransform.mkState buf 0 100 0 0 None)
               = Returned (SHPTransform.mkState (Some data) 0 100 0 0 None) []).
  { unfold SHPTransform.transform.
    rewrite elements_own. change (chunk_buffer (own c)) with c.
    cbn [SHPTransform.buffer SHPTransform.offset SHPTransform.needed
         SHPTransform.status SHPTransform.filesize SHPTransform.bbox].
    destruct buf as [b|]; cbv zeta; rewrite ?buffer_slice_0; fold data;
      cbn [SHPTransform.loop SHPTransform.offset SHPTransform.needed];
      rewrite Z.sub_0_r;
      (destruct (Z.ltb_spec (byteLength data) 100); [reflexivity|lia]). }
  cbn [map SHPTransform.feed]. rewrite Et. cbn [enqueued]. rewrite E. reflexivity.
Qed.

Lemma dbf_feed_waits (fuel : nat) (chunks : list (list byte)) :
  (0 < fuel)%nat ->
  forall buf : option ArrayBuffer,
    byteLength (match buf with Some b => b | None => [] end ++ concat chunks) < 32 ->
    exists buf',
      DBFTransform.feed decode fuel (map own chunks)
                        (DBFTransform.mkState buf 0 32 0 0 0 [])
      = Returned (DBFTransform.mkState buf' 0 32 0 0 0 []) [].
Proof.
  intro Hfuel. destruct fuel as [|fuel]; [lia|]. clear Hfuel.
  induction chunks as [|c cs IH]; intros buf Hlen.
  { exists buf. reflexivity. }
  set (data := match buf with Some b => b ++ c | None => c end).
  assert (Ed : match buf with Some b => b | None => [] end ++ concat (c :: cs)
               = data ++ concat cs).
  { unfold data. destruct buf as [b|]; simpl; [|reflexivity].
    rewrite app_assoc. reflexivity. }
  rewrite Ed in Hlen.
  assert (Hd : byteLength data < 32).
  { rewrite byteLength_app in Hlen. unfold byteLength in *. lia. }
  destruct (IH (Some data) Hlen) as [buf' E].
  exists buf'.
  assert (Et : DBFTransform.transform decode (S fuel) (own c)
                 (DBFTransform.mkState buf 0 32 0 0 0 [])
               = Returned (DBFTransform.mkState (Some data) 0 32 0 0 0 []) []).
  { unfold DBFTransform.transform.
    rewrite elements_own. change (chunk_buffer (own c)) with c.
    rewrite zero_filled_nil by lia. rewrite app_nil_r.
    cbn [DBFTransform.buffer DBFTransform.offset DBFTransform.needed
         DBFTransform.status DBFTransform.numrec DBFTransform.reclen
         DBFTransform.fields].
    destruct buf as [b|]; cbv zeta; rewrite ?buffer_slice_0; fold data;
      cbn [DBFTransform.loop DBFTransform.offset DBFTransform.needed];
      rewrite Z.sub_0_r;
      (destruct (Z.ltb_spec (byteLength data) 32); [reflexivity|lia]). }
  cbn [map DBFTransform.feed]. rewrite Et. cbn [enqueued]. rewrite E. reflexivity.
Qed.

End ShortStreams.

(** X19. A stream that ends before its header is complete, before 100 bytes
    for a geometry stream and before 32 bytes for an attribute stream,
    in chunks that own their buffer, ends silently: nothing is enqueued,
    the array [bbox] is not filled, the two decoders that [SHPTransform]
    imports are not called, and neither [transform] nor [flush] throws.
    The empty stream is one of them. *)
Theorem short_streams_end_silently
        (shpHeader : ArrayBuffer -> result (BBox * Z))
        (shpRecord : ArrayBuffer -> Z -> bool -> result feature) (withM : bool)
        (decode : list byte -> jsstring)
        (shp_chunks dbf_chunks : list (list byte)) (fuel : nat) :
  (0 < fuel)%nat ->
  (byteLength (concat shp_chunks) < 100 ->
   SHPTransform.run shpHeader shpRecord withM fuel (map own shp_chunks)
   = Some ([], None, None))
  /\ (byteLength (concat dbf_chunks) < 32 ->
      DBFTransform.run decode fuel (map own dbf_chunks) = Some ([], None)).
Proof.
  intro Hfuel. split; intro H.
  - destruct (@shp_feed_waits shpHeader shpRecord withM fuel shp_chunks Hfuel None H)
      as [buf' E].
    unfold SHPTransform.run, SHPTransform.init. rewrite E. reflexivity.
  - destruct (@dbf_feed_waits decode fuel dbf_chunks Hfuel None H) as [buf' E].
    unfold DBFTransform.run, DBFTransform.init. rewrite E. reflexivity.
Qed.

Lemma short_streams_end_silently_witness :
  SHPTransform.run sample_shpHeader sample_shpRecord false 1
                   (map own [firstn 50 (sample_shp 132); firstn 49 (sample_shp 132)])
  = Some ([], None, None)
  /\ DBFTransform.run windows1252 1 (map own [firstn 31 sample_dbf]) = Some ([], None).
Proof.
  destruct (@short_streams_end_silently sample_shpHeader sample_shpRecord false
              windows1252
              [firstn 50 (sample_shp 132); firstn 49 (sample_shp 132)]
              [firstn 31 sample_dbf] 1 ltac:(lia))
    as [Hshp Hdbf].
  split; [apply Hshp | apply Hdbf]; vm_compute; reflexivity.
Defined.

(** ** The values of a row *)

(** X20. A logical field of one byte, read with the default decoder: [true]
    for one of the letters Y, y, T and t, [false] for N, n, F and f, and
    [null] for any other byte. *)
Theorem logical_field_values (b : byte) :
  column_value windows1252 76 [b] = OK (logical_value b).
Proof. destruct b; vm_compute; reflexivity. Qed.

Lemma jsstring_eqb_eq (s t : jsstring) : jsstring_eqb s t = true <-> s = t.
Proof.
  unfold jsstring_eqb. destruct (list_eq_dec N.eq_dec s t); split; congruence.
Qed.

Lemma jsstring_eqb_refl (s : jsstring) : jsstring_eqb s s = true.
Proof. apply jsstring_eqb_eq. reflexivity. Qed.

Lemma jsstring_eqb_neq (s t : jsstring) : s <> t -> jsstring_eqb s t = false.
Proof.
  intro H. destruct (jsstring_eqb s t) eqn:E; [|reflexivity].
  apply jsstring_eqb_eq in E. contradiction.
Qed.

Lemma column_value_known (decode : list byte -> jsstring) (t : N) (col : list byte) :
  if known_type t then exists v, column_value decode t col = OK v
  else column_value decode t col
       = Throw (TypeError (DBFFieldTypeNotImplemented (Z.of_N t))).
Proof.
  unfold known_type, column_value. simpl existsb.
  destruct (t =? 67)%N; [eexists; reflexivity|].
  destruct (t =? 68)%N; [eexists; reflexivity|].
  destruct (t =? 78)%N; [eexists; reflexivity|].
  destruct (t =? 70)%N; [eexists; reflexivity|].
  destruct (t =? 76)%N; simpl; [|reflexivity].
  destruct (_ || _); [eexists; reflexivity|].
  destruct (_ || _); eexists; reflexivity.
Qed.

Lemma view_inside (b : ArrayBuffer) (p n : Z) :
  0 <= p -> 0 <= n -> p + n <= byteLength b ->
  view b p n = OK (firstn (Z.to_nat n) (skipn (Z.to_nat p) b)).
Proof.
  intros Hp Hn Hb. unfold view. destruct (Z.ltb_spec n 0); [lia|].
  apply bytes_at_inside; lia.
Qed.

Lemma columns_width_nonneg (fs : list field) :
  Forall (fun f => 0 <= size f) fs -> 0 <= columns_width fs.
Proof. induction 1; simpl; unfold columns_width in *; simpl; lia. Qed.

Section Rows.

Variable decode : list byte -> jsstring.

Lemma dbfRecord_fields_fit (bytes : ArrayBuffer) (off : Z) (fs : list field) :
  Forall (fun f => 0 <= size f) fs ->
  forall (pos : Z) (r : object),
    0 <= off -> 0 <= pos ->
    off + pos + 1 + columns_width fs <= byteLength bytes ->
    match first_unknown fs with
    | None => exists r', dbfRecord_fields decode bytes off fs pos r = OK r'
    | Some t => dbfRecord_fields decode bytes off fs pos r
                = Throw (TypeError (DBFFieldTypeNotImplemented (Z.of_N t)))
    end.
Proof.
  induction 1 as [|f fs Hf Hfs IH]; intros pos r Hoff Hpos Hfit.
  - simpl. eexists. reflexivity.
  - pose proof (columns_width_nonneg Hfs) as Hw.
    unfold columns_width in Hfit, Hw. simpl in Hfit.
    simpl dbfRecord_fields. simpl first_unknown.
    rewrite view_inside by lia. cbn [bind].
    pose proof (column_value_known decode (type f)
                  (firstn (Z.to_nat (size f))
                          (skipn (Z.to_nat (off + pos + 1)) bytes))) as Hc.
    destruct (known_type (type f)).
    + destruct Hc as (v & ->). cbn [bind].
      apply IH; try lia. unfold columns_width. lia.
    + rewrite Hc. reflexivity.
Qed.

(** X21. On a record that is wide enough for the columns of its fields,
    [dbfRecord] returns a row exactly when every field has one of the
    types C, D, N, F and L; otherwise it throws 'DBF field type .. not
    implemented' for the first field of another type, a memo field for
    one. *)
Theorem dbfRecord_known_types (bytes : ArrayBuffer) (off : Z) (fs : list field) :
  Forall (fun f => 0 <= size f) fs ->
  0 <= off ->
  off + record_width fs <= byteLength bytes ->
  match first_unknown fs with
  | None => exists r, dbfRecord decode bytes off fs = OK r
  | Some t => dbfRecord decode bytes off fs
              = Throw (TypeError (DBFFieldTypeNotImplemented (Z.of_N t)))
  end.
Proof.
  intros Hf Hoff Hfit. unfold dbfRecord.
  apply dbfRecord_fields_fit; try assumption; try lia.
  unfold record_width, columns_width in *. lia.
Qed.

End Rows.

Lemma dbfRecord_known_types_witness :
  dbfRecord windows1252 (ascii_bytes " 0000012first   "%string) 0
            [mkField (js "COUNT"%string) 78 7; mkField (js "NOTE"%string) 77 8]
  = Throw (TypeError (DBFFieldTypeNotImplemented 77)).
Proof.
  apply (@dbfRecord_known_types windows1252 (ascii_bytes " 0000012first   "%string) 0
           [mkField (js "COUNT"%string) 78 7; mkField (js "NOTE"%string) 77 8]).
  - repeat constructor; simpl; lia.
  - lia.
  - vm_compute. discriminate.
Defined.

(** ** The keys of a row *)

Lemma row_get_assign_same (k : jsstring) (v : jsvalue) (r : row) :
  row_get k (row_assign k v r) = Some v.
Proof.
  induction r as [|[k' w] r IH]; simpl.
  - rewrite jsstring_eqb_refl. reflexivity.
  - destruct (jsstring_eqb k' k) eqn:E; simpl; rewrite E; [reflexivity | exact IH].
Qed.

Lemma row_get_assign_other (k k' : jsstring) (v : jsvalue) (r : row) :
  k' <> k -> row_get k (row_assign k' v r) = row_get k r.
Proof.
  intro H. induction r as [|[k0 w] r IH]; simpl.
  - rewrite jsstring_eqb_neq by exact H. reflexivity.
  - destruct (jsstring_eqb k0 k') eqn:E; simpl.
    + apply jsstring_eqb_eq in E. subst k0.
      rewrite jsstring_eqb_neq by exact H. reflexivity.
    + destruct (jsstring_eqb k0 k); [reflexivity | exact IH].
Qed.

Lemma row_get_set_same (k : jsstring) (v : jsvalue) (o : object) :
  k <> js "__proto__"%string -> row_get k (own_properties (row_set k v o)) = Some v.
Proof.
  intro H. unfold row_set. rewrite jsstring_eqb_neq by exact H.
  apply row_get_assign_same.
Qed.

Lemma row_get_set_other (k k' : jsstring) (v : jsvalue) (o : object) :
  k' <> k ->
  row_get k (own_properties (row_set k' v o)) = row_get k (own_properties o).
Proof.
  intro H. unfold row_set. destruct (_ && _); [reflexivity|].
  apply row_get_assign_other, H.
Qed.

Lemma keys_row_assign (k : jsstring) (v : jsvalue) (r : row) :
  (NoDup (map fst r) -> NoDup (map fst (row_assign k v r)))
  /\ (forall x, In x (map fst (row_assign k v r)) <-> In x (map fst r) \/ x = k).
Proof.
  induction r as [|[k' w] r [IHn IHi]]; simpl.
  - split; [intros _; constructor; [intros [] | constructor]|].
    intro x. split; [intros [<-|[]]; auto | intros [[]| ->]; auto].
  - destruct (jsstring_eqb k' k) eqn:E; simpl.
    + apply jsstring_eqb_eq in E. subst k'. split; [auto|].
      intro x. split; [auto | intros [H| ->]; auto].
    + split.
      * intro Hnd. inversion Hnd as [|? ? Hk Hr]; subst. constructor; [|apply IHn, Hr].
        rewrite IHi. intros [H| ->]; [contradiction|].
        rewrite jsstring_eqb_refl in E. discriminate.
      * intro x. rewrite IHi. tauto.
Qed.

(** One assignment: the keys stay distinct, a key other than
    [__proto__] is added, and [__proto__] itself only once the prototype
    has been set to [null]. *)
Lemma keys_row_set (k : jsstring) (v : jsvalue) (o : object) :
  (NoDup (map fst (own_properties o)) -> NoDup (map fst (own_properties (row_set k v o))))
  /\ (forall x, In x (map fst (own_properties (row_set k v o)))
                -> In x (map fst (own_properties o)) \/ x = k)
  /\ (forall x, In x (map fst (own_properties o))
                -> In x (map fst (own_properties (row_set k v o))))
  /\ (k <> js "__proto__"%string -> In k (map fst (own_properties (row_set k v o))))
  /\ (k <> js "__proto__"%string -> inherits (row_set k v o) = inherits o)
  /\ (k = js "__proto__"%string -> inherits o = true ->
      own_properties (row_set k v o) = own_properties o).
Proof.
  unfold row_set. destruct (keys_row_assign k v (own_properties o)) as [Hn Hi].
  destruct (jsstring_eqb k (js "__proto__"%string)) eqn:E.
  - apply jsstring_eqb_eq in E. destruct (inherits o); cbn [andb own_properties inherits].
    + repeat split; auto; try contradiction.
    + repeat split; auto; try contradiction; try discriminate.
      * intros x Hx. apply Hi, Hx.
      * intros x Hx. apply Hi. left. exact Hx.
  - assert (Hk : k <> js "__proto__"%string).
    { intro H. rewrite H, jsstring_eqb_refl in E. discriminate. }
    cbn [andb own_properties inherits]. repeat split; auto; try contradiction.
    + intros x Hx. apply Hi, Hx.
    + intros x Hx. apply Hi. left. exact Hx.
    + intros _. apply Hi. right. reflexivity.
Qed.

Lemma fields_named_cons (k : jsstring) (f : field) (fs : list field) :
  fields_named k (f :: fs)
  = ((if jsstring_eqb (name f) k then 1 else 0) + fields_named k fs)%nat.
Proof. unfold fields_named. simpl. destruct (jsstring_eqb _ _); reflexivity. Qed.

Section RowKeys.

Variable decode : list byte -> jsstring.

Lemma dbfRecord_fields_keys (bytes : ArrayBuffer) (off : Z) (fs : list field) :
  forall (pos : Z) (o : object) (r : row),
    dbfRecord_fields decode bytes off fs pos o = OK r ->
    (NoDup (map fst (own_properties o)) -> NoDup (map fst r))
    /\ (forall k, In k (map fst r)
                  -> In k (map fst (own_properties o)) \/ In k (map name fs))
    /\ (forall k, In k (map fst (own_properties o)) -> In k (map fst r))
    /\ (forall k, k <> js "__proto__"%string -> In k (map name fs) -> In k (map fst r))
    /\ (In (js "__proto__"%string) (map fst r) ->
        In (js "__proto__"%string) (map fst (own_properties o))
        \/ ((if inherits o then 2 else 1)
            <= fields_named (js "__proto__"%string) fs)%nat).
Proof.
  induction fs as [|f fs IH]; intros pos o r H; simpl in H.
  - injection H as <-. split; [auto|]. split; [auto|]. split; [auto|].
    split; [intros k _ []|]. auto.
  - destruct (view _ _ _) as [col|e]; [|discriminate]. cbn [bind] in H.
    destruct (column_value _ _ _) as [v|e]; [|discriminate]. cbn [bind] in H.
    destruct (IH _ _ _ H) as (Hn & Hi & Hkeep & Hadd & Hproto).
    destruct (keys_row_set (name f) v o) as (Hn0 & Hi0 & Hkeep0 & Hadd0 & Hinh & Hsame).
    split; [auto|]. split; [|split; [|split]].
    + intros k Hk. destruct (Hi k Hk) as [H1|H1].
      * destruct (Hi0 k H1) as [H2| ->]; [auto | right; left; reflexivity].
      * right. right. exact H1.
    + intros k Hk. auto.
    + intros k Hk [<-|Hin]; auto.
    + intro Hp. rewrite fields_named_cons.
      destruct (Hproto Hp) as [H1|H1].
      * destruct (jsstring_eqb (name f) (js "__proto__"%string)) eqn:E.
        -- apply jsstring_eqb_eq in E. destruct (inherits o) eqn:Eo.
           ++ left. rewrite <- (Hsame E eq_refl). exact H1.
           ++ right. lia.
        -- destruct (Hi0 _ H1) as [H2|H2]; [left; exact H2|].
           rewrite <- H2, jsstring_eqb_refl in E. discriminate.
      * right. destruct (jsstring_eqb (name f) (js "__proto__"%string)) eqn:E.
        -- destruct (inherits (row_set (name f) v o)), (inherits o); lia.
        -- rewrite Hinh in H1; [exact H1|].
           intro E'. rewrite E', jsstring_eqb_refl in E. discriminate.
Qed.

Lemma dbfRecord_fields_keep (bytes : ArrayBuffer) (off : Z) (k : jsstring)
      (fs : list field) :
  Forall (fun g => name g <> k) fs ->
  forall (pos : Z) (o : object) (r : row),
    dbfRecord_fields decode bytes off fs pos o = OK r ->
    row_get k r = row_get k (own_properties o).
Proof.
  induction 1 as [|f fs Hf Hfs IH]; intros pos o r H; simpl in H.
  - injection H as <-. reflexivity.
  - destruct (view _ _ _) as [col|e]; [|discriminate]. cbn [bind] in H.
    destruct (column_value _ _ _) as [v|e]; [|discriminate]. cbn [bind] in H.
    rewrite (IH _ _ _ H). apply row_get_set_other, Hf.
Qed.

Lemma dbfRecord_fields_lookup (bytes : ArrayBuffer) (off : Z) (f : field)
      (after : list field) (before : list field) :
  name f <> js "__proto__"%string ->
  Forall (fun g => name g <> name f) after ->
  forall (pos : Z) (o : object) (r : row),
    dbfRecord_fields decode bytes off (before ++ f :: after) pos o = OK r ->
    exists col v,
      view bytes (off + (pos + columns_width before) + 1) (size f) = OK col
      /\ column_value decode (type f) col = OK v
      /\ row_get (name f) r = Some v.
Proof.
  intros Hp Hafter. induction before as [|g before IH]; intros pos o r H;
    simpl in H.
  - destruct (view bytes (off + pos + 1) (size f)) as [col|e] eqn:Ev;
      [|discriminate]. cbn [bind] in H.
    destruct (column_value decode (type f) col) as [v|e] eqn:Ec; [|discriminate].
    cbn [bind] in H. exists col, v.
    unfold columns_width. simpl. rewrite Z.add_0_r.
    split; [exact Ev|]. split; [exact Ec|].
    rewrite (@dbfRecord_fields_keep bytes off (name f) after Hafter _ _ _ H).
    apply row_get_set_same, Hp.
  - destruct (view _ _ _) as [col|e]; [|discriminate]. cbn [bind] in H.
    destruct (column_value _ _ _) as [v|e]; [|discriminate]. cbn [bind] in H.
    destruct (IH _ _ _ H) as (col' & v' & Ev & Ec & Eg).
    exists col', v'. split; [|split; assumption].
    unfold columns_width in *. simpl.
    replace (off + (pos + (size g + fold_right (fun f acc => size f + acc) 0 before)) + 1)
      with (off + (pos + size g + fold_right (fun f acc => size f + acc) 0 before) + 1)
      by lia.
    exact Ev.
Qed.

(** X22. In the row that [dbfRecord] returns, the value under the name of a
    field is the value of the column of that field, the last one of
    that name: the bytes that follow the deletion flag and the columns
    of the fields before it, as wide as the field says. *)
Theorem dbfRecord_lookup (bytes : ArrayBuffer) (off : Z)
        (before : list field) (f : field) (after : list field) (r : row) :
  dbfRecord decode bytes off (before ++ f :: after) = OK r ->
  name f <> js "__proto__"%string ->
  Forall (fun g => name g <> name f) after ->
  exists col v,
    view bytes (off + columns_width before + 1) (size f) = OK col
    /\ column_value decode (type f) col = OK v
    /\ row_get (name f) r = Some v.
Proof.
  intros H Hp Hafter. unfold dbfRecord in H.
  destruct (@dbfRecord_fields_lookup bytes off f after before Hp Hafter _ _ _ H)
    as (col & v & Ev & Ec & Eg).
  exists col, v. split; [|split; assumption]. exact Ev.
Qed.

(** X23. The row that [dbfRecord] returns has one entry for each name of
    a field other than [__proto__], however many fields have that name,
    and no other entry but, at most, one for [__proto__]: that one only
    when two fields or more have that name, as it is after the first of
    them, with the value [null], has set the prototype of the row to
    [null]. *)
Theorem dbfRecord_keys (bytes : ArrayBuffer) (off : Z) (fs : list field) (r : row) :
  dbfRecord decode bytes off fs = OK r ->
  NoDup (map fst r)
  /\ (forall k, In k (map fst r) -> In k (map name fs))
  /\ (forall k, k <> js "__proto__"%string -> In k (map name fs) -> In k (map fst r))
  /\ (In (js "__proto__"%string) (map fst r) ->
      (2 <= fields_named (js "__proto__"%string) fs)%nat).
Proof.
  intro H. unfold dbfRecord in H.
  destruct (@dbfRecord_fields_keys bytes off fs _ _ _ H)
    as (Hn & Hi & _ & Hadd & Hproto).
  split; [apply Hn; constructor|]. split; [|split].
  - intros k Hk. destruct (Hi k Hk) as [[]|Hin]. exact Hin.
  - exact Hadd.
  - intro Hp. destruct (Hproto Hp) as [[]|Hc]. exact Hc.
Qed.

End RowKeys.

(** ** Padding and digits *)

Lemma digit_cases (d : N) :
  (d < 10)%N ->
  d = 0%N \/ d = 1%N \/ d = 2%N \/ d = 3%N \/ d = 4%N
  \/ d = 5%N \/ d = 6%N \/ d = 7%N \/ d = 8%N \/ d = 9%N.
Proof. lia. Qed.

Ltac each_digit H :=
  apply digit_cases in H;
  destruct H as [->|[->|[->|[->|[->|[->|[->|[->|[->| ->]]]]]]]]].

Lemma trimStart_spaces (n : nat) (s : jsstring) :
  trimStart (spaces n ++ s) = trimStart s.
Proof. induction n as [|n IH]; [reflexivity | exact IH]. Qed.

Lemma trimStart_head (c : N) (s : jsstring) :
  is_whitespace c = false -> trimStart (c :: s) = c :: s.
Proof. intro H. simpl. rewrite H. reflexivity. Qed.

Lemma rev_repeat {A} (x : A) (n : nat) : rev (repeat x n) = repeat x n.
Proof.
  induction n as [|n IH]; [reflexivity|].
  simpl. rewrite IH. symmetry. apply repeat_cons.
Qed.

Lemma unpadded_ends (t : jsstring) :
  unpadded t ->
  exists c t' d u, t = c :: t' /\ rev t = d :: u
                   /\ is_whitespace c = false /\ is_whitespace d = false /\ d <> 0%N.
Proof.
  unfold unpadded. destruct t as [|c t']; [intros []|].
  destruct (rev (c :: t')) as [|d u] eqn:E; [intros []|].
  intros (H1 & H2 & H3). exists c, t', d, u. auto.
Qed.

Lemma trim_padded (t : jsstring) (a b : nat) :
  unpadded t -> trim (spaces a ++ t ++ spaces b) = t.
Proof.
  intro H. destruct (@unpadded_ends t H) as (c & t' & d & u & Et & Er & Hc & Hd & _).
  unfold trim. rewrite trimStart_spaces. rewrite Et at 1. simpl app.
  rewrite trimStart_head by exact Hc.
  change (c :: t' ++ spaces b) with ((c :: t') ++ spaces b). rewrite <- Et.
  rewrite rev_app_distr. unfold spaces at 1. rewrite rev_repeat.
  fold (spaces b). rewrite trimStart_spaces, Er, trimStart_head by exact Hd.
  rewrite <- Er. apply rev_involutive.
Qed.

Lemma drop_nuls_nuls (n : nat) (s : jsstring) : drop_nuls (nuls n ++ s) = drop_nuls s.
Proof. induction n as [|n IH]; [reflexivity | exact IH]. Qed.

Lemma drop_nuls_head (c : N) (s : jsstring) : c <> 0%N -> drop_nuls (c :: s) = c :: s.
Proof.
  intro H. simpl. destruct (N.eqb_spec c 0); [contradiction | reflexivity].
Qed.

Section Padding.

Variable decode : list byte -> jsstring.

(** X24. A character field holds a text and its padding.  NULs and then
    spaces after the text are removed; but when spaces come first and
    NULs after them, only the NULs are removed and the spaces stay. *)
Theorem character_field_padding (col : list byte) (t : jsstring) (a b : nat) :
  unpadded t ->
  (decode col = t ++ nuls a ++ spaces b ->
   column_value decode 67 col = OK (JString t))
  /\ (decode col = t ++ spaces b ++ nuls a -> (0 < a)%nat ->
      column_value decode 67 col = OK (JString (t ++ spaces b))).
Proof.
  intro H. destruct (@unpadded_ends t H) as (c & t' & d & u & Et & Er & Hc & Hd & Hd0).
  assert (Hstart : forall s, trimStart (t ++ s) = t ++ s).
  { intro s. rewrite Et. simpl app. apply trimStart_head, Hc. }
  split.
  - intro E. unfold column_value. simpl N.eqb. cbv iota. rewrite E.
    do 2 f_equal. unfold trim. rewrite Hstart.
    rewrite !rev_app_distr. unfold spaces, nuls. rewrite !rev_repeat.
    fold (spaces b). fold (nuls a). rewrite <- app_assoc, trimStart_spaces.
    assert (Ets : trimStart (nuls a ++ rev t) = nuls a ++ rev t).
    { destruct a as [|a]; simpl app.
      - rewrite Er. apply trimStart_head, Hd.
      - apply trimStart_head. reflexivity. }
    rewrite Ets. unfold strip_nuls. rewrite rev_involutive.
    rewrite drop_nuls_nuls, Er, drop_nuls_head by exact Hd0.
    rewrite <- Er. apply rev_involutive.
  - intros E Ha. unfold column_value. simpl N.eqb. cbv iota. rewrite E.
    do 2 f_equal. unfold trim. rewrite Hstart.
    rewrite !rev_app_distr. unfold spaces, nuls. rewrite !rev_repeat.
    fold (spaces b). fold (nuls a). rewrite <- app_assoc.
    assert (Ets : trimStart (nuls a ++ spaces b ++ rev t) = nuls a ++ spaces b ++ rev t).
    { destruct a as [|a]; [lia|]. apply trimStart_head. reflexivity. }
    rewrite Ets. unfold strip_nuls. rewrite rev_involutive.
    rewrite drop_nuls_nuls.
    assert (Edn : drop_nuls (spaces b ++ rev t) = spaces b ++ rev t).
    { destruct b as [|b]; simpl app.
      - rewrite Er. apply drop_nuls_head, Hd0.
      - apply drop_nuls_head. discriminate. }
    rewrite Edn, rev_app_distr, rev_involutive. unfold spaces. rewrite rev_repeat.
    reflexivity.
Qed.

End Padding.

Lemma character_field_padding_witness :
  column_value windows1252 67 (ascii_bytes "ab c"%string ++ bytes_of [0; 0; 32]%N)
  = OK (JString (js "ab c"%string))
  /\ column_value windows1252 67 (ascii_bytes "ab c  "%string ++ bytes_of [0; 0]%N)
     = OK (JString (js "ab c  "%string)).
Proof.
  split.
  - apply (@character_field_padding windows1252 _ (js "ab c"%string) 2 1).
    + vm_compute. repeat split; discriminate.
    + reflexivity.
  - apply (@character_field_padding windows1252 _ (js "ab c"%string) 2 2).
    + vm_compute. repeat split; discriminate.
    + reflexivity.
    + lia.
Defined.

(** The code unit of a decimal digit. *)
Lemma digit_not_whitespace (d : N) : (d < 10)%N -> is_whitespace (48 + d) = false.
Proof. intro H. each_digit H; reflexivity. Qed.

Lemma digits_of_digits (ds : list N) :
  Forall (fun d => (d < 10)%N) ds -> digits 10 (map (N.add 48) ds) = (ds, []).
Proof.
  induction 1 as [|d ds Hd Hds IH]; [reflexivity|].
  cbn [map digits].
  assert (E : digit_value 10 (48 + d) = Some d) by (each_digit Hd; reflexivity).
  rewrite E, IH. reflexivity.
Qed.

Lemma unpadded_intro (t : jsstring) (c : N) (t' : jsstring) (d : N) (u : jsstring) :
  t = c :: t' -> rev t = d :: u ->
  is_whitespace c = false -> is_whitespace d = false -> d <> 0%N ->
  unpadded t.
Proof.
  intros -> Hr Hc Hd Hd0. unfold unpadded. rewrite Hr. auto.
Qed.

Lemma trim_digits (ds : list N) (pad : nat) :
  ds <> [] -> Forall (fun d => (d < 10)%N) ds ->
  trim (spaces pad ++ map (N.add 48) ds) = map (N.add 48) ds.
Proof.
  intros Hne Hds.
  rewrite <- (app_nil_r (map (N.add 48) ds)) at 1.
  apply (@trim_padded (map (N.add 48) ds) pad 0).
  destruct ds as [|d0 ds']; [congruence|].
  destruct (rev (d0 :: ds')) as [|dl u] eqn:Er.
  { apply (f_equal (@length N)) in Er. rewrite length_rev in Er. discriminate. }
  assert (Hl : (dl < 10)%N).
  { rewrite Forall_forall in Hds. apply Hds. apply in_rev. rewrite Er. left. reflexivity. }
  apply (@unpadded_intro _ (48 + d0)%N (map (N.add 48) ds') (48 + dl)%N
           (map (N.add 48) u)).
  - reflexivity.
  - rewrite <- map_rev, Er. reflexivity.
  - apply digit_not_whitespace. inversion Hds; assumption.
  - apply digit_not_whitespace, Hl.
  - lia.
Qed.

Lemma unsigned_decimal_digits (ds : list N) :
  ds <> [] -> Forall (fun d => (d < 10)%N) ds ->
  exists q, unsigned_decimal (map (N.add 48) ds) = Num q
            /\ (q == (digits_value 10 ds # 1))%Q.
Proof.
  intros Hne Hds. unfold unsigned_decimal.
  assert (Einf : jsstring_eqb (map (N.add 48) ds) (js "Infinity"%string) = false).
  { apply jsstring_eqb_neq. destruct ds as [|d ds']; [congruence|].
    inversion Hds as [|? ? Hd _]; subst. simpl. intro E. injection E as E _.
    each_digit Hd; discriminate. }
  rewrite Einf, (digits_of_digits Hds).
  destruct ds as [|d ds']; [congruence|].
  unfold with_exponent. eexists. split; [reflexivity|].
  rewrite app_nil_r. simpl length. simpl Z.of_nat. change (pow10 (- 0)) with (1 # 1)%Q.
  ring.
Qed.

Lemma literal_value_digits (ds : list N) :
  ds <> [] -> Forall (fun d => (d < 10)%N) ds ->
  literal_value (map (N.add 48) ds) = unsigned_decimal (map (N.add 48) ds).
Proof.
  intros Hne Hds. unfold literal_value.
  rewrite <- (app_nil_l (map (N.add 48) ds)) at 1.
  change (@nil N) with (spaces 0). rewrite (trim_digits 0 Hne Hds).
  destruct ds as [|d0 ds']; [congruence|].
  inversion Hds as [|? ? Hd0 Hds']; subst.
  destruct ds' as [|d1 ds''].
  - each_digit Hd0; reflexivity.
  - inversion Hds' as [|? ? Hd1 _]; subst.
    each_digit Hd0; try reflexivity.
    each_digit Hd1; reflexivity.
Qed.

(** Equal rationals round to the same double. *)
Lemma nearest_double_Qeq (q q' : Q) : (q == q')%Q -> nearest_double q = nearest_double q'.
Proof. intro H. unfold nearest_double. rewrite (Qred_complete q q' H). reflexivity. Qed.

Section Digits.

Variable decode : list byte -> jsstring.

(** X25. A numeric field that holds an unsigned decimal integer, right
    justified after any number of spaces, decodes to the double nearest
    to the number of its digits, leading zeros included: to that number
    itself while the doubles hold it, and for one to 9007199254740992
    when the digits are those of 9007199254740993. *)
Theorem numeric_field_of_digits (type : N) (col : list byte) (ds : list N) (pad : nat) :
  type = 78%N \/ type = 70%N ->
  ds <> [] ->
  Forall (fun d => (d < 10)%N) ds ->
  decode col = spaces pad ++ map (N.add 48) ds ->
  column_value decode type col
  = OK (JNumber (nearest_double (digits_value 10 ds # 1))).
Proof.
  intros Ht Hne Hds E.
  rewrite (@numeric_column_value decode type col Ht), E, (trim_digits pad Hne Hds).
  destruct (unsigned_decimal_digits Hne Hds) as (q & Eq & Hq).
  rewrite <- (nearest_double_Qeq Hq).
  assert (En : Number (map (N.add 48) ds) = nearest_double q).
  { unfold Number. rewrite (literal_value_digits Hne Hds), Eq. reflexivity. }
  rewrite <- En.
  destruct ds; [congruence | reflexivity].
Qed.

End Digits.

Lemma numeric_field_of_digits_witness :
  column_value windows1252 78 (ascii_bytes "  0042"%string) = OK (JNumber (Num 42))
  /\ column_value windows1252 78 (ascii_bytes "9007199254740993"%string)
     = OK (JNumber (Num 9007199254740992)).
Proof.
  split.
  - apply (@numeric_field_of_digits windows1252 78 (ascii_bytes "  0042"%string)
             [0; 0; 4; 2]%N 2).
    + left. reflexivity.
    + discriminate.
    + repeat constructor.
    + reflexivity.
  - apply (@numeric_field_of_digits windows1252 78
             (ascii_bytes "9007199254740993"%string)
             [9; 0; 0; 7; 1; 9; 9; 2; 5; 4; 7; 4; 0; 9; 9; 3]%N 0).
    + left. reflexivity.
    + discriminate.
    + repeat constructor.
    + reflexivity.
Defined.

Lemma dbfRecord_lookup_witness :
  let fields := [mkField (js "A"%string) 78 3; mkField (js "B"%string) 67 3;
                 mkField (js "A"%string) 67 3] in
  let r := [(js "A"%string, JString (js "xyz"%string));
            (js "B"%string, JString (js "abc"%string))] in
  exists col v,
    view (ascii_bytes " 012abcxyz"%string) (0 + columns_width (firstn 2 fields) + 1) 3
    = OK col
    /\ column_value windows1252 67 col = OK v
    /\ row_get (js "A"%string) r = Some v.
Proof.
  intros fields r.
  apply (@dbfRecord_lookup windows1252 (ascii_bytes " 012abcxyz"%string) 0
           (firstn 2 fields) (mkField (js "A"%string) 67 3) [] r).
  - vm_compute. reflexivity.
  - discriminate.
  - constructor.
Defined.

Lemma dbfRecord_keys_witness :
  let fields := [mkField (js "__proto__"%string) 78 3; mkField (js "B"%string) 67 3;
                 mkField (js "__proto__"%string) 67 3; mkField (js "B"%string) 67 3] in
  let r := [(js "B"%string, JString (js "xyz"%string));
            (js "__proto__"%string, JString (js "abc"%string))] in
  dbfRecord windows1252 (ascii_bytes "    012abcxyz"%string) 0 fields = OK r
  /\ NoDup (map fst r)
  /\ (forall k, In k (map fst r) -> In k (map name fields))
  /\ (forall k, k <> js "__proto__"%string -> In k (map name fields) -> In k (map fst r))
  /\ (In (js "__proto__"%string) (map fst r) ->
      (2 <= fields_named (js "__proto__"%string) fields)%nat).
Proof.
  intros fields r.
  assert (E : dbfRecord windows1252 (ascii_bytes "    012abcxyz"%string) 0 fields = OK r)
    by (vm_compute; reflexivity).
  split; [exact E|].
  exact (@dbfRecord_keys windows1252 (ascii_bytes "    012abcxyz"%string) 0 fields r E).
Defined.

(** ** [stitch] on streams that fail *)

Lemma stitch_loop_pairs (feats : list feature) (se : option error) :
  forall (props : list row) (de : option error),
    fst (stitch_loop feats se props de) = merged feats props.
Proof.
  induction feats as [|ft feats IH]; intros [|r props] de; simpl.
  - destruct se, de; reflexivity.
  - destruct se; reflexivity.
  - destruct de; reflexivity.
  - specialize (IH props de). destruct (stitch_loop feats se props de) as [ys e].
    simpl in *. rewrite IH. reflexivity.
Qed.

Lemma stitch_loop_error (feats : list feature) (se : option error) :
  forall (props : list row) (de : option error),
    snd (stitch_loop feats se props de)
    = if (length feats <? length props)%nat then
        Some (match se with Some e => e | None => TypeError NotEnoughFeatures end)
      else if (length props <? length feats)%nat then
        Some (match de with Some e => e | None => TypeError NotEnoughDbf end)
      else match se, de with
           | Some e, _ => Some e
           | None, Some e => Some e
           | None, None => None
           end.
Proof.
  induction feats as [|ft feats IH]; intros [|r props] de; simpl length.
  - simpl. destruct se, de; reflexivity.
  - simpl. destruct se; reflexivity.
  - simpl. destruct de; reflexivity.
  - specialize (IH props de). simpl stitch_loop.
    destruct (stitch_loop feats se props de) as [ys e]. simpl in IH |- *.
    rewrite IH. reflexivity.
Qed.

(** X26. [stitch] on streams that may fail.  It yields the pairs of the
    features and rows read before either stream ends, and then: when the
    geometry stream ends first, it throws the error of that stream, or
    'not enough feature records' if the stream closed; when the attribute
    stream ends first, the error of that stream, or 'not enough dbf
    records'; when both end at the same step, the error of the geometry
    stream, else the error of the attribute stream, else nothing. *)
Theorem stitch_propagates_errors (shp : stream feature) (dbf : stream row) :
  let m := length (items shp) in
  let n := length (items dbf) in
  fst (stitch shp dbf) = merged (items shp) (items dbf)
  /\ length (fst (stitch shp dbf)) = Nat.min m n
  /\ snd (stitch shp dbf)
     = if (m <? n)%nat then
         Some (match failure shp with
               | Some e => e
               | None => TypeError NotEnoughFeatures
               end)
       else if (n <? m)%nat then
         Some (match failure dbf with
               | Some e => e
               | None => TypeError NotEnoughDbf
               end)
       else match failure shp, failure dbf with
            | Some e, _ => Some e
            | None, Some e => Some e
            | None, None => None
            end.
Proof.
  intros m n. unfold stitch. rewrite stitch_loop_pairs, stitch_loop_error.
  split; [reflexivity|]. split; [|reflexivity].
  unfold merged. rewrite length_map, length_combine. reflexivity.
Qed.

(** ** [escapeHTML] ([index.js]) *)

Lemma substring_inside (str : jsstring) (a b : nat) :
  (a <= b <= length str)%nat -> substring str a b = firstn (b - a) (skipn a str).
Proof.
  intro H. unfold substring.
  rewrite (Nat.min_l a), (Nat.min_l b), Nat.max_r, Nat.min_l by lia. reflexivity.
Qed.

Lemma substring_empty (str : jsstring) (a : nat) :
  (a <= length str)%nat -> substring str a a = [].
Proof.
  intro H. rewrite substring_inside by lia. rewrite Nat.sub_diag. reflexivity.
Qed.

Lemma skipn_nth_error {A} (l : list A) (k : nat) (c : A) :
  nth_error l k = Some c -> skipn k l = c :: skipn (S k) l.
Proof.
  revert k. induction l as [|x l IH]; intros [|k] H; simpl in *; try discriminate.
  - injection H as ->. reflexivity.
  - apply IH, H.
Qed.

Lemma substring_step (str : jsstring) (a k : nat) (c : N) :
  (a <= k)%nat -> nth_error str k = Some c ->
  substring str a (S k) = substring str a k ++ [c].
Proof.
  intros Ha Hk.
  assert (Hlen : (k < length str)%nat) by (apply nth_error_Some; congruence).
  rewrite !substring_inside by lia.
  replace (S k - a)%nat with (S (k - a)) by lia.
  assert (G : forall (l : list N) (n : nat) (x : N),
             nth_error l n = Some x -> firstn (S n) l = firstn n l ++ [x]).
  { induction l as [|y l IH]; intros [|n] x H; simpl in *; try discriminate.
    - injection H as ->. reflexivity.
    - f_equal. apply IH, H. }
  apply G. rewrite nth_error_skipn. replace (a + (k - a))%nat with k by lia. exact Hk.
Qed.

Lemma escape_loop_spec (str : jsstring) (steps : nat) :
  forall (k lastIndex : nat) (html : jsstring),
    (k + steps = length str)%nat -> (lastIndex <= k)%nat ->
    let '(index, lastIndex', html') := escape_loop str steps k lastIndex html in
    index = length str
    /\ (lastIndex' <= index)%nat
    /\ html' ++ substring str lastIndex' index
       = html ++ substring str lastIndex k ++ flat_map escaped (skipn k str).
Proof.
  induction steps as [|steps IH]; intros k lastIndex html Hk Hl.
  - simpl. rewrite Nat.add_0_r in Hk. subst k.
    rewrite skipn_all. simpl. rewrite app_nil_r. auto.
  - simpl escape_loop.
    destruct (nth_error str k) as [c|] eqn:Ec.
    2:{ apply nth_error_None in Ec. lia. }
    rewrite (skipn_nth_error _ _ Ec). simpl flat_map. unfold escaped at 1.
    destruct (entity c) as [e|] eqn:Ee.
    + specialize (IH (S k) (S k)
                     ((if negb (lastIndex =? k)%nat
                       then html ++ substring str lastIndex k else html) ++ e)
                     ltac:(lia) ltac:(lia)).
      destruct (escape_loop str steps (S k) (S k) _) as [[index last'] html'].
      destruct IH as (Hi & Hl' & E). split; [exact Hi|]. split; [exact Hl'|].
      rewrite E.
      assert (Hlen : (k < length str)%nat) by lia.
      rewrite (substring_empty str (a := S k)) by lia. simpl app.
      destruct (Nat.eqb_spec lastIndex k) as [->|N]; simpl negb; cbv iota.
      * rewrite substring_empty by lia. simpl. rewrite <- app_assoc. reflexivity.
      * rewrite <- !app_assoc. reflexivity.
    + specialize (IH (S k) lastIndex html ltac:(lia) ltac:(lia)).
      destruct (escape_loop str steps (S k) lastIndex html) as [[index last'] html'].
      destruct IH as (Hi & Hl' & E). split; [exact Hi|]. split; [exact Hl'|].
      rewrite E, (substring_step str Hl Ec), <- !app_assoc. reflexivity.
Qed.

Lemma first_special_bound (str : jsstring) (i : nat) :
  first_special str = Some i ->
  (i < length str)%nat /\ Forall (fun c => is_special c = false) (firstn i str).
Proof.
  revert i. induction str as [|c str IH]; intros i H; simpl in H; [discriminate|].
  destruct (is_special c) eqn:Ec.
  - injection H as <-. simpl. split; [lia | constructor].
  - destruct (first_special str) as [j|]; [|discriminate].
    injection H as <-. destruct (IH j eq_refl) as [Hj Hf].
    simpl. split; [lia | constructor; assumption].
Qed.

Lemma first_special_none (str : jsstring) :
  first_special str = None -> Forall (fun c => is_special c = false) str.
Proof.
  induction str as [|c str IH]; intro H; simpl in H; [constructor|].
  destruct (is_special c) eqn:Ec; [discriminate|].
  destruct (first_special str); [discriminate|].
  constructor; [exact Ec | apply IH; reflexivity].
Qed.

Lemma escapeHTML_value (text : jsstring) :
  escapeHTML text
  = match text with
    | [] => None
    | _ => Some (match first_special text with
                 | None => text
                 | Some i => firstn i text ++ flat_map escaped (skipn i text)
                 end)
    end.
Proof.
  unfold escapeHTML. destruct text as [|c0 text0]; [reflexivity|].
  set (text := c0 :: text0).
  replace (jsstring_eqb text []) with false by reflexivity.
  destruct (first_special text) as [i|] eqn:Ei; [|reflexivity].
  destruct (first_special_bound _ Ei) as [Hi _].
  pose proof (@escape_loop_spec text (length text - i) i 0 [] ltac:(lia) ltac:(lia)) as H.
  destruct (escape_loop text (length text - i) i 0 []) as [[index last'] html'].
  destruct H as (Hidx & Hl' & E). f_equal.
  assert (E0 : substring text 0 i = firstn i text).
  { rewrite substring_inside by lia. rewrite Nat.sub_0_r. reflexivity. }
  simpl app in E. rewrite E0 in E. rewrite <- E.
  destruct (Nat.eqb_spec last' index) as [->|N]; simpl negb; cbv iota.
  - rewrite substring_empty by lia. rewrite app_nil_r. reflexivity.
  - reflexivity.
Qed.

(** X27. [escapeHTML] returns [undefined] for the empty string and a string
    without a double quote, a single quote, an ampersand and an angle
    bracket as it is, a backtick in it included.  Otherwise it leaves the text before the
    first of these characters as it is, backticks included, and from
    there on replaces each of them, and each backtick, by its entity. *)
Theorem escapeHTML_spec (text : jsstring) :
  escapeHTML text
  = match text with
    | [] => None
    | _ => Some (match first_special text with
                 | None => text
                 | Some i => firstn i text ++ flat_map escaped (skipn i text)
                 end)
    end.
Proof. apply escapeHTML_value. Qed.

Lemma escapeHTML_some (text out : jsstring) :
  escapeHTML text = Some out ->
  out = match first_special text with
        | None => text
        | Some i => firstn i text ++ flat_map escaped (skipn i text)
        end.
Proof.
  rewrite escapeHTML_value. destruct text; [discriminate|].
  intro H. injection H as <-. reflexivity.
Qed.

Lemma escaped_harmless (c : N) : Forall harmless (escaped c).
Proof.
  unfold escaped, entity.
  destruct (N.eqb_spec c 34); [repeat constructor; discriminate|].
  destruct (N.eqb_spec c 38); [repeat constructor; discriminate|].
  destruct (N.eqb_spec c 39); [repeat constructor; discriminate|].
  destruct (N.eqb_spec c 60); [repeat constructor; discriminate|].
  destruct (N.eqb_spec c 62); [repeat constructor; discriminate|].
  destruct (N.eqb_spec c 96); [repeat constructor; discriminate|].
  repeat constructor; assumption.
Qed.

Lemma not_special_harmless (c : N) : is_special c = false -> harmless c.
Proof.
  unfold is_special, harmless. simpl. intro H.
  repeat (apply orb_false_iff in H; destruct H as [? H]).
  repeat match goal with X : (_ =? _)%N = false |- _ => apply N.eqb_neq in X end.
  auto.
Qed.

(** X28. The string that [escapeHTML] returns holds no double quote, no single
    quote, no [<] and no [>]. *)
Theorem escapeHTML_harmless (text out : jsstring) :
  escapeHTML text = Some out -> Forall harmless out.
Proof.
  intro H. apply escapeHTML_some in H. subst out.
  destruct (first_special text) as [i|] eqn:Ei.
  - destruct (first_special_bound _ Ei) as [_ Hpre].
    apply Forall_app. split.
    + eapply Forall_impl; [|exact Hpre]. apply not_special_harmless.
    + generalize (skipn i text). intro l. induction l as [|c l IH]; simpl.
      * constructor.
      * apply Forall_app. split; [apply escaped_harmless | exact IH].
  - eapply Forall_impl; [|apply first_special_none, Ei]. apply not_special_harmless.
Qed.

Lemma escapeHTML_harmless_witness :
  Forall harmless (js "a`b&lt;i&gt;&#96;&quot;&#39;&amp;"%string).
Proof.
  apply (@escapeHTML_harmless
           (js "a`b<i>`"%string ++ [34; 39; 38]%N)
           (js "a`b&lt;i&gt;&#96;&quot;&#39;&amp;"%string)).
  vm_compute. reflexivity.
Defined.

(** ** The converter ([shp2json.js]) *)

Section ConverterLoop.

Variable stringify : feature -> jsstring.
Variable bb : jsstring.

(** The loop past [start]: it writes the next features, as many as the
    limit leaves, and comes to the end of the features when they are
    not more than that. *)
Lemma write_loop_writing (nd : bool) (start limit : Z) (features : list feature) :
  forall (first : bool) (count : Z),
    start <= count -> count <= start + limit ->
    write_loop stringify bb nd start limit first count features
    = (written stringify bb nd first
               (firstn (Z.to_nat (start + limit - count)) features),
       (length features <=? Z.to_nat (start + limit - count))%nat).
Proof.
  induction features as [|ft rest IH]; intros first count Hs Hl.
  - simpl. rewrite firstn_nil. reflexivity.
  - simpl write_loop.
    destruct (Z.leb_spec (count + 1) start); [lia|].
    destruct (Z.ltb_spec (start + limit) (count + 1)) as [Hover|Hin].
    + replace (Z.to_nat (start + limit - count)) with 0%nat by lia. reflexivity.
    + rewrite IH by lia.
      replace (Z.to_nat (start + limit - count))
        with (S (Z.to_nat (start + limit - (count + 1)))) by lia.
      reflexivity.
Qed.

Lemma write_loop_skipping (nd : bool) (start limit : Z) (features : list feature) :
  forall (first : bool) (count : Z),
    0 <= limit -> count <= start ->
    write_loop stringify bb nd start limit first count features
    = (written stringify bb nd first
               (firstn (Z.to_nat limit) (skipn (Z.to_nat (start - count)) features)),
       (length features <=? Z.to_nat (start + limit - count))%nat).
Proof.
  induction features as [|ft rest IH]; intros first count Hl Hc.
  - simpl. rewrite skipn_nil, firstn_nil. reflexivity.
  - destruct (Z.eq_dec count start) as [->|Hne].
    + rewrite write_loop_writing by lia.
      rewrite Z.sub_diag. simpl skipn.
      replace (start + limit - start) with limit by lia. reflexivity.
    + simpl write_loop.
      destruct (Z.leb_spec (count + 1) start); [|lia].
      rewrite IH by lia.
      replace (Z.to_nat (start - count)) with (S (Z.to_nat (start - (count + 1))))
        by lia.
      simpl skipn. f_equal.
      replace (Z.to_nat (start + limit - count))
        with (S (Z.to_nat (start + limit - (count + 1)))) by lia.
      reflexivity.
Qed.

Lemma written_lines (w : list feature) (first : bool) :
  written stringify bb true first w = as_lines stringify w.
Proof.
  revert first. induction w as [|ft w IH]; intro first; simpl; [reflexivity|].
  rewrite IH, <- app_assoc. reflexivity.
Qed.

Lemma written_members (w : list feature) :
  written stringify bb false false w
  = flat_map (fun f => Write collection_comma :: check f ++ [Write (stringify f)]) w.
Proof.
  induction w as [|ft w IH]; simpl; [reflexivity|].
  rewrite IH, <- app_assoc. reflexivity.
Qed.

Lemma written_collection (w : list feature) :
  written stringify bb false true w = as_collection stringify bb w.
Proof. destruct w as [|ft w]; simpl; [|rewrite written_members]; reflexivity. Qed.

Lemma texts_app (l1 l2 : list event) : texts (l1 ++ l2) = texts l1 ++ texts l2.
Proof.
  induction l1 as [|[t|v] l1 IH]; simpl; [reflexivity | rewrite IH; reflexivity | exact IH].
Qed.

Lemma texts_check (ft : feature) : texts (check ft) = [].
Proof.
  unfold check. destruct (ft_bbox ft) as [b|]; [|reflexivity].
  destruct (_ || _), (_ || _); reflexivity.
Qed.

Lemma texts_as_lines (w : list feature) :
  texts (as_lines stringify w) = text_lines stringify w.
Proof.
  induction w as [|ft w IH]; simpl; [reflexivity|].
  rewrite !texts_app, texts_check, IH. reflexivity.
Qed.

Lemma texts_members (w : list feature) :
  texts (flat_map (fun f => Write collection_comma :: check f ++ [Write (stringify f)]) w)
  = flat_map (fun f => [collection_comma; stringify f]) w.
Proof.
  induction w as [|ft w IH]; simpl; [reflexivity|].
  rewrite !texts_app, texts_check, IH. reflexivity.
Qed.

Lemma texts_as_collection (w : list feature) :
  texts (as_collection stringify bb w) = text_collection stringify bb w.
Proof.
  destruct w as [|ft w]; [reflexivity|].
  unfold as_collection, text_collection. cbn [texts]. f_equal.
  rewrite !texts_app, texts_check. cbn [texts app]. f_equal.
  apply texts_members.
Qed.

(** X29. On a stream of features that ends without an error, the
    converter writes the features after the first [start] ones, at most
    [limit] of them.  With [--ndjson] each is followed by a newline.
    Without it they are the members of a FeatureCollection; but when
    there is no feature to write, because the stream is empty or
    [start] is not less than the number of features, the opening text
    of the collection is never written and the output is the closing
    text alone.  Before the text of a feature whose [bbox] is out of
    range, [check] gives its properties to [console.log], once for the
    longitudes and once for the latitudes: lines that are mixed into
    the output unless it goes to a file. *)
Theorem converter_output (nd : bool) (start limit : Z) (features : list feature) :
  0 <= start -> 0 <= limit ->
  convert stringify bb nd start limit (closing features)
  = (if nd then as_lines stringify (window start limit features)
     else as_collection stringify bb (window start limit features)
          ++ [Write collection_end],
     None)
  /\ texts (fst (convert stringify bb nd start limit (closing features)))
     = (if nd then text_lines stringify (window start limit features)
        else text_collection stringify bb (window start limit features)
             ++ [collection_end]).
Proof.
  intros Hs Hl.
  assert (E : convert stringify bb nd start limit (closing features)
              = (if nd then as_lines stringify (window start limit features)
                 else as_collection stringify bb (window start limit features)
                      ++ [Write collection_end],
                 None)).
  { unfold convert, closing. simpl items. simpl failure.
    rewrite write_loop_skipping by lia. rewrite !Z.sub_0_r.
    fold (window start limit features).
    destruct nd.
    - rewrite written_lines. destruct (_ <=? _)%nat; cbv beta iota;
        rewrite app_nil_r; reflexivity.
    - rewrite written_collection. destruct (_ <=? _)%nat; reflexivity. }
  split; [exact E|]. rewrite E. cbn [fst].
  destruct nd; [apply texts_as_lines|].
  rewrite texts_app, texts_as_collection. reflexivity.
Qed.

(** X30. On a stream that fails after some features, the converter ends
    with the error of the stream, its output left without the closing
    text, unless more features came before the error than [start] and
    [limit] let through: then the loop has stopped before the error,
    and the output is complete.  The lines of [check] are among the
    events, as on a stream that ends well. *)
Theorem converter_error (nd : bool) (start limit : Z) (features : list feature)
        (e : error) :
  0 <= start -> 0 <= limit ->
  convert stringify bb nd start limit (mkStream features (Some e))
  = if (length features <=? Z.to_nat (start + limit))%nat then
      (if nd then as_lines stringify (window start limit features)
       else as_collection stringify bb (window start limit features),
       Some e)
    else
      convert stringify bb nd start limit (closing features).
Proof.
  intros Hs Hl. unfold convert, closing. simpl items. simpl failure.
  rewrite write_loop_skipping by lia. rewrite !Z.sub_0_r.
  fold (window start limit features).
  destruct (length features <=? Z.to_nat (start + limit))%nat; [|reflexivity].
  destruct nd; [rewrite written_lines | rewrite written_collection]; reflexivity.
Qed.

End ConverterLoop.

Lemma converter_output_witness :
  let ft := mkFeature None None None in
  let far := mkFeature (Some (mkBBox 500000 5000000 500010 5000020)) None
                       (Some [(js "ID"%string, JNumber (Num 1))]) in
  let stringify := fun _ : feature => js "{}"%string in
  fst (convert stringify (js "[]"%string) false 2 5 (closing [ft; ft]))
  = [Write collection_end]
  /\ fst (convert stringify (js "[]"%string) true 1 2 (closing [ft; far; ft; ft]))
     = [Log (properties far); Log (properties far); Write (js "{}"%string);
        Write newline; Write (js "{}"%string); Write newline].
Proof.
  intros ft far stringify. split.
  - rewrite (proj1 (@converter_output stringify (js "[]"%string) false 2 5 [ft; ft]
                      ltac:(lia) ltac:(lia))).
    reflexivity.
  - rewrite (proj1 (@converter_output stringify (js "[]"%string) true 1 2
                      [ft; far; ft; ft] ltac:(lia) ltac:(lia))).
    reflexivity.
Defined.

Lemma converter_error_witness :
  let ft := mkFeature None None None in
  let stringify := fun _ : feature => js "{}"%string in
  convert stringify (js "[]"%string) true 0 5
          (mkStream [ft] (Some (TypeError (ReadableBytesRemained 8))))
  = ([Write (js "{}"%string); Write newline], Some (TypeError (ReadableBytesRemained 8))).
Proof.
  intros ft stringify.
  apply (@converter_error stringify (js "[]"%string) true 0 5 [ft]); lia.
Defined.

(** ** The header of a geometry file ([common.js]) *)

Section HeaderGate.

Variable float64 : list byte -> Q.
Variable project : point -> point.



End HeaderGate.

